(** * A Markov-chain MIDI composer: model and verification

    Shallow embedding of [composer.py] (class [MarkovComposer]): the track
    classifier, the note extractor, the order-N transition model, the track
    generator and the two entry points [train] and [generate_music].

    Modelling conventions.
    - Python integers are [Z] (pitches, velocities, channels, the [length]
      argument of generation); list lengths, indices and the Markov [order]
      are [nat].
    - Python numbers stored in the transition dictionaries (integer counts,
      then floats after normalisation) are exact rationals kept in lowest
      terms ([num]); every float operation is the exact one.
    - A Python [dict] is an association list in insertion order without
      duplicate keys ([PyDict]).
    - Exceptions and mutation are a state monad that keeps the state reached
      when an exception is raised ([M]).
    - The process-wide random generator is a tape of natural numbers, one
      cell consumed per call of [random.choice], [random.choices] or
      [random.randint].
    - [mido] is outside the program: reading a file yields its tracks or
      fails; saving fails on a path that cannot be opened for writing and
      otherwise stores the container; [mido.MetaMessage] refuses a tempo
      that does not fit in three bytes.  The checks of [mido.Message] on
      the fields of a note message are not part of the model of
      [_generate_track]; [valid_message] states them, and the properties
      of a generated track show that every message built satisfies it when
      the velocity bounds and the pitches of the table lie within 0..127,
      as they do at the calls made by [generate_music]. *)

From Stdlib Require Import String ZArith QArith Qreduction List Bool Lia.
Import ListNotations.

Local Open Scope Z_scope.

(* ------------------------------------------------------------------ *)
(** ** Python dictionaries *)

Module PyDict.
Section Dict.
Context {K V : Type}.
Variable eqb : K -> K -> bool.

Definition dict : Type := list (K * V).

(** [d.get(k)] *)
Fixpoint get (k : K) (d : dict) : option V :=
  match d with
  | [] => None
  | (k', v) :: rest => if eqb k k' then Some v else get k rest
  end.

(** [d[k] = v]: an existing key keeps its position, a new key goes last. *)
Fixpoint set (k : K) (v : V) (d : dict) : dict :=
  match d with
  | [] => [(k, v)]
  | (k', v') :: rest =>
      if eqb k k' then (k', v) :: rest else (k', v') :: set k v rest
  end.

Definition keys (d : dict) : list K := map fst d.
Definition values (d : dict) : list V := map snd d.
End Dict.
End PyDict.

Arguments PyDict.dict : clear implicits.

(* ------------------------------------------------------------------ *)
(** ** Numbers *)

Definition num : Type := Q.

Definition of_int (z : Z) : num := inject_Z z.

(** [a + b] *)
Definition num_add (a b : num) : num := Qred (a + b).

(** [a / b] for [b <> 0] (true division) *)
Definition true_div (a b : num) : num := Qred (a / b).

Definition Qlt_bool (a b : Q) : bool := negb (Qle_bool b a).

(** [sum(xs)] on numbers: starts from the integer 0, adds left to right. *)
Definition num_sum (xs : list num) : num := fold_left num_add xs (of_int 0).

(** [sum(xs)] on integers. *)
Definition int_sum (xs : list Z) : Z := fold_left Z.add xs 0.

(* ------------------------------------------------------------------ *)
(** ** Exceptions and state *)

Inductive exn : Type :=
| UnboundLocalError
| IndexError
| ValueError
| ZeroDivisionError
| KeyError
| OSError.

Inductive outcome (A : Type) : Type :=
| Returned (a : A)
| Raised (e : exn).
Arguments Returned {A} a.
Arguments Raised {A} e.

(** A computation over a mutable state [S]: the state is kept as it is at
    the point where an exception is raised. *)
Definition M (S A : Type) : Type := S -> S * outcome A.

Definition ret {S A} (a : A) : M S A := fun s => (s, Returned a).
Definition raise {S A} (e : exn) : M S A := fun s => (s, Raised e).
Definition bind {S A B} (m : M S A) (f : A -> M S B) : M S B :=
  fun s => match m s with
           | (s', Returned a) => f a s'
           | (s', Raised e) => (s', Raised e)
           end.
Definition modify {S} (f : S -> S) : M S unit := fun s => (f s, Returned tt).
Definition gets {S A} (f : S -> A) : M S A := fun s => (s, Returned (f s)).

Declare Scope py_scope.
Delimit Scope py_scope with py.
Notation "x <- c1 ;; c2" := (bind c1 (fun x => c2))
  (at level 61, c1 at next level, right associativity) : py_scope.
Notation "c1 ;; c2" := (bind c1 (fun _ => c2))
  (at level 61, right associativity) : py_scope.

(** [for x in xs: body], threading the loop's local variables. *)
Fixpoint for_each {S X L} (xs : list X) (body : X -> L -> M S L) (l : L) : M S L :=
  match xs with
  | [] => ret l
  | x :: rest => bind (body x l) (for_each rest body)
  end.

(* ------------------------------------------------------------------ *)
(** ** MIDI messages, tracks and files *)

Inductive Msg : Type :=
| note_on (note velocity time channel : Z)
| note_off (note velocity time channel : Z)
| program_change (program channel : Z)
| set_tempo (tempo : Z)          (* MetaMessage('set_tempo') *)
| other_msg.                     (* any other message type *)

Definition Track : Type := list Msg.

Record MidiFile : Type := { tracks : list Track }.

Inductive TrackType : Type := melody | bass | other.

Definition TrackType_eqb (a b : TrackType) : bool :=
  match a, b with
  | melody, melody | bass, bass | other, other => true
  | _, _ => false
  end.

(* ------------------------------------------------------------------ *)
(** ** [_classify_track] *)

Record ClassifyVars : Type := {
  notes_in_track : list Z;
  min_pitch : Z;
  max_pitch : Z;
  is_percussion_channel : bool
}.

Definition classify_init : ClassifyVars :=
  {| notes_in_track := []; min_pitch := 128; max_pitch := -1;
     is_percussion_channel := false |}.

(** One iteration of [for msg in track]. *)
Definition classify_msg (v : ClassifyVars) (msg : Msg) : ClassifyVars :=
  match msg with
  | program_change program channel =>
      if (channel =? 9) || (program >=? 112)
      then {| notes_in_track := notes_in_track v; min_pitch := min_pitch v;
              max_pitch := max_pitch v; is_percussion_channel := true |}
      else v
  | note_on note velocity _ _ =>
      if velocity >? 0 then
        {| notes_in_track := notes_in_track v ++ [note];
           min_pitch := if note <? min_pitch v then note else min_pitch v;
           max_pitch := if note >? max_pitch v then note else max_pitch v;
           is_percussion_channel := is_percussion_channel v |}
      else v
  | _ => v
  end.

Definition _classify_track (track : Track) : TrackType :=
  let v := fold_left classify_msg track classify_init in
  match notes_in_track v with
  | [] => other
  | _ :: _ =>
      if is_percussion_channel v then other
      else
        let average_pitch :=
          true_div (of_int (int_sum (notes_in_track v)))
                   (of_int (Z.of_nat (length (notes_in_track v)))) in
        let pitch_range := max_pitch v - min_pitch v in
        if Qlt_bool average_pitch (of_int 48) && (pitch_range <? 24)
           && (10 <? Z.of_nat (length (notes_in_track v)))
        then bass
        else if Qle_bool (of_int 60) average_pitch && (pitch_range >? 12)
                && (20 <? Z.of_nat (length (notes_in_track v)))
        then melody
        else other
  end.

(** ** [_extract_notes_from_track] *)

Definition extract_msg (notes : list Z) (msg : Msg) : list Z :=
  match msg with
  | note_on note velocity _ _ => if velocity >? 0 then notes ++ [note] else notes
  | _ => notes
  end.

Definition _extract_notes_from_track (track : Track) : list Z :=
  fold_left extract_msg track [].

(* ------------------------------------------------------------------ *)
(** ** The composer object and the world it runs in *)

(** A state of the chain: [tuple(notes[i:i+order])]. *)
Definition State : Type := list Z.

Fixpoint State_eqb (a b : State) : bool :=
  match a, b with
  | [], [] => true
  | x :: a', y :: b' => (x =? y) && State_eqb a' b'
  | _, _ => false
  end.

(** [defaultdict(int)]: next note -> count, later probability. *)
Definition Dist : Type := PyDict.dict Z num.

(** [defaultdict(lambda: defaultdict(int))]: state -> [Dist]. *)
Definition Table : Type := PyDict.dict State Dist.

Definition dist_get : Z -> Dist -> option num := PyDict.get Z.eqb.
Definition dist_set : Z -> num -> Dist -> Dist := PyDict.set Z.eqb.
Definition table_get : State -> Table -> option Dist := PyDict.get State_eqb.
Definition table_set : State -> Dist -> Table -> Table := PyDict.set State_eqb.

Record MarkovComposer : Type := {
  order : nat;
  transitions_melody : Table;       (* self.transitions['melody'] *)
  transitions_bass : Table;         (* self.transitions['bass'] *)
  note_durations : list Z;
  duration_weights : list num
}.

(** [MarkovComposer(order)] *)
Definition init (order : nat) : MarkovComposer :=
  {| order := order;
     transitions_melody := [];
     transitions_bass := [];
     note_durations := [480; 240; 120; 360; 60];
     duration_weights := [2 # 5; 3 # 10; 1 # 5; 1 # 20; 1 # 20]%Q |}.

(** [self.transitions[track_type]]; the dictionary has no key ['other']. *)
Definition transitions (c : MarkovComposer) (track_type : TrackType) : outcome Table :=
  match track_type with
  | melody => Returned (transitions_melody c)
  | bass => Returned (transitions_bass c)
  | other => Raised KeyError
  end.

(** Writing through the alias [transitions = self.transitions[track_type]]. *)
Definition set_transitions (track_type : TrackType) (t : Table) (c : MarkovComposer)
  : MarkovComposer :=
  match track_type with
  | melody => {| order := order c; transitions_melody := t;
                 transitions_bass := transitions_bass c;
                 note_durations := note_durations c;
                 duration_weights := duration_weights c |}
  | bass => {| order := order c; transitions_melody := transitions_melody c;
               transitions_bass := t;
               note_durations := note_durations c;
               duration_weights := duration_weights c |}
  | other => c
  end.

(** What [print] writes. *)
Inductive Diag : Type :=
| ErrorProcessing (file_path : string)
| NoSuitableMelodyTracks
| NoSuitableBassTracks
| TrainingMelody (n : nat)
| SkippingMelodyTraining
| TrainingBass (n : nat)
| SkippingBassTraining
| NotEnoughNotes (n : nat) (order : nat) (track_type : TrackType)
| NoModelsTrained
| SkippingMelodyGeneration
| SkippingBassGeneration
| GeneratedSuccessfully (output_path : string).

(** The random generator: the cell at 0 is the next draw. *)
Definition Rng : Type := nat -> nat.

Record World : Type := {
  self : MarkovComposer;
  stdout : list Diag;                      (* oldest first *)
  disk : string -> option MidiFile;        (* readable MIDI files by path *)
  rng : Rng
}.

Definition print (d : Diag) : M World unit :=
  modify (fun w => {| self := self w; stdout := stdout w ++ [d];
                      disk := disk w; rng := rng w |}).

Definition set_self (c : MarkovComposer) : M World unit :=
  modify (fun w => {| self := c; stdout := stdout w; disk := disk w; rng := rng w |}).

Definition lift_outcome {S A} (o : outcome A) : M S A := fun s => (s, o).

(* ------------------------------------------------------------------ *)
(** ** [_build_transitions] *)

(** [transitions[state][next_note] += 1] on the nested [defaultdict]. *)
Definition incr (t : Table) (state : State) (next_note : Z) : Table :=
  let next_notes := match table_get state t with Some d => d | None => [] end in
  let count := match dist_get next_note next_notes with
               | Some c => c
               | None => of_int 0
               end in
  table_set state (dist_set next_note (num_add count (of_int 1)) next_notes) t.

(** The counting loop [for i in range(len(notes) - self.order)]. *)
Definition count_transitions (order : nat) (notes : list Z) (t : Table) : Table :=
  fold_left
    (fun t i => incr t (firstn order (skipn i notes)) (nth (i + order) notes 0))
    (seq 0 (length notes - order)) t.

(** The inner normalisation loop for one state; dividing by a zero total
    raises before anything is stored. *)
Definition normalize_dist (next_notes : Dist) : outcome Dist :=
  let total := num_sum (PyDict.values next_notes) in
  match next_notes with
  | [] => Returned []
  | _ :: _ =>
      if Qeq_bool total 0 then Raised ZeroDivisionError
      else Returned (map (fun '(next_note, count) => (next_note, true_div count total))
                         next_notes)
  end.

(** The outer normalisation loop [for state, next_notes in transitions.items()]. *)
Fixpoint normalize (t : Table) : Table * outcome unit :=
  match t with
  | [] => ([], Returned tt)
  | (state, next_notes) :: rest =>
      match normalize_dist next_notes with
      | Raised e => (t, Raised e)
      | Returned d =>
          let '(rest', r) := normalize rest in ((state, d) :: rest', r)
      end
  end.

Local Open Scope py_scope.

Definition _build_transitions (notes : list Z) (track_type : TrackType) : M World unit :=
  c <- gets self ;;
  transitions0 <- lift_outcome (transitions c track_type) ;;
  if (length notes <? order c + 1)%nat then
    print (NotEnoughNotes (length notes) (order c) track_type)
  else
    let '(transitions1, r) :=
      normalize (count_transitions (order c) notes transitions0) in
    set_self (set_transitions track_type transitions1 c) ;;
    lift_outcome r.

(* ------------------------------------------------------------------ *)
(** ** [train] *)

Definition is_note_msg (msg : Msg) : bool :=
  match msg with
  | note_on _ _ _ _ | note_off _ _ _ _ => true
  | _ => false
  end.

(** The two accumulators [melody_notes], [bass_notes]. *)
Definition Notes : Type := (list Z * list Z)%type.

(** One iteration of [for i, track in enumerate(midi_file.tracks)]. *)
Definition train_track (acc : Notes) (track : Track) : Notes :=
  if negb (existsb is_note_msg track) then acc
  else
    let track_type := _classify_track track in
    let notes := _extract_notes_from_track track in
    match track_type with
    | melody => (fst acc ++ notes, snd acc)
    | bass => (fst acc, snd acc ++ notes)
    | other => acc
    end.

(** One iteration of [for file_path in midi_files]: a file that cannot be
    read raises inside [try], which prints and continues. *)
Definition train_file (file_path : string) (acc : Notes) : M World Notes :=
  d <- gets disk ;;
  match d file_path with
  | None => print (ErrorProcessing file_path) ;; ret acc
  | Some midi_file => ret (fold_left train_track (tracks midi_file) acc)
  end.

Definition is_empty {A} (l : list A) : bool :=
  match l with [] => true | _ :: _ => false end.

Definition when {S} (b : bool) (m : M S unit) : M S unit :=
  if b then m else ret tt.

Definition train (midi_files : list string) : M World unit :=
  acc <- for_each midi_files train_file ([], []) ;;
  let melody_notes := fst acc in
  let bass_notes := snd acc in
  when (is_empty melody_notes) (print NoSuitableMelodyTracks) ;;
  when (is_empty bass_notes) (print NoSuitableBassTracks) ;;
  (if negb (is_empty melody_notes) then
     print (TrainingMelody (length melody_notes)) ;;
     _build_transitions melody_notes melody
   else print SkippingMelodyTraining) ;;
  (if negb (is_empty bass_notes) then
     print (TrainingBass (length bass_notes)) ;;
     _build_transitions bass_notes bass
   else print SkippingBassTraining).

(* ------------------------------------------------------------------ *)
(** ** The [random] module *)

(** What [_generate_track] mutates: the track it appends to and the
    random generator. *)
Record GenState : Type := {
  track : Track;
  gen_rng : Rng
}.

Definition draw : M GenState nat :=
  fun s => ({| track := track s; gen_rng := fun n => gen_rng s (S n) |},
            Returned (gen_rng s 0%nat)).

(** [random.random()]: a multiple of 2^-53 in [0, 1). *)
Definition random_unit (r : nat) : num :=
  Qred (inject_Z (Z.of_nat r mod 2 ^ 53) / inject_Z (2 ^ 53)).

(** [random.choice(seq)] *)
Definition random_choice {A} (seq : list A) : M GenState A :=
  match seq with
  | [] => raise IndexError
  | _ :: _ =>
      r <- draw ;;
      match nth_error seq (r mod length seq)%nat with
      | Some x => ret x
      | None => raise IndexError
      end
  end.

(** [itertools.accumulate(weights)] *)
Fixpoint accumulate_from (acc : num) (weights : list num) : list num :=
  match weights with
  | [] => []
  | w :: rest => let a := num_add acc w in a :: accumulate_from a rest
  end.

Definition accumulate (weights : list num) : list num :=
  match weights with
  | [] => []
  | w :: rest => w :: accumulate_from w rest
  end.

(** [bisect.bisect_right(a, x, lo, hi)]; [hi - lo] halvings suffice. *)
Fixpoint bisect_loop (fuel : nat) (a : list num) (x : num) (lo hi : nat) : nat :=
  match fuel with
  | O => lo
  | S fuel' =>
      if (lo <? hi)%nat then
        let mid := ((lo + hi) / 2)%nat in
        if Qlt_bool x (nth mid a (of_int 0))
        then bisect_loop fuel' a x lo mid
        else bisect_loop fuel' a x (mid + 1)%nat hi
      else lo
  end.

Definition bisect (a : list num) (x : num) (lo hi : nat) : nat :=
  bisect_loop (S hi) a x lo hi.

(** [random.choices(population, weights=weights, k=1)[0]] *)
Definition random_choices {A} (population : list A) (weights : list num) : M GenState A :=
  let n := length population in
  let cum_weights := accumulate weights in
  if negb (length cum_weights =? n)%nat then raise ValueError
  else
    match rev cum_weights with
    | [] => raise IndexError                            (* cum_weights[-1] *)
    | total :: _ =>
        if Qle_bool total 0 then raise ValueError
        else
          r <- draw ;;
          let x := Qred (random_unit r * total) in
          match nth_error population (bisect cum_weights x 0 (n - 1)) with
          | Some a => ret a
          | None => raise IndexError
          end
    end.

(** [random.randint(a, b)] *)
Definition random_randint (a b : Z) : M GenState Z :=
  let width := b + 1 - a in
  if 0 <? width then
    r <- draw ;; ret (a + Z.of_nat r mod width)
  else raise ValueError.

(* ------------------------------------------------------------------ *)
(** ** [_generate_track] *)

(** The local variables that the loop of [_generate_track] updates;
    [channel] is unbound until the first note is emitted. *)
Record Locals : Type := {
  current_state : State;
  generated_notes : list Z;
  channel : option Z
}.

(** [track.append(msg)] *)
Definition append (msg : Msg) : M GenState unit :=
  modify (fun s => {| track := track s ++ [msg]; gen_rng := gen_rng s |}).

(** [l[-1]] *)
Definition last_item (l : list Z) : M GenState Z :=
  match rev l with
  | [] => raise IndexError
  | x :: _ => ret x
  end.

(** [l[-order:]]; [l[-0:]] is the whole list. *)
Definition last_slice (order : nat) (l : list Z) : list Z :=
  match order with
  | O => l
  | S _ => skipn (length l - order) l
  end.

(** Reading a local variable that may be unbound. *)
Definition read_local {A} (v : option A) : M GenState A :=
  match v with
  | Some a => ret a
  | None => raise UnboundLocalError
  end.

(** One iteration of [for _ in range(length)]. *)
Definition generate_step (c : MarkovComposer) (track_type : TrackType)
    (transitions0 : Table) (initial_states : list State)
    (min_velocity max_velocity : Z) (_ : nat) (l : Locals) : M GenState Locals :=
  match table_get (current_state l) transitions0 with
  | None | Some [] =>
      s <- random_choice initial_states ;;
      ret {| current_state := s; generated_notes := generated_notes l;
             channel := channel l |}
  | Some next_note_options =>
      next_note <- random_choices (PyDict.keys next_note_options)
                                  (PyDict.values next_note_options) ;;
      note_duration <- random_choices (note_durations c) (duration_weights c) ;;
      velocity <- random_randint min_velocity max_velocity ;;
      let channel0 := if TrackType_eqb track_type melody then 0 else 1 in
      append (note_on next_note velocity note_duration channel0) ;;
      prev <- last_item (generated_notes l) ;;
      append (note_off prev velocity 0 channel0) ;;
      let generated := generated_notes l ++ [next_note] in
      ret {| current_state := last_slice (order c) generated;
             generated_notes := generated;
             channel := Some channel0 |}
  end.

(** The loop of [_generate_track] from its initial locals. *)
Definition generate_loop (c : MarkovComposer) (track_type : TrackType)
    (transitions0 : Table) (length : Z) (min_velocity max_velocity : Z)
    (l : Locals) : M GenState Locals :=
  for_each (seq 0 (Z.to_nat length))
    (generate_step c track_type transitions0 (PyDict.keys transitions0)
                   min_velocity max_velocity) l.

Definition _generate_track (c : MarkovComposer) (track_type : TrackType)
    (length : Z) (min_velocity max_velocity : Z) : M GenState unit :=
  transitions0 <- lift_outcome (transitions c track_type) ;;
  let initial_states := PyDict.keys transitions0 in
  if is_empty initial_states then ret tt
  else
    s <- random_choice initial_states ;;
    l <- generate_loop c track_type transitions0 length min_velocity max_velocity
           {| current_state := s; generated_notes := s; channel := None |} ;;
    last <- last_item (generated_notes l) ;;
    ch <- read_local (channel l) ;;
    append (note_off last 0 0 ch).

(* ------------------------------------------------------------------ *)
(** ** [generate_music] *)

(** Runs a track computation on a track object, with the world's random
    generator; returns the track as it is afterwards. *)
Definition on_track (t : Track) (m : M GenState unit) : M World Track :=
  fun w =>
    let '(s, r) := m {| track := t; gen_rng := rng w |} in
    let w' := {| self := self w; stdout := stdout w; disk := disk w;
                 rng := gen_rng s |} in
    match r with
    | Returned _ => (w', Returned (track s))
    | Raised e => (w', Raised e)
    end.

(** [mido.MetaMessage('set_tempo', tempo=t)]: mido refuses a tempo that
    does not fit in three bytes. *)
Definition meta_set_tempo (t : Z) : M World Msg :=
  if (0 <=? t) && (t <=? 16777215) then ret (set_tempo t) else raise ValueError.

(** [output_midi.save(output_path)]: the file is opened for writing, which
    fails with an [OSError] on a path that cannot be written, and then
    holds the container. *)
Definition save (writable : string -> bool) (output_path : string)
    (f : MidiFile) : M World unit :=
  if writable output_path then
    modify (fun w =>
      {| self := self w; stdout := stdout w;
         disk := fun p => if String.eqb p output_path then Some f else disk w p;
         rng := rng w |})
  else raise OSError.

Section GenerateMusic.

(** [mido.bpm2tempo], which divides by its argument. *)
Variable bpm2tempo : Z -> outcome Z.

(** The paths that [open(path, 'wb')] can open. *)
Variable writable : string -> bool.

Definition generate_music (length : Z) (output_path : string) (tempo : Z)
  : M World unit :=
  c <- gets self ;;
  if is_empty (transitions_melody c) && is_empty (transitions_bass c) then
    print NoModelsTrained
  else
    t1 <- lift_outcome (bpm2tempo tempo) ;;
    tempo1 <- meta_set_tempo t1 ;;
    t2 <- lift_outcome (bpm2tempo tempo) ;;
    tempo2 <- meta_set_tempo t2 ;;
    let melody_track := [tempo1; program_change 73 0] in
    let bass_track := [tempo2; program_change 33 1] in
    melody_track <-
      (if negb (is_empty (transitions_melody c)) then
         on_track melody_track (_generate_track c melody length 30 60)
       else print SkippingMelodyGeneration ;; ret melody_track) ;;
    bass_track <-
      (if negb (is_empty (transitions_bass c)) then
         on_track bass_track (_generate_track c bass length 40 80)
       else print SkippingBassGeneration ;; ret bass_track) ;;
    save writable output_path {| tracks := [melody_track; bass_track] |} ;;
    print (GeneratedSuccessfully output_path).

End GenerateMusic.


(* ------------------------------------------------------------------ *)
(** ** Worlds used in statements *)

(** The world after one more line has been printed. *)
Definition printed (w : World) (d : Diag) : World :=
  {| self := self w; stdout := stdout w ++ [d]; disk := disk w; rng := rng w |}.

(** A new composer, nothing printed, no readable file. *)
Definition new_world (order : nat) : World :=
  {| self := init order; stdout := []; disk := fun _ => None; rng := fun n => n |}.

(* ------------------------------------------------------------------ *)
(** ** Vocabulary of the statements about generation *)

(** The generator state after one draw. *)
Definition advance (s : GenState) : GenState :=
  {| track := track s; gen_rng := fun n => gen_rng s (S n) |}.

(** The channel [_generate_track] writes on. *)
Definition voice_channel (track_type : TrackType) : Z :=
  if TrackType_eqb track_type melody then 0 else 1.

Definition is_note_on (msg : Msg) : bool :=
  match msg with note_on _ _ _ _ => true | _ => false end.

(** Number of note-on messages of a list of events. *)
Definition count_note_on (evs : list Msg) : nat :=
  length (filter is_note_on evs).

(** Pitches of the note-on messages of a list of events, in order. *)
Definition note_on_pitches (evs : list Msg) : list Z :=
  flat_map (fun msg => match msg with note_on n _ _ _ => [n] | _ => [] end) evs.

(** A note-on or note-off on the given channel. *)
Definition note_event_on (ch : Z) (msg : Msg) : bool :=
  match msg with
  | note_on _ _ _ c | note_off _ _ _ c => c =? ch
  | _ => false
  end.

(** Every successor dictionary is non-empty with positive entries. *)
Definition positive_dist (d : Dist) : bool :=
  negb (is_empty d) && forallb (fun kv => Qlt_bool 0 (snd kv)) d.

(** A table as training leaves it: non-empty states, each with a
    non-empty successor dictionary of positive entries. *)
Definition well_formed (t : Table) : bool :=
  forallb (fun sd => negb (is_empty (fst sd)) && positive_dist (snd sd)) t.

(** The two duration lists are the ones the constructor stores; nothing in
    the program assigns them afterwards. *)
Definition standard_durations (c : MarkovComposer) : Prop :=
  note_durations c = note_durations (init 0)
  /\ duration_weights c = duration_weights (init 0).

(** The composer after [_build_transitions(notes, 'melody')] on a new
    composer of the given order. *)
Definition composer_after (notes : list Z) (order : nat) : MarkovComposer :=
  self (fst (_build_transitions notes melody (new_world order))).

(** A track object with no message yet and the tape 0, 1, 2, ... *)
Definition empty_track : GenState := {| track := []; gen_rng := fun n => n |}.

(** A computation that only appends messages satisfying [ok] to the track,
    however it ends. *)
Definition appends (ok : Msg -> bool) {A} (m : M GenState A) : Prop :=
  forall s, exists evs,
    track (fst (m s)) = track s ++ evs /\ Forall (fun e => ok e = true) evs.

(* ------------------------------------------------------------------ *)
(** ** Vocabulary of the statements about training *)

(** A non-empty successor dictionary with positive entries. *)
Definition dist_pos (d : Dist) : Prop :=
  d <> [] /\ Forall (fun kv => 0 < snd kv)%Q d.

(** An entry while counting: a state of [order] pitches with positive
    counts. *)
Definition entry_ok (order : nat) (sd : State * Dist) : Prop :=
  length (fst sd) = order /\ dist_pos (snd sd).

(** An entry after normalisation: its values also sum to 1. *)
Definition entry_normalized (order : nat) (sd : State * Dist) : Prop :=
  entry_ok order sd /\ (num_sum (PyDict.values (snd sd)) == 1)%Q.

(** Both tables of a composer consist of normalised entries. *)
Definition model_invariant (c : MarkovComposer) : Prop :=
  Forall (entry_normalized (order c)) (transitions_melody c)
  /\ Forall (entry_normalized (order c)) (transitions_bass c).

(** Two composers with the same order and duration lists. *)
Definition same_settings (c c' : MarkovComposer) : Prop :=
  order c' = order c
  /\ note_durations c' = note_durations c
  /\ duration_weights c' = duration_weights c.

(** What the inner normalisation loop stores for one state. *)
Definition normalized (d : Dist) : Dist :=
  map (fun '(next_note, count) =>
         (next_note, true_div count (num_sum (PyDict.values d)))) d.

(** Plain sum of rationals. *)
Definition Qsum (xs : list Q) : Q := fold_right Qplus 0%Q xs.

(** A track of note-ons with the given pitches. *)
Definition notes_track (channel : Z) (pitches : list Z) : Track :=
  map (fun p => note_on p 64 120 channel) pitches.

(** Thirty notes in [64, 84], range 20. *)
Definition melody_example : Track :=
  program_change 73 0 :: notes_track 0 (concat (repeat [64; 84; 72] 10)).

(** Fifteen notes in [36, 46], range 10. *)
Definition bass_example : Track :=
  program_change 33 1
  :: notes_track 1 [36; 40; 43; 36; 40; 46; 38; 36; 40; 43; 46; 38; 41; 36; 40].

(** Thirty notes in [64, 84], sharing the state (64, 84) with
    [melody_example]. *)
Definition melody_variation : Track :=
  notes_track 0 (concat (repeat [64; 84; 76] 10)).

(** A disk with three readable files. *)
Definition example_disk (p : string) : option MidiFile :=
  if String.eqb p "bass.mid" then Some {| tracks := [bass_example] |}
  else if String.eqb p "melody.mid"
       then Some {| tracks := [[set_tempo 500000]; melody_example] |}
  else if String.eqb p "variation.mid"
       then Some {| tracks := [melody_variation] |}
       else None.

Definition example_world : World :=
  {| self := init 2; stdout := []; disk := example_disk; rng := fun n => n |}.

Definition trained_world : World :=
  fst (train ["bass.mid"; "melody.mid"; "missing.mid"]%string example_world).

(* ------------------------------------------------------------------ *)
(** ** The three-note cycle *)

(** The pitches 60, 62, 64 repeated 30 times. *)
Definition cycle_notes : list Z := concat (repeat [60; 62; 64] 30).

Definition cycle_table : Table :=
  [([60; 62], [(64, 1%Q)]); ([62; 64], [(60, 1%Q)]); ([64; 60], [(62, 1%Q)])].

(** The pitch at position [i] of the endless cycle 60, 62, 64, 60, ... *)
Definition cycle_at (i : nat) : Z := nth (i mod 3) [60; 62; 64] 0.

(** The state made of positions [k] and [k + 1] of the cycle. *)
Definition cycle_state (k : nat) : State := [cycle_at k; cycle_at (S k)].

(** The composer after [_build_transitions(cycle_notes, 'melody')], order 2. *)
Definition cycle_composer : MarkovComposer := composer_after cycle_notes 2.

(* ------------------------------------------------------------------ *)
(** ** The classification rule as the specification words it *)

(** Pitches of the note-ons with velocity > 0, in event order. *)
Definition sounding_pitches (track : Track) : list Z :=
  flat_map (fun msg => match msg with
                       | note_on note velocity _ _ =>
                           if velocity >? 0 then [note] else []
                       | _ => []
                       end) track.

(** Some program change uses channel 9 or a program >= 112. *)
Definition percussion_flag (track : Track) : bool :=
  existsb (fun msg => match msg with
                      | program_change program channel =>
                          (channel =? 9) || (program >=? 112)
                      | _ => false
                      end) track.

(** max - min of a list of pitches. *)
Definition pitch_range (pitches : list Z) : Z :=
  match pitches with
  | [] => 0
  | p :: ps => fold_right Z.max p ps - fold_right Z.min p ps
  end.

(** Steps 3 to 7 of the classifier, on the collected data. *)
Definition classify_spec (track : Track) : TrackType :=
  let pitches := sounding_pitches track in
  if is_empty pitches || percussion_flag track then other
  else
    let count := Z.of_nat (length pitches) in
    let average_pitch :=
      Qdiv (inject_Z (fold_right Z.add 0 pitches)) (inject_Z count) in
    if Qlt_bool average_pitch (inject_Z 48) && (pitch_range pitches <? 24)
       && (count >? 10)
    then bass
    else if Qle_bool (inject_Z 60) average_pitch && (pitch_range pitches >? 12)
            && (count >? 20)
    then melody
    else other.

(** MIDI note numbers. *)
Definition valid_pitch (p : Z) : bool := (0 <=? p) && (p <=? 127).

(* ------------------------------------------------------------------ *)
(** ** Vocabulary of the statements about several files *)

(** The (state, next note) pairs that the counting loop visits, in order. *)
Definition observations (order : nat) (notes : list Z) : list (State * Z) :=
  map (fun i => (firstn order (skipn i notes), nth (i + order) notes 0))
      (seq 0 (length notes - order)).

(** Counting a list of observations into a table. *)
Definition record_all (t : Table) (obs : list (State * Z)) : Table :=
  fold_left (fun t o => incr t (fst o) (snd o)) obs t.

(** The pitches around the junction of two files: the last [order] pitches
    of the first followed by the first [order] pitches of the second. *)
Definition boundary (order : nat) (xs ys : list Z) : list Z :=
  skipn (length xs - order) xs ++ firstn order ys.

(** Raw counts accumulated file by file. *)
Definition accumulate_files (order : nat) (files : list (list Z)) (t : Table)
  : Table :=
  fold_left (fun t notes => count_transitions order notes t) files t.

(** Two tables that map every state to the same successor dictionary. *)
Definition same_table (t1 t2 : Table) : Prop :=
  forall state, table_get state t1 = table_get state t2.

(* ------------------------------------------------------------------ *)
(** ** Vocabulary of the statements about frequencies *)

(** Number of observations of [next_note] after [state]. *)
Definition pair_count (state : State) (next_note : Z) (obs : list (State * Z)) : nat :=
  length (filter (fun o => State_eqb state (fst o) && (next_note =? snd o)) obs).

(** Number of observations of any note after [state]. *)
Definition state_count (state : State) (obs : list (State * Z)) : nat :=
  length (filter (fun o => State_eqb state (fst o)) obs).

(** The number a table holds for [next_note] after [state]; 0 when absent. *)
Definition table_count (t : Table) (state : State) (next_note : Z) : Q :=
  match table_get state t with
  | Some d => match dist_get next_note d with Some c => c | None => 0%Q end
  | None => 0%Q
  end.

(** The sum of the numbers a table holds for [state]; 0 when absent. *)
Definition table_total (t : Table) (state : State) : Q :=
  match table_get state t with
  | Some d => Qsum (PyDict.values d)
  | None => 0%Q
  end.

(* ------------------------------------------------------------------ *)
(** ** Vocabulary of the statements about a corpus *)

(** The notes a track contributes to voice [v]: its sounding pitches when
    it is classified as [v], nothing otherwise. *)
Definition qualifying (v : TrackType) (track : Track) : list Z :=
  if TrackType_eqb (_classify_track track) v then sounding_pitches track else [].

(** The notes of voice [v] in a list of files, in file and track order;
    an unreadable file contributes nothing. *)
Definition corpus_notes (d : string -> option MidiFile) (v : TrackType)
    (midi_files : list string) : list Z :=
  flat_map (fun p => match d p with
                     | Some f => flat_map (qualifying v) (tracks f)
                     | None => []
                     end) midi_files.

(** The files that cannot be read, in order. *)
Definition unreadable (d : string -> option MidiFile) (midi_files : list string)
  : list string :=
  filter (fun p => match d p with None => true | Some _ => false end) midi_files.

(** The table built from a note sequence on an empty table. *)
Definition table_of (order : nat) (notes : list Z) : Table :=
  fst (normalize (count_transitions order notes [])).

(** What [train] prints after the file loop for one voice. *)
Definition voice_summary (order : nat) (v : TrackType) (notes : list Z)
    (training skipping : Diag) : list Diag :=
  if is_empty notes then [skipping]
  else training
       :: (if (length notes <? order + 1)%nat
           then [NotEnoughNotes (length notes) order v] else []).

(** What [train] prints after the file loop. *)
Definition train_summary (order : nat) (melody_notes bass_notes : list Z)
  : list Diag :=
  (if is_empty melody_notes then [NoSuitableMelodyTracks] else [])
  ++ (if is_empty bass_notes then [NoSuitableBassTracks] else [])
  ++ voice_summary order melody melody_notes
       (TrainingMelody (length melody_notes)) SkippingMelodyTraining
  ++ voice_summary order bass bass_notes
       (TrainingBass (length bass_notes)) SkippingBassTraining.

(** The composer that [train] leaves when started on a new composer. *)
Definition trained (order : nat) (melody_notes bass_notes : list Z)
  : MarkovComposer :=
  set_transitions bass (table_of order bass_notes)
    (set_transitions melody (table_of order melody_notes) (init order)).

Definition is_not_enough (d : Diag) : bool :=
  match d with NotEnoughNotes _ _ _ => true | _ => false end.

(* ------------------------------------------------------------------ *)
(** ** Vocabulary of the statements about the generated events *)

(** A generated note: pitch, velocity, duration. *)
Definition Played : Type := (Z * Z * Z)%type.

Definition played_pitch (x : Played) : Z := fst (fst x).

(** The events of a run of generated notes on channel [ch], where [prev]
    is the pitch generated before the run: each note-on carries its
    duration as delta time and is followed at delta 0 by the note-off of
    the previous pitch, with the new note's velocity. *)
Fixpoint render (ch prev : Z) (notes : list Played) : list Msg :=
  match notes with
  | [] => []
  | (p, v, d) :: rest =>
      note_on p v d ch :: note_off prev v 0 ch :: render ch p rest
  end.

(** Every pitch that is a successor of some state of the table. *)
Definition successors (t : Table) : list Z :=
  flat_map (fun sd => PyDict.keys (snd sd)) t.

(** Every pitch of the table, in states or successors, is among [notes]. *)
Definition pitches_within (notes : list Z) (t : Table) : Prop :=
  Forall (fun sd => incl (fst sd) notes
                    /\ Forall (fun kv => In (fst kv) notes) (snd sd)) t.

(** The pitch of a note event is among [notes]; other events do not occur. *)
Definition pitch_within (notes : list Z) (msg : Msg) : Prop :=
  match msg with
  | note_on p _ _ _ | note_off p _ _ _ => In p notes
  | _ => False
  end.

(* ------------------------------------------------------------------ *)
(** ** Vocabulary of the statements about what [mido] accepts *)

(** A MIDI data byte: a note number, a velocity or a program number. *)
Definition data_byte (x : Z) : bool := (0 <=? x) && (x <=? 127).

(** A message that [mido] builds and writes: data bytes in 0..127, a
    channel in 0..15, a tempo of three bytes and a delta time that is not
    negative. *)
Definition valid_message (msg : Msg) : bool :=
  match msg with
  | note_on note velocity time channel
  | note_off note velocity time channel =>
      valid_pitch note && data_byte velocity && (0 <=? time)
      && (0 <=? channel) && (channel <=? 15)
  | program_change program channel =>
      data_byte program && (0 <=? channel) && (channel <=? 15)
  | set_tempo tempo => (0 <=? tempo) && (tempo <=? 16777215)
  | other_msg => true
  end.

(** Every pitch of the table, in a state or among the successors of a
    state, is a MIDI note number. *)
Definition valid_table (t : Table) : bool :=
  forallb (fun sd => forallb valid_pitch (fst sd)
                     && forallb valid_pitch (PyDict.keys (snd sd))) t.

(** Every message of the container is one that [mido] builds and writes. *)
Definition valid_file (f : MidiFile) : Prop :=
  Forall (Forall (fun msg => valid_message msg = true)) (tracks f).

(* ------------------------------------------------------------------ *)
(** ** Vocabulary of the statements about [generate_music] *)

(** The "Skipping ... generation" lines that [generate_music] prints. *)
Definition skipped_voices (c : MarkovComposer) : list Diag :=
  (if is_empty (transitions_melody c) then [SkippingMelodyGeneration] else [])
  ++ (if is_empty (transitions_bass c) then [SkippingBassGeneration] else []).

(** A container as [generate_music] writes it: two tracks with their
    headers, then note events of the voice's channel only. *)
Definition two_voice_file (f : MidiFile) : Prop :=
  exists t evs_m evs_b,
    f = {| tracks := [set_tempo t :: program_change 73 0 :: evs_m;
                      set_tempo t :: program_change 33 1 :: evs_b] |}
    /\ Forall (fun e => note_event_on 0 e = true) evs_m
    /\ Forall (fun e => note_event_on 1 e = true) evs_b.

(* ------------------------------------------------------------------ *)
(** ** [main.py] *)

(** A line on the console: one printed by the composer or one of the three
    that [main.py] prints itself. *)
Inductive ConsoleLine : Type :=
| FromComposer (d : Diag)
| NoMidiFilesFound
| TrainingOnFiles (n : nat)
| GeneratingNewMusic.

(** What a run of the script can change. *)
Record Process : Type := {
  console : list ConsoleLine;
  files : string -> option MidiFile;
  entropy : Rng
}.

Definition say (line : ConsoleLine) : M Process unit :=
  modify (fun p => {| console := console p ++ [line]; files := files p;
                      entropy := entropy p |}).

(** A method call on the composer object [c]: what it prints goes to the
    console, also when it raises. *)
Definition call (c : MarkovComposer) (m : M World unit) : M Process MarkovComposer :=
  fun p =>
    let '(w, r) := m {| self := c; stdout := []; disk := files p;
                        rng := entropy p |} in
    let p' := {| console := console p ++ map FromComposer (stdout w);
                 files := disk w; entropy := rng w |} in
    match r with
    | Returned _ => (p', Returned (self w))
    | Raised e => (p', Raised e)
    end.

Section Main.

Variable bpm2tempo : Z -> outcome Z.
Variable writable : string -> bool.

(** The body of [if __name__ == "__main__"], given the list that
    [glob.glob] returns. *)
Definition main (midi_files : list string) : M Process unit :=
  if is_empty midi_files then say NoMidiFilesFound
  else
    let composer := init 2 in
    say (TrainingOnFiles (length midi_files)) ;;
    composer <- call composer (train midi_files) ;;
    say GeneratingNewMusic ;;
    composer <- call composer
                  (generate_music bpm2tempo writable 200
                                  "generated_music.mid" 120) ;;
    ret tt.

End Main.

(** A process whose disk is the example disk. *)
Definition example_process : Process :=
  {| console := []; files := example_disk; entropy := fun n => n |}.

(** The files that can be read, in order. *)
Definition readable (d : string -> option MidiFile) (midi_files : list string)
  : list string :=
  filter (fun p => negb match d p with None => true | Some _ => false end)
         midi_files.

Local Close Scope py_scope.

(* ================================================================== *)
(** * Properties *)

(** ** Dictionaries *)

Lemma State_eqb_eq (a b : State) : State_eqb a b = true <-> a = b.
Proof.
  revert b; induction a as [|x a IH]; intros [|y b]; simpl;
    try (split; [discriminate | congruence]); try tauto.
  rewrite andb_true_iff, Z.eqb_eq, IH.
  split; [intros [-> ->]; reflexivity | intros H; inversion H; auto].
Qed.

Lemma State_eqb_refl (a : State) : State_eqb a a = true.
Proof. apply State_eqb_eq; reflexivity. Qed.

Section DictFacts.
Context {K V : Type}.
Variable eqb : K -> K -> bool.
Hypothesis eqb_eq : forall a b, eqb a b = true <-> a = b.

Lemma get_In (k : K) (d : PyDict.dict K V) (v : V) :
  PyDict.get eqb k d = Some v -> In (k, v) d.
Proof.
  induction d as [|[k' v'] d IH]; simpl; [discriminate|].
  destruct (eqb k k') eqn:E.
  - intros [= ->]. apply eqb_eq in E as ->. now left.
  - intros H; right; auto.
Qed.

Lemma In_get (k : K) (d : PyDict.dict K V) :
  In k (PyDict.keys d) -> exists v, PyDict.get eqb k d = Some v /\ In (k, v) d.
Proof.
  induction d as [|[k' v'] d IH]; simpl; [tauto|].
  intros H. destruct (eqb k k') eqn:E.
  - apply eqb_eq in E as ->. exists v'; auto.
  - destruct H as [H|H].
    + subst k'. assert (eqb k k = true) by now apply eqb_eq. congruence.
    + destruct (IH H) as (v & Hv & Hin). exists v; auto.
Qed.

Lemma set_Forall (P : K * V -> Prop) (k : K) (v : V) (d : PyDict.dict K V) :
  Forall P d -> P (k, v) -> Forall P (PyDict.set eqb k v d).
Proof.
  intros Hd Hk. induction Hd as [|[k' v'] d Hkv Hd IH]; simpl.
  - now constructor.
  - destruct (eqb k k') eqn:E.
    + apply eqb_eq in E as <-. now constructor.
    + now constructor.
Qed.

Lemma set_not_nil (k : K) (v : V) (d : PyDict.dict K V) :
  PyDict.set eqb k v d <> [].
Proof. destruct d as [|[k' v'] d]; simpl; [|destruct (eqb k k')]; discriminate. Qed.
End DictFacts.

(** ** The state monad *)

(** A loop whose body always returns and re-establishes an invariant indexed
    by the number of completed iterations returns, with the invariant. *)
Lemma for_each_invariant {S X L} (I : nat -> L -> S -> Prop)
    (body : X -> L -> M S L) :
  (forall k x l s, I k l s ->
     exists l' s', body x l s = (s', Returned l') /\ I (Datatypes.S k) l' s') ->
  forall xs k l s, I k l s ->
    exists l' s', for_each xs body l s = (s', Returned l')
                  /\ I (k + length xs)%nat l' s'.
Proof.
  intros Hbody xs; induction xs as [|x xs IH]; intros k l s HI; simpl.
  - exists l, s. rewrite Nat.add_0_r. now split.
  - destruct (Hbody k x l s HI) as (l1 & s1 & E1 & HI1).
    destruct (IH _ _ _ HI1) as (l2 & s2 & E2 & HI2).
    exists l2, s2. unfold bind. rewrite E1. split; [exact E2|].
    now replace (k + Datatypes.S (length xs))%nat
      with (Datatypes.S k + length xs)%nat by lia.
Qed.

(* ------------------------------------------------------------------ *)
(** ** Insufficient data and empty models *)

(** C5. When the pitch sequence is shorter than [order + 1],
    [_build_transitions] returns without raising, prints exactly one
    diagnostic and changes nothing else: the voice's table is left as it
    was, so a table that was empty (as on a new composer) stays empty. *)
Theorem build_transitions_too_short (notes : list Z) (track_type : TrackType)
    (w : World) (t : Table) :
  transitions (self w) track_type = Returned t ->
  (length notes < order (self w) + 1)%nat ->
  _build_transitions notes track_type w
    = (printed w (NotEnoughNotes (length notes) (order (self w)) track_type),
       Returned tt)
  /\ transitions
       (self (fst (_build_transitions notes track_type w))) track_type = Returned t
  /\ (t = [] ->
      transitions
        (self (fst (_build_transitions notes track_type w))) track_type = Returned []).
Proof.
  intros Ht Hlen.
  assert (E : _build_transitions notes track_type w
    = (printed w (NotEnoughNotes (length notes) (order (self w)) track_type),
       Returned tt)).
  { unfold _build_transitions, bind, gets, lift_outcome. rewrite Ht.
    apply Nat.ltb_lt in Hlen. rewrite Hlen. reflexivity. }
  rewrite E. simpl. repeat split; [exact Ht | intros <-; exact Ht].
Qed.

(** Two notes with order 2 on a new composer: one diagnostic, empty table. *)
Lemma build_transitions_too_short_witness :
  _build_transitions [60; 62] melody (new_world 2)
    = (printed (new_world 2) (NotEnoughNotes 2 2 melody), Returned tt)
  /\ transitions
       (self (fst (_build_transitions [60; 62] melody (new_world 2)))) melody
     = Returned [].
Proof.
  destruct (build_transitions_too_short [60; 62] melody (new_world 2) [])
    as (H1 & _ & H3).
  - reflexivity.
  - simpl; lia.
  - split; [exact H1 | apply H3; reflexivity].
Defined.

(** C6. On an empty table [_generate_track] returns at once: nothing is
    appended to the track and nothing is raised.  When both tables are empty
    [generate_music] prints one diagnostic and returns; no file is written
    and nothing is raised. *)
Theorem generation_without_model :
  (forall c track_type length min_velocity max_velocity s,
      transitions c track_type = Returned [] ->
      _generate_track c track_type length min_velocity max_velocity s
        = (s, Returned tt))
  /\ (forall bpm2tempo writable length output_path tempo w,
      transitions_melody (self w) = [] ->
      transitions_bass (self w) = [] ->
      generate_music bpm2tempo writable length output_path tempo w
        = (printed w NoModelsTrained, Returned tt)
      /\ disk (fst (generate_music bpm2tempo writable length output_path tempo w))
         = disk w).
Proof.
  split.
  - intros c track_type len lo hi s Ht.
    unfold _generate_track, bind, lift_outcome. rewrite Ht. reflexivity.
  - intros bpm wr len path tempo w Hm Hb.
    assert (E : generate_music bpm wr len path tempo w
                = (printed w NoModelsTrained, Returned tt)).
    { unfold generate_music, bind, gets. rewrite Hm, Hb. reflexivity. }
    rewrite E. split; reflexivity.
Qed.

(** A new composer of order 2 asked for 200 notes. *)
Lemma generation_without_model_witness :
  _generate_track (init 2) melody 200 30 60 {| track := []; gen_rng := fun n => n |}
    = ({| track := []; gen_rng := fun n => n |}, Returned tt)
  /\ generate_music (fun _ => Returned 500000) (fun _ => true) 200
       "generated_music.mid" 120 (new_world 2)
     = (printed (new_world 2) NoModelsTrained, Returned tt).
Proof.
  destruct generation_without_model as [H1 H2]. split.
  - apply H1. reflexivity.
  - apply H2; reflexivity.
Defined.

(* ------------------------------------------------------------------ *)
(** ** The random module never fails on the program's arguments *)

Lemma bisect_loop_le (fuel : nat) (a : list num) (x : num) (lo hi : nat) :
  (lo <= hi)%nat -> (bisect_loop fuel a x lo hi <= hi)%nat.
Proof.
  revert lo hi; induction fuel as [|fuel IH]; intros lo hi Hle;
    cbn [bisect_loop]; [exact Hle|].
  destruct (lo <? hi)%nat eqn:E; [|exact Hle].
  apply Nat.ltb_lt in E.
  pose proof (Nat.div_mod_eq (lo + hi) 2) as Hd.
  pose proof (Nat.mod_upper_bound (lo + hi) 2 ltac:(lia)) as Hm.
  destruct (Qlt_bool x _).
  - apply Nat.le_trans with ((lo + hi) / 2)%nat; [apply IH|]; lia.
  - apply IH; lia.
Qed.

Lemma random_choice_returns {A} (seq : list A) (s : GenState) :
  seq <> [] ->
  exists x, In x seq /\ random_choice seq s = (advance s, Returned x).
Proof.
  intros Hne. destruct seq as [|a seq]; [congruence|].
  unfold random_choice, bind, draw.
  set (i := (gen_rng s 0 mod length (a :: seq))%nat).
  assert (Hi : (i < length (a :: seq))%nat)
    by (apply Nat.mod_upper_bound; simpl; lia).
  destruct (nth_error (a :: seq) i) as [x|] eqn:E.
  - exists x. split; [eapply nth_error_In; eauto | reflexivity].
  - apply nth_error_None in E. lia.
Qed.

Lemma accumulate_from_length (acc : num) (ws : list num) :
  length (accumulate_from acc ws) = length ws.
Proof. revert acc; induction ws; intros; simpl; auto. Qed.

Lemma accumulate_length (ws : list num) : length (accumulate ws) = length ws.
Proof. destruct ws; simpl; auto using accumulate_from_length. Qed.

Lemma num_add_pos (a b : num) : (0 < a -> 0 < b -> 0 < num_add a b)%Q.
Proof.
  intros Ha Hb. unfold num_add. rewrite Qred_correct.
  apply Qlt_trans with (0 + b)%Q.
  - now rewrite Qplus_0_l.
  - apply Qplus_lt_le_compat; [exact Ha | apply Qle_refl].
Qed.

Lemma accumulate_from_pos (acc : num) (ws : list num) :
  (0 < acc)%Q -> Forall (fun w => 0 < w)%Q ws ->
  Forall (fun w => 0 < w)%Q (accumulate_from acc ws).
Proof.
  intros Hacc Hws; revert acc Hacc; induction Hws as [|w ws Hw Hws IH];
    intros acc Hacc; simpl; constructor.
  - now apply num_add_pos.
  - apply IH. now apply num_add_pos.
Qed.

Lemma accumulate_pos (ws : list num) :
  Forall (fun w => 0 < w)%Q ws -> Forall (fun w => 0 < w)%Q (accumulate ws).
Proof.
  intros H; destruct H as [|w ws Hw Hws]; simpl; constructor; auto.
  now apply accumulate_from_pos.
Qed.

(** With as many weights as candidates and a positive total,
    [random.choices] consumes one draw and returns a candidate. *)
Lemma random_choices_returns {A} (population : list A) (weights : list num)
    (s : GenState) :
  length weights = length population ->
  (forall total rest, rev (accumulate weights) = total :: rest ->
                      Qle_bool total 0 = false) ->
  population <> [] ->
  exists a, In a population
            /\ random_choices population weights s = (advance s, Returned a).
Proof.
  intros Hlen Htot Hne. unfold random_choices. cbv zeta.
  rewrite accumulate_length, Hlen, Nat.eqb_refl. simpl negb. cbv iota.
  destruct (rev (accumulate weights)) as [|total rest] eqn:Erev.
  - exfalso. apply (f_equal (@length _)) in Erev.
    rewrite length_rev, accumulate_length, Hlen in Erev.
    destruct population; simpl in *; congruence.
  - rewrite (Htot total rest eq_refl). unfold bind, draw.
    cbn [negb]. cbv beta iota zeta.
    set (i := bisect _ _ _ _).
    assert (Hi : (i <= length population - 1)%nat)
      by (apply bisect_loop_le; lia).
    destruct (nth_error population i) as [a|] eqn:E.
    + exists a. split; [eapply nth_error_In; eauto | reflexivity].
    + apply nth_error_None in E. destruct population; simpl in *; [congruence|lia].
Qed.

Lemma positive_weights_total (weights : list num) :
  Forall (fun w => 0 < w)%Q weights ->
  forall total rest, rev (accumulate weights) = total :: rest ->
                     Qle_bool total 0 = false.
Proof.
  intros Hpos total rest Erev.
  assert (Hin : In total (accumulate weights)).
  { apply in_rev. rewrite Erev. now left. }
  pose proof (accumulate_pos _ Hpos) as Hacc.
  rewrite Forall_forall in Hacc. specialize (Hacc _ Hin).
  destruct (Qle_bool total 0) eqn:E; [|reflexivity].
  apply Qle_bool_iff in E. exfalso. eapply Qlt_not_le; eauto.
Qed.

Lemma random_randint_returns (a b : Z) (s : GenState) :
  a <= b ->
  exists v, a <= v <= b /\ random_randint a b s = (advance s, Returned v).
Proof.
  intros Hab. unfold random_randint.
  assert (E : (0 <? b + 1 - a) = true) by (apply Z.ltb_lt; lia).
  rewrite E. unfold bind, draw.
  exists (a + Z.of_nat (gen_rng s 0%nat) mod (b + 1 - a)). split; [|reflexivity].
  pose proof (Z.mod_pos_bound (Z.of_nat (gen_rng s 0%nat)) (b + 1 - a) ltac:(lia)).
  lia.
Qed.

(* ------------------------------------------------------------------ *)
(** ** One iteration of the generation loop *)

Lemma Qlt_bool_true (a b : Q) : Qlt_bool a b = true -> (a < b)%Q.
Proof.
  unfold Qlt_bool. intros H. apply Qnot_le_lt. intros Hle.
  apply Qle_bool_iff in Hle. rewrite Hle in H. discriminate.
Qed.

Lemma positive_dist_spec (d : Dist) :
  positive_dist d = true ->
  d <> [] /\ Forall (fun w => 0 < w)%Q (PyDict.values d).
Proof.
  unfold positive_dist. rewrite andb_true_iff, forallb_forall. intros [Hne Hall].
  split; [destruct d; [discriminate | congruence]|].
  unfold PyDict.values. apply Forall_forall. intros w Hw.
  apply in_map_iff in Hw as (kv & <- & Hkv). now apply Qlt_bool_true, Hall.
Qed.

Lemma well_formed_In (t : Table) (s : State) (d : Dist) :
  well_formed t = true -> In (s, d) t -> s <> [] /\ positive_dist d = true.
Proof.
  unfold well_formed. rewrite forallb_forall. intros H Hin.
  specialize (H _ Hin). simpl in H. apply andb_true_iff in H as [Hs Hd].
  split; [destruct s; [discriminate | congruence] | exact Hd].
Qed.

Lemma last_item_returns (l : list Z) (s : GenState) :
  l <> [] -> last_item l s = (s, Returned (last l 0)).
Proof.
  intros Hne. destruct l as [|x l] using rev_ind; [congruence|].
  unfold last_item. rewrite rev_app_distr, last_last. reflexivity.
Qed.

Lemma standard_durations_choice (c : MarkovComposer) (s : GenState) :
  standard_durations c ->
  exists dur, In dur (note_durations c)
    /\ random_choices (note_durations c) (duration_weights c) s
       = (advance s, Returned dur).
Proof.
  intros [Hd Hw]. rewrite Hd, Hw. apply random_choices_returns.
  - reflexivity.
  - intros total rest H. vm_compute in H. injection H as <- _. reflexivity.
  - discriminate.
Qed.

(** When the current state has successors, an iteration draws three times
    and appends a note-on for the new pitch and a note-off for the previous
    one, both on the voice's channel. *)
Lemma generate_step_emits (c : MarkovComposer) (track_type : TrackType)
    (t : Table) (inits : list State) (lo hi : Z) (i : nat) (l : Locals)
    (s : GenState) (d : Dist) :
  standard_durations c -> lo <= hi ->
  table_get (current_state l) t = Some d ->
  positive_dist d = true ->
  generated_notes l <> [] ->
  exists next dur vel s',
    In next (PyDict.keys d)
    /\ generate_step c track_type t inits lo hi i l s
       = (s', Returned {| current_state :=
                            last_slice (order c) (generated_notes l ++ [next]);
                          generated_notes := generated_notes l ++ [next];
                          channel := Some (voice_channel track_type) |})
    /\ track s' = track s
                  ++ [note_on next vel dur (voice_channel track_type);
                      note_off (last (generated_notes l) 0) vel 0
                               (voice_channel track_type)].
Proof.
  intros Hstd Hlohi Hget Hpos Hgen.
  apply positive_dist_spec in Hpos as [Hne Hpos].
  destruct (random_choices_returns (PyDict.keys d) (PyDict.values d) s)
    as (next & Hnext & E1).
  { unfold PyDict.keys, PyDict.values. now rewrite !length_map. }
  { now apply positive_weights_total. }
  { destruct d; [congruence | discriminate]. }
  destruct (standard_durations_choice c (advance s) Hstd) as (dur & _ & E2).
  destruct (random_randint_returns lo hi (advance (advance s)) Hlohi)
    as (vel & _ & E3).
  exists next, dur, vel. eexists. split; [exact Hnext|].
  unfold generate_step. rewrite Hget. destruct d as [|kv d]; [congruence|].
  unfold bind. rewrite E1, E2, E3. unfold append, modify.
  rewrite last_item_returns by exact Hgen.
  split; [reflexivity|]. simpl. now rewrite <- app_assoc.
Qed.

(** When the current state has no successors, an iteration draws once,
    re-picks a state of the table and appends nothing. *)
Lemma generate_step_retries (c : MarkovComposer) (track_type : TrackType)
    (t : Table) (inits : list State) (lo hi : Z) (i : nat) (l : Locals)
    (s : GenState) :
  inits <> [] ->
  table_get (current_state l) t = None
  \/ table_get (current_state l) t = Some [] ->
  exists st,
    In st inits
    /\ generate_step c track_type t inits lo hi i l s
       = (advance s, Returned {| current_state := st;
                                 generated_notes := generated_notes l;
                                 channel := channel l |}).
Proof.
  intros Hne Hget.
  destruct (random_choice_returns inits s Hne) as (st & Hst & E).
  exists st. split; [exact Hst|].
  unfold generate_step. destruct Hget as [-> | ->]; unfold bind; rewrite E;
    reflexivity.
Qed.

(* ------------------------------------------------------------------ *)
(** ** The generation loop and [_generate_track] *)

Lemma count_note_on_app (a b : list Msg) :
  count_note_on (a ++ b) = (count_note_on a + count_note_on b)%nat.
Proof. unfold count_note_on. now rewrite filter_app, length_app. Qed.

Lemma note_on_pitches_app (a b : list Msg) :
  note_on_pitches (a ++ b) = note_on_pitches a ++ note_on_pitches b.
Proof. unfold note_on_pitches. apply flat_map_app. Qed.

Lemma keys_not_nil {K V} (d : PyDict.dict K V) : d <> [] -> PyDict.keys d <> [].
Proof. destruct d; simpl; [congruence | discriminate]. Qed.

(** On a well-formed table every iteration of the loop returns.  It
    appends only note events on the voice's channel, at most one note-on
    per iteration; the generated pitches are the seed followed by the
    note-on pitches; and [channel] is bound as soon as one iteration has
    run. *)
Lemma generate_loop_emits (c : MarkovComposer) (track_type : TrackType)
    (t : Table) (n : nat) (lo hi : Z) (l : Locals) (s : GenState) :
  standard_durations c -> lo <= hi ->
  well_formed t = true -> t <> [] ->
  generated_notes l <> [] ->
  In (current_state l) (PyDict.keys t) ->
  exists l' s' evs,
    generate_loop c track_type t (Z.of_nat n) lo hi l s = (s', Returned l')
    /\ track s' = track s ++ evs
    /\ (count_note_on evs <= n)%nat
    /\ Forall (fun m => note_event_on (voice_channel track_type) m = true) evs
    /\ generated_notes l' = generated_notes l ++ note_on_pitches evs
    /\ ((1 <= n)%nat -> channel l' = Some (voice_channel track_type)).
Proof.
  intros Hstd Hlohi Hwf Hne Hgen Hcur.
  set (ch := voice_channel track_type).
  pose (I := fun (k : nat) (l' : Locals) (s' : GenState) =>
    exists evs,
      track s' = track s ++ evs
      /\ (count_note_on evs <= k)%nat
      /\ Forall (fun m => note_event_on ch m = true) evs
      /\ generated_notes l' = generated_notes l ++ note_on_pitches evs
      /\ (channel l' = Some ch
          \/ (k = 0%nat /\ In (current_state l') (PyDict.keys t)))).
  assert (Hstep : forall k (x : nat) l1 s1, I k l1 s1 ->
    exists l2 s2,
      generate_step c track_type t (PyDict.keys t) lo hi x l1 s1
        = (s2, Returned l2) /\ I (S k) l2 s2).
  { intros k x l1 s1 (evs & Htr & Hcnt & Hall & Hg & Hch).
    assert (Hg1 : generated_notes l1 <> []).
    { rewrite Hg. destruct (generated_notes l); [congruence | discriminate]. }
    destruct (table_get (current_state l1) t) as [d|] eqn:Eget.
    - pose proof (get_In State_eqb State_eqb_eq _ _ _ Eget) as Hin.
      destruct (well_formed_In _ _ _ Hwf Hin) as [_ Hpos].
      destruct (generate_step_emits c track_type t (PyDict.keys t) lo hi x
                  l1 s1 d Hstd Hlohi Eget Hpos Hg1)
        as (next & dur & vel & s2 & _ & E & Htr2).
      eexists; exists s2. split; [exact E|].
      exists (evs ++ [note_on next vel dur ch;
                      note_off (last (generated_notes l1) 0) vel 0 ch]).
      repeat split.
      + rewrite Htr2, Htr. fold ch. now rewrite app_assoc.
      + rewrite count_note_on_app. simpl. unfold count_note_on in *. simpl. lia.
      + apply Forall_app; split; [exact Hall|].
        repeat constructor; simpl; apply Z.eqb_refl.
      + simpl. rewrite Hg, note_on_pitches_app. simpl. now rewrite app_assoc.
      + left. reflexivity.
    - destruct Hch as [Hch | [_ Hin]].
      + destruct (generate_step_retries c track_type t (PyDict.keys t) lo hi x
                    l1 s1 (keys_not_nil _ Hne) (or_introl Eget))
          as (st & _ & E).
        eexists; eexists. split; [exact E|].
        exists evs. simpl. repeat split; auto.
      + apply (In_get State_eqb State_eqb_eq) in Hin as (v & Hv & _).
        unfold table_get in Eget. congruence. }
  assert (H0 : I 0%nat l s).
  { exists []. rewrite !app_nil_r. repeat split; auto. }
  destruct (for_each_invariant I _ Hstep (seq 0 n) 0%nat l s H0)
    as (l' & s' & E & evs & Htr & Hcnt & Hall & Hg & Hch).
  rewrite length_seq in Hcnt, Hch. simpl in Hcnt, Hch.
  exists l', s', evs. unfold generate_loop. rewrite Nat2Z.id.
  repeat split; auto.
  intros Hn. destruct Hch as [Hch | [Hk _]]; [exact Hch | lia].
Qed.

(** For [length >= 1] and a non-empty well-formed table, [_generate_track]
    returns; it has appended at most [length] note-ons, only note events of
    the voice's channel, and last of all a note-off of velocity 0 for the
    last generated pitch. *)
Lemma generate_track_emits (c : MarkovComposer) (track_type : TrackType)
    (t : Table) (length lo hi : Z) (s : GenState) :
  standard_durations c -> lo <= hi ->
  transitions c track_type = Returned t ->
  well_formed t = true -> t <> [] ->
  1 <= length ->
  exists s' seed evs,
    _generate_track c track_type length lo hi s = (s', Returned tt)
    /\ In seed (PyDict.keys t)
    /\ track s'
       = track s ++ evs
         ++ [note_off (last (seed ++ note_on_pitches evs) 0) 0 0
                      (voice_channel track_type)]
    /\ (Z.of_nat (count_note_on evs) <= length)
    /\ Forall (fun m => note_event_on (voice_channel track_type) m = true) evs.
Proof.
  intros Hstd Hlohi Ht Hwf Hne Hlen.
  destruct (random_choice_returns (PyDict.keys t) s (keys_not_nil _ Hne))
    as (seed & Hseed & E0).
  assert (Hseed_ne : seed <> []).
  { destruct (In_get State_eqb State_eqb_eq _ _ Hseed) as (v & _ & Hin).
    now destruct (well_formed_In _ _ _ Hwf Hin). }
  destruct (generate_loop_emits c track_type t (Z.to_nat length) lo hi
              {| current_state := seed; generated_notes := seed; channel := None |}
              (advance s) Hstd Hlohi Hwf Hne Hseed_ne Hseed)
    as (l' & s1 & evs & E1 & Htr & Hcnt & Hall & Hg & Hch).
  rewrite Z2Nat.id in E1 by lia. simpl in Hg, Htr.
  eexists; exists seed, evs.
  unfold _generate_track, bind, lift_outcome. rewrite Ht.
  destruct (PyDict.keys t) as [|k ks] eqn:Ek; [now destruct Hseed|].
  cbn [is_empty]. rewrite E0, E1.
  rewrite last_item_returns
    by (rewrite Hg; destruct seed; [congruence | discriminate]).
  rewrite Hch by lia. unfold read_local, ret, append, modify.
  repeat split; auto.
  - simpl. rewrite Htr, Hg. now rewrite <- app_assoc.
  - lia.
Qed.

(** C10. With a non-empty table and [length <= 0] the loop body never runs,
    [channel] is never assigned, and the final note-off raises: the call
    draws the initial state, appends no event and ends in an exception.  The
    exception is [UnboundLocalError] whenever the states of the table are
    non-empty tuples. *)
Theorem generate_track_length_zero (c : MarkovComposer) (track_type : TrackType)
    (t : Table) (length lo hi : Z) (s : GenState) :
  transitions c track_type = Returned t ->
  t <> [] ->
  length <= 0 ->
  exists e,
    _generate_track c track_type length lo hi s = (advance s, Raised e)
    /\ track (advance s) = track s
    /\ (forallb (fun sd => negb (is_empty (fst sd))) t = true ->
        e = UnboundLocalError).
Proof.
  intros Ht Hne Hlen.
  destruct (random_choice_returns (PyDict.keys t) s (keys_not_nil _ Hne))
    as (seed & Hseed & E0).
  unfold _generate_track, bind, lift_outcome. rewrite Ht.
  destruct (PyDict.keys t) as [|k ks] eqn:Ek; [now destruct Hseed|].
  cbn [is_empty]. rewrite E0. unfold generate_loop.
  replace (Z.to_nat length) with 0%nat by lia. cbn [seq for_each ret generated_notes].
  destruct seed as [|p seed].
  - exists IndexError. repeat split. intros Hall.
    rewrite <- Ek in Hseed. apply in_map_iff in Hseed as ([k' d'] & Hk & Hin).
    rewrite forallb_forall in Hall. specialize (Hall _ Hin).
    simpl in Hk, Hall. subst k'. discriminate.
  - exists UnboundLocalError.
    rewrite last_item_returns by discriminate. repeat split.
Qed.

(** The table {(60,62): {64: 1}} asked for zero notes. *)
Lemma generate_track_length_zero_witness :
  _generate_track (composer_after [60; 62; 64] 2) melody 0 30 60 empty_track
    = (advance empty_track, Raised UnboundLocalError).
Proof.
  destruct (generate_track_length_zero (composer_after [60; 62; 64] 2) melody
              [([60; 62], [(64, 1%Q)])] 0 30 60 empty_track)
    as (e & E & _ & He).
  - reflexivity.
  - discriminate.
  - lia.
  - rewrite (He eq_refl) in E. exact E.
Defined.

(** C3 (departure of the code at [length = 0]).  A composer whose melody
    table is [(60,62) -> {64: 1.0}], asked for zero notes: the call leaves
    the track empty and raises [UnboundLocalError]; the track does not end
    with a note-off.  With [length = 1] the same call returns and the track
    ends with the note-off of velocity 0 for the last generated pitch. *)
Theorem generate_track_zero_length_no_note_off :
  transitions_melody (composer_after [60; 62; 64] 2) = [([60; 62], [(64, 1%Q)])]
  /\ _generate_track (composer_after [60; 62; 64] 2) melody 0 30 60 empty_track
     = ({| track := []; gen_rng := fun n => S n |}, Raised UnboundLocalError)
  /\ _generate_track (composer_after [60; 62; 64] 2) melody 1 30 60 empty_track
     = ({| track := [note_on 64 33 480 0; note_off 62 33 0 0; note_off 64 0 0 0];
           gen_rng := fun n => S (S (S (S n))) |}, Returned tt).
Proof. repeat split. Qed.

(* ------------------------------------------------------------------ *)
(** ** What a generation call can append *)

Lemma appends_ret ok {A} (a : A) : appends ok (ret a).
Proof. intros s. exists []. simpl. now rewrite app_nil_r. Qed.

Lemma appends_raise ok {A} (e : exn) : appends ok (@raise GenState A e).
Proof. intros s. exists []. simpl. now rewrite app_nil_r. Qed.

Lemma appends_lift ok {A} (o : outcome A) : appends ok (lift_outcome o).
Proof. intros s. exists []. simpl. now rewrite app_nil_r. Qed.

Lemma appends_bind ok {A B} (m : M GenState A) (f : A -> M GenState B) :
  appends ok m -> (forall a, appends ok (f a)) -> appends ok (bind m f).
Proof.
  intros Hm Hf s. unfold bind. destruct (Hm s) as (evs1 & E1 & H1).
  destruct (m s) as [s1 [a|e]]; simpl in E1.
  - destruct (Hf a s1) as (evs2 & E2 & H2). exists (evs1 ++ evs2).
    rewrite E2, E1, app_assoc. split; [reflexivity | now apply Forall_app].
  - exists evs1. now split.
Qed.

Lemma appends_draw ok : appends ok draw.
Proof. intros s. exists []. simpl. now rewrite app_nil_r. Qed.

Lemma appends_append (ok : Msg -> bool) (msg : Msg) :
  ok msg = true -> appends ok (append msg).
Proof. intros H s. exists [msg]. simpl. split; [reflexivity | now constructor]. Qed.

Lemma appends_random_choice ok {A} (seq : list A) : appends ok (random_choice seq).
Proof.
  unfold random_choice. destruct seq; [apply appends_raise|].
  apply appends_bind; [apply appends_draw|]. intros r.
  destruct (nth_error _ _); [apply appends_ret | apply appends_raise].
Qed.

Lemma appends_random_choices ok {A} (population : list A) (weights : list num) :
  appends ok (random_choices population weights).
Proof.
  unfold random_choices. cbv zeta.
  destruct (negb _); [apply appends_raise|].
  destruct (rev _); [apply appends_raise|].
  destruct (Qle_bool _ _); [apply appends_raise|].
  apply appends_bind; [apply appends_draw|]. intros r.
  destruct (nth_error _ _); [apply appends_ret | apply appends_raise].
Qed.

Lemma appends_random_randint ok (a b : Z) : appends ok (random_randint a b).
Proof.
  unfold random_randint. cbv zeta. destruct (0 <? _); [|apply appends_raise].
  apply appends_bind; [apply appends_draw|]. intros r. apply appends_ret.
Qed.

Lemma appends_last_item ok (l : list Z) : appends ok (last_item l).
Proof. unfold last_item. destruct (rev l); [apply appends_raise | apply appends_ret]. Qed.

Lemma appends_for_each ok {X L} (xs : list X) (body : X -> L -> M GenState L) :
  (forall x l, appends ok (body x l)) -> forall l, appends ok (for_each xs body l).
Proof.
  intros Hbody. induction xs as [|x xs IH]; intros l; simpl.
  - apply appends_ret.
  - apply appends_bind; auto.
Qed.

Lemma voice_channel_ok (track_type : TrackType) (n v t : Z) :
  note_event_on (voice_channel track_type)
                (note_on n v t (if TrackType_eqb track_type melody then 0 else 1))
  = true
  /\ note_event_on (voice_channel track_type)
                   (note_off n v t (if TrackType_eqb track_type melody then 0 else 1))
     = true.
Proof. unfold voice_channel. simpl. now rewrite Z.eqb_refl. Qed.

Lemma appends_bind_post ok {A B} (Q : A -> Prop) (m : M GenState A)
    (f : A -> M GenState B) :
  appends ok m ->
  (forall s a, snd (m s) = Returned a -> Q a) ->
  (forall a, Q a -> appends ok (f a)) ->
  appends ok (bind m f).
Proof.
  intros Hm HQ Hf s. unfold bind. destruct (Hm s) as (evs1 & E1 & H1).
  specialize (HQ s).
  destruct (m s) as [s1 [a|e]]; simpl in E1, HQ.
  - destruct (Hf a (HQ a eq_refl) s1) as (evs2 & E2 & H2). exists (evs1 ++ evs2).
    rewrite E2, E1, app_assoc. split; [reflexivity | now apply Forall_app].
  - exists evs1. now split.
Qed.

(** A property of the locals that every returning iteration preserves
    holds of the locals a returning loop ends with. *)
Lemma for_each_returns_inv {S X L} (J : L -> Prop) (body : X -> L -> M S L) :
  (forall x l s l', J l -> snd (body x l s) = Returned l' -> J l') ->
  forall xs l s l', J l -> snd (for_each xs body l s) = Returned l' -> J l'.
Proof.
  intros Hbody xs; induction xs as [|x xs IH]; intros l s l' HJ H; simpl in H.
  - now injection H as <-.
  - unfold bind in H. specialize (Hbody x l s).
    destruct (body x l s) as [s1 [l1|e]]; simpl in *; [|discriminate].
    eapply IH; [|exact H]. now apply Hbody.
Qed.

(** [channel] is either unbound or the voice's channel. *)
Lemma generate_step_channel (c : MarkovComposer) (track_type : TrackType)
    (t : Table) (inits : list State) (lo hi : Z) (x : nat) (l : Locals)
    (s : GenState) (l' : Locals) :
  channel l = None \/ channel l = Some (voice_channel track_type) ->
  snd (generate_step c track_type t inits lo hi x l s) = Returned l' ->
  channel l' = None \/ channel l' = Some (voice_channel track_type).
Proof.
  intros HJ H. unfold generate_step in H.
  destruct (table_get _ _) as [[|kv d]|]; unfold bind in H;
    repeat match type of H with
           | context [match ?e with _ => _ end] =>
               destruct e as [? [?|?]]; simpl in H; try discriminate
           end;
    injection H as <-; simpl; auto.
Qed.

(** Whatever the table and however the call ends, [_generate_track] only
    appends note-on and note-off messages of the voice's channel. *)
Lemma generate_track_appends (c : MarkovComposer) (track_type : TrackType)
    (length lo hi : Z) :
  appends (note_event_on (voice_channel track_type))
          (_generate_track c track_type length lo hi).
Proof.
  unfold _generate_track.
  apply appends_bind; [apply appends_lift|]. intros t.
  destruct (is_empty _); [apply appends_ret|].
  apply appends_bind; [apply appends_random_choice|]. intros seed.
  apply appends_bind_post
    with (Q := fun l => channel l = None
                        \/ channel l = Some (voice_channel track_type)).
  - unfold generate_loop. apply appends_for_each. intros x l.
    unfold generate_step.
    destruct (table_get _ _) as [[|kv d]|].
    + apply appends_bind; [apply appends_random_choice|]. intros; apply appends_ret.
    + apply appends_bind; [apply appends_random_choices|]. intros next.
      apply appends_bind; [apply appends_random_choices|]. intros dur.
      apply appends_bind; [apply appends_random_randint|]. intros vel.
      apply appends_bind; [apply appends_append, voice_channel_ok|]. intros _.
      apply appends_bind; [apply appends_last_item|]. intros prev.
      apply appends_bind; [apply appends_append, voice_channel_ok|]. intros _.
      apply appends_ret.
    + apply appends_bind; [apply appends_random_choice|]. intros; apply appends_ret.
  - intros s l H. unfold generate_loop in H.
    eapply (for_each_returns_inv
              (fun l0 => channel l0 = None
                         \/ channel l0 = Some (voice_channel track_type)));
      [| |exact H].
    + intros x l0 s0 l1. apply generate_step_channel.
    + now left.
  - intros l HJ.
    apply appends_bind; [apply appends_last_item|]. intros prev.
    unfold read_local. destruct HJ as [-> | ->].
    + intros s. exists []. simpl. now rewrite app_nil_r.
    + intros s. exists [note_off prev 0 0 (voice_channel track_type)].
      split; [reflexivity|]. constructor; [apply Z.eqb_refl | constructor].
Qed.

(* ------------------------------------------------------------------ *)
(** ** The output container *)

(** C9. When [generate_music] writes its container (some table is
    non-empty and the call returns), the file stored at [output_path] has
    exactly two tracks, melody then bass.  Each starts with the [set_tempo]
    meta-message carrying [bpm2tempo(tempo)], then the program change
    (program 73 on channel 0 for the melody, program 33 on channel 1 for
    the bass), and continues with exactly the messages that
    [_generate_track] appended to that track, melody first and bass on the
    random generator the melody left (nothing for a voice without a model);
    these are note-on and note-off messages of that voice's channel only. *)
Theorem generate_music_container (bpm2tempo : Z -> outcome Z)
    (writable : string -> bool) (length : Z)
    (output_path : string) (tempo : Z) (w w' : World) :
  generate_music bpm2tempo writable length output_path tempo w
    = (w', Returned tt) ->
  is_empty (transitions_melody (self w)) && is_empty (transitions_bass (self w))
    = false ->
  exists t evs_m evs_b r1,
    bpm2tempo tempo = Returned t
    /\ disk w' output_path
       = Some {| tracks := [set_tempo t :: program_change 73 0 :: evs_m;
                            set_tempo t :: program_change 33 1 :: evs_b] |}
    /\ Forall (fun e => note_event_on 0 e = true) evs_m
    /\ Forall (fun e => note_event_on 1 e = true) evs_b
    /\ (if is_empty (transitions_melody (self w))
        then evs_m = [] /\ r1 = rng w
        else _generate_track (self w) melody length 30 60
               {| track := [set_tempo t; program_change 73 0];
                  gen_rng := rng w |}
             = ({| track := set_tempo t :: program_change 73 0 :: evs_m;
                   gen_rng := r1 |}, Returned tt))
    /\ (if is_empty (transitions_bass (self w))
        then evs_b = [] /\ rng w' = r1
        else _generate_track (self w) bass length 40 80
               {| track := [set_tempo t; program_change 33 1];
                  gen_rng := r1 |}
             = ({| track := set_tempo t :: program_change 33 1 :: evs_b;
                   gen_rng := rng w' |}, Returned tt)).
Proof.
  intros H Hne.
  pose proof (generate_track_appends (self w) melody length 30 60) as Hm.
  pose proof (generate_track_appends (self w) bass length 40 80) as Hb.
  unfold generate_music, bind, gets, lift_outcome, meta_set_tempo in H.
  rewrite Hne in H.
  destruct (bpm2tempo tempo) as [t|e]; [|discriminate].
  destruct ((0 <=? t) && (t <=? 16777215)); [|discriminate].
  unfold ret at 1 2 in H.
  exists t.
  assert (Hmel : exists w1 evs_m,
    (if negb (is_empty (transitions_melody (self w)))
     then on_track [set_tempo t; program_change 73 0]
            (_generate_track (self w) melody length 30 60)
     else bind (print SkippingMelodyGeneration)
               (fun _ => ret [set_tempo t; program_change 73 0])) w
    = (w1, Returned (set_tempo t :: program_change 73 0 :: evs_m))
    /\ Forall (fun e => note_event_on 0 e = true) evs_m
    /\ (if is_empty (transitions_melody (self w))
        then evs_m = [] /\ rng w1 = rng w
        else _generate_track (self w) melody length 30 60
               {| track := [set_tempo t; program_change 73 0];
                  gen_rng := rng w |}
             = ({| track := set_tempo t :: program_change 73 0 :: evs_m;
                   gen_rng := rng w1 |}, Returned tt))).
  { destruct (is_empty (transitions_melody (self w))); cbn [negb] in *.
    - eexists; exists []; repeat split; constructor.
    - unfold on_track in *.
      destruct (Hm {| track := [set_tempo t; program_change 73 0];
                      gen_rng := rng w |}) as (evs & E & Hall).
      destruct (_generate_track (self w) melody length 30 60 _)
        as [[tr r] [[]|e]]; [|discriminate].
      cbn [fst track] in E. subst tr.
      eexists; exists evs; repeat split; [exact Hall]. }
  destruct Hmel as (w1 & evs_m & E1 & Hall_m & Hgen_m).
  unfold bind in E1. rewrite E1 in H. clear E1.
  assert (Hbas : exists w2 evs_b,
    (if negb (is_empty (transitions_bass (self w)))
     then on_track [set_tempo t; program_change 33 1]
            (_generate_track (self w) bass length 40 80)
     else bind (print SkippingBassGeneration)
               (fun _ => ret [set_tempo t; program_change 33 1])) w1
    = (w2, Returned (set_tempo t :: program_change 33 1 :: evs_b))
    /\ Forall (fun e => note_event_on 1 e = true) evs_b
    /\ (if is_empty (transitions_bass (self w))
        then evs_b = [] /\ rng w2 = rng w1
        else _generate_track (self w) bass length 40 80
               {| track := [set_tempo t; program_change 33 1];
                  gen_rng := rng w1 |}
             = ({| track := set_tempo t :: program_change 33 1 :: evs_b;
                   gen_rng := rng w2 |}, Returned tt))).
  { destruct (is_empty (transitions_bass (self w))); cbn [negb] in *.
    - eexists; exists []; repeat split; constructor.
    - unfold on_track in *.
      destruct (Hb {| track := [set_tempo t; program_change 33 1];
                      gen_rng := rng w1 |}) as (evs & E & Hall).
      destruct (_generate_track (self w) bass length 40 80 _)
        as [[tr r] [[]|e]]; [|discriminate].
      cbn [fst track] in E. subst tr.
      eexists; exists evs; repeat split; [exact Hall]. }
  destruct Hbas as (w2 & evs_b & E2 & Hall_b & Hgen_b).
  unfold bind in E2. rewrite E2 in H. clear E2.
  unfold save in H. destruct (writable output_path); [|discriminate].
  exists evs_m, evs_b, (rng w1). injection H as <-.
  cbn [disk rng print modify fst snd]. rewrite String.eqb_refl.
  repeat split; auto.
Qed.

(** The example corpus, trained with order 2, asked for 50 notes per voice:
    both tracks hold generated notes. *)
Lemma generate_music_container_witness :
  exists t evs_m evs_b,
    disk (fst (generate_music (fun _ => Returned 500000) (fun _ => true) 50
                 "generated_music.mid" 120 trained_world))
         "generated_music.mid"%string
    = Some {| tracks := [set_tempo t :: program_change 73 0 :: evs_m;
                         set_tempo t :: program_change 33 1 :: evs_b] |}
    /\ Forall (fun e => note_event_on 0 e = true) evs_m
    /\ Forall (fun e => note_event_on 1 e = true) evs_b
    /\ track (fst (_generate_track (self trained_world) melody 50 30 60
                     {| track := [set_tempo t; program_change 73 0];
                        gen_rng := rng trained_world |}))
       = set_tempo t :: program_change 73 0 :: evs_m
    /\ evs_m <> [] /\ evs_b <> [].
Proof.
  destruct (generate_music_container (fun _ => Returned 500000)
              (fun _ => true) 50
              "generated_music.mid" 120 trained_world
              (fst (generate_music (fun _ => Returned 500000) (fun _ => true) 50
                      "generated_music.mid" 120 trained_world)))
    as (t & evs_m & evs_b & r1 & Ht & Hd & Hm & Hb & Gm & Gb).
  - vm_compute. reflexivity.
  - vm_compute. reflexivity.
  - injection Ht as <-.
    exists 500000, evs_m, evs_b.
    split; [exact Hd|]. split; [exact Hm|]. split; [exact Hb|].
    split; [|split].
    + replace (is_empty (transitions_melody (self trained_world))) with false
        in Gm by (vm_compute; reflexivity).
      rewrite Gm. reflexivity.
    + intros ->. revert Hd. vm_compute. discriminate.
    + intros ->. revert Hd. vm_compute. discriminate.
Defined.

(* ------------------------------------------------------------------ *)
(** ** Sums of the stored numbers *)

Lemma num_sum_from (xs : list num) (a b : Q) :
  (a == b)%Q -> (fold_left num_add xs a == b + Qsum xs)%Q.
Proof.
  revert a b; induction xs as [|x xs IH]; intros a b Hab; simpl.
  - rewrite Hab. ring.
  - rewrite (IH (num_add a x) (b + x)%Q).
    + ring.
    + unfold num_add. rewrite Qred_correct, Hab. reflexivity.
Qed.

Lemma num_sum_Qsum (xs : list num) : (num_sum xs == Qsum xs)%Q.
Proof.
  unfold num_sum. rewrite (num_sum_from xs (of_int 0) 0%Q); [ring | reflexivity].
Qed.

Lemma Qsum_pos (xs : list Q) :
  xs <> [] -> Forall (fun x => 0 < x)%Q xs -> (0 < Qsum xs)%Q.
Proof.
  intros Hne Hall. induction Hall as [|x xs Hx Hall IH]; [congruence|].
  simpl. destruct xs as [|y xs].
  - simpl. now rewrite Qplus_0_r.
  - apply Qlt_trans with (0 + Qsum (y :: xs))%Q.
    + rewrite Qplus_0_l. apply IH. discriminate.
    + apply Qplus_lt_le_compat; [exact Hx | apply Qle_refl].
Qed.

Lemma values_pos (d : Dist) :
  Forall (fun kv => 0 < snd kv)%Q d -> Forall (fun x => 0 < x)%Q (PyDict.values d).
Proof. intros H. unfold PyDict.values. now apply Forall_map. Qed.

Lemma num_sum_pos (d : Dist) : dist_pos d -> (0 < num_sum (PyDict.values d))%Q.
Proof.
  intros [Hne Hall]. rewrite num_sum_Qsum. apply Qsum_pos.
  - destruct d; [congruence | discriminate].
  - now apply values_pos.
Qed.

Lemma Qsum_scaled (xs : list Q) (t : Q) :
  (Qsum (map (fun c => true_div c t) xs) == Qsum xs / t)%Q.
Proof.
  induction xs as [|x xs IH]; simpl.
  - unfold Qdiv. ring.
  - rewrite IH. unfold true_div. rewrite Qred_correct. unfold Qdiv. ring.
Qed.

Lemma values_normalized (d : Dist) :
  PyDict.values (normalized d)
  = map (fun c => true_div c (num_sum (PyDict.values d))) (PyDict.values d).
Proof.
  unfold normalized, PyDict.values. rewrite !map_map.
  apply map_ext. now intros [n c].
Qed.

(** Dividing positive counts by their sum gives positive numbers that sum
    to 1. *)
Lemma normalized_sums_to_one (d : Dist) :
  dist_pos d ->
  dist_pos (normalized d) /\ (num_sum (PyDict.values (normalized d)) == 1)%Q.
Proof.
  intros Hd. pose proof (num_sum_pos d Hd) as Hpos. destruct Hd as [Hne Hall].
  split; [split|].
  - unfold normalized. destruct d; [congruence | discriminate].
  - unfold normalized. apply Forall_map. eapply Forall_impl; [|exact Hall].
    intros [n c] Hc. simpl in *. unfold true_div. rewrite Qred_correct.
    apply Qlt_shift_div_l; [exact Hpos | now rewrite Qmult_0_l].
  - rewrite num_sum_Qsum, values_normalized, Qsum_scaled, <- num_sum_Qsum.
    apply Qmult_inv_r. intros E. rewrite E in Hpos. now apply Qlt_irrefl in Hpos.
Qed.

(* ------------------------------------------------------------------ *)
(** ** Counting and normalising keep the tables well formed *)

Lemma fold_left_invariant {A B} (I : A -> Prop) (f : A -> B -> A) (xs : list B) :
  (forall a x, In x xs -> I a -> I (f a x)) ->
  forall a, I a -> I (fold_left f xs a).
Proof.
  induction xs as [|x xs IH]; intros Hf a Ha; simpl; [exact Ha|].
  apply IH.
  - intros a' x' Hin. apply Hf. now right.
  - apply Hf; [now left | exact Ha].
Qed.

Lemma incr_entry_ok (order : nat) (t : Table) (state : State) (next_note : Z) :
  Forall (entry_ok order) t -> length state = order ->
  Forall (entry_ok order) (incr t state next_note).
Proof.
  intros Ht Hlen. unfold incr, table_set, dist_set.
  apply (set_Forall State_eqb State_eqb_eq); [exact Ht|].
  split; [exact Hlen|]. simpl.
  assert (Hinner : Forall (fun kv => 0 < snd kv)%Q
            match table_get state t with Some d => d | None => [] end).
  { destruct (table_get state t) as [d|] eqn:E; [|constructor].
    apply (get_In State_eqb State_eqb_eq) in E.
    rewrite Forall_forall in Ht. now destruct (Ht _ E) as [_ [_ H]]. }
  split; [apply set_not_nil|].
  apply (set_Forall Z.eqb Z.eqb_eq); [exact Hinner|]. simpl.
  unfold num_add. rewrite Qred_correct.
  destruct (dist_get next_note _) as [c|] eqn:E.
  - apply (get_In Z.eqb Z.eqb_eq) in E.
    rewrite Forall_forall in Hinner. specialize (Hinner _ E). simpl in Hinner.
    apply Qlt_trans with (c + 0)%Q; [now rewrite Qplus_0_r|].
    apply Qplus_lt_r. reflexivity.
  - reflexivity.
Qed.

Lemma count_transitions_entry_ok (order : nat) (notes : list Z) (t : Table) :
  Forall (entry_ok order) t ->
  Forall (entry_ok order) (count_transitions order notes t).
Proof.
  intros Ht. unfold count_transitions.
  apply fold_left_invariant; [|exact Ht].
  intros t' i Hi Ht'. apply incr_entry_ok; [exact Ht'|].
  apply in_seq in Hi. rewrite length_firstn, length_skipn. lia.
Qed.

Lemma normalize_dist_pos (d : Dist) :
  dist_pos d -> normalize_dist d = Returned (normalized d).
Proof.
  intros Hd. pose proof (num_sum_pos d Hd) as Hpos.
  unfold normalize_dist. destruct d as [|kv d]; [now destruct Hd|].
  destruct (Qeq_bool _ 0) eqn:E; [|reflexivity].
  apply Qeq_bool_eq in E. rewrite E in Hpos. now apply Qlt_irrefl in Hpos.
Qed.

Lemma normalize_entries (order : nat) (t : Table) :
  Forall (entry_ok order) t ->
  normalize t = (map (fun sd => (fst sd, normalized (snd sd))) t, Returned tt)
  /\ Forall (entry_normalized order)
            (map (fun sd => (fst sd, normalized (snd sd))) t).
Proof.
  intros Ht. induction Ht as [|[state d] t [Hlen Hd] Ht [IH1 IH2]]; simpl.
  - split; [reflexivity | constructor].
  - rewrite (normalize_dist_pos d Hd), IH1. split; [reflexivity|].
    constructor; [|exact IH2].
    destruct (normalized_sums_to_one d Hd) as [Hp Hs].
    repeat split; auto; apply Hp.
Qed.

Lemma entry_normalized_ok (order : nat) (t : Table) :
  Forall (entry_normalized order) t -> Forall (entry_ok order) t.
Proof. apply Forall_impl. now intros sd [H _]. Qed.

(** From a model of normalised entries, [_build_transitions] returns and
    leaves a model of normalised entries; only the composer and the output
    change. *)
Lemma build_transitions_invariant (notes : list Z) (track_type : TrackType)
    (w : World) :
  track_type <> other ->
  model_invariant (self w) ->
  exists w',
    _build_transitions notes track_type w = (w', Returned tt)
    /\ model_invariant (self w')
    /\ same_settings (self w) (self w')
    /\ disk w' = disk w /\ rng w' = rng w.
Proof.
  intros Hvoice [Hm Hb].
  unfold _build_transitions, bind, gets, lift_outcome, same_settings.
  destruct track_type; [| |congruence]; simpl transitions; cbv iota;
    (destruct (length notes <? order (self w) + 1)%nat;
     [ eexists; split; [reflexivity|]; simpl; repeat split; auto | ]).
  - destruct (normalize_entries (order (self w))
                (count_transitions (order (self w)) notes
                                   (transitions_melody (self w)))) as [E Hn].
    { apply count_transitions_entry_ok, entry_normalized_ok, Hm. }
    rewrite E. eexists; split; [reflexivity|]. simpl. repeat split; auto.
  - destruct (normalize_entries (order (self w))
                (count_transitions (order (self w)) notes
                                   (transitions_bass (self w)))) as [E Hn].
    { apply count_transitions_entry_ok, entry_normalized_ok, Hb. }
    rewrite E. eexists; split; [reflexivity|]. simpl. repeat split; auto.
Qed.

(** Reading the files changes nothing but the output. *)
Lemma train_files_world (midi_files : list string) (acc : Notes) (w : World) :
  exists acc' w',
    for_each midi_files train_file acc w = (w', Returned acc')
    /\ self w' = self w /\ disk w' = disk w /\ rng w' = rng w.
Proof.
  revert acc w; induction midi_files as [|f fs IH]; intros acc w; simpl.
  - exists acc, w. repeat split.
  - unfold bind at 1. unfold train_file at 1. unfold bind, gets.
    destruct (disk w f) as [mf|].
    + simpl. apply IH.
    + simpl. destruct (IH acc (printed w (ErrorProcessing f)))
        as (acc' & w' & E & Hs & Hd & Hr).
      exists acc', w'. split; [exact E|]. simpl in *. auto.
Qed.

(** [train] returns, whatever the files, and keeps the model normalised. *)
Lemma train_invariant (midi_files : list string) (w : World) :
  model_invariant (self w) ->
  exists w',
    train midi_files w = (w', Returned tt)
    /\ model_invariant (self w')
    /\ same_settings (self w) (self w').
Proof.
  intros Hinv. unfold train.
  destruct (train_files_world midi_files ([], []) w)
    as ([melody_notes bass_notes] & w1 & E1 & Hs1 & _ & _).
  unfold bind at 1. rewrite E1. cbn [fst snd].
  set (w2 := fst (when (is_empty melody_notes) (print NoSuitableMelodyTracks) w1)).
  assert (E2 : when (is_empty melody_notes) (print NoSuitableMelodyTracks) w1
               = (w2, Returned tt)) by (subst w2; destruct melody_notes; reflexivity).
  assert (Hs2 : self w2 = self w)
    by (subst w2; destruct melody_notes; simpl; exact Hs1).
  unfold bind at 1. rewrite E2.
  set (w3 := fst (when (is_empty bass_notes) (print NoSuitableBassTracks) w2)).
  assert (E3 : when (is_empty bass_notes) (print NoSuitableBassTracks) w2
               = (w3, Returned tt)) by (subst w3; destruct bass_notes; reflexivity).
  assert (Hs3 : self w3 = self w)
    by (subst w3; destruct bass_notes; simpl; exact Hs2).
  unfold bind at 1. rewrite E3. clearbody w2 w3. clear E2 E3 Hs2.
  assert (Hmel : exists w4,
    (if negb (is_empty melody_notes)
     then bind (print (TrainingMelody (length melody_notes)))
               (fun _ => _build_transitions melody_notes melody)
     else print SkippingMelodyTraining) w3 = (w4, Returned tt)
    /\ model_invariant (self w4) /\ same_settings (self w) (self w4)).
  { destruct (negb _).
    - destruct (build_transitions_invariant melody_notes melody
                  (printed w3 (TrainingMelody (length melody_notes))))
        as (w4 & E & Hi & Ho & _);
        [discriminate | simpl; now rewrite Hs3 |].
      exists w4. unfold bind, print, modify. split; [exact E|].
      split; [exact Hi|]. simpl in Ho. now rewrite Hs3 in Ho.
    - eexists; split; [reflexivity|]. simpl. rewrite Hs3.
      split; [exact Hinv | repeat split]. }
  destruct Hmel as (w4 & E4 & Hinv4 & Ho4 & Hd4 & Hw4).
  unfold bind at 1. rewrite E4.
  destruct (negb (is_empty bass_notes)).
  - destruct (build_transitions_invariant bass_notes bass
                (printed w4 (TrainingBass (length bass_notes))))
      as (w5 & E & Hi & (Ho5 & Hd5 & Hw5) & _); [discriminate | exact Hinv4 |].
    exists w5. unfold bind, print, modify. split; [exact E|].
    split; [exact Hi|]. simpl in Ho5, Hd5, Hw5.
    repeat split; congruence.
  - eexists; split; [reflexivity|]. split; [exact Hinv4 | repeat split; assumption].
Qed.

(* ------------------------------------------------------------------ *)
(** ** Trained tables are probability tables *)

(** C1. After one call of [train] on a new composer, whatever the files:
    the call has returned, and every state present in the melody or bass
    table has a non-empty successor dictionary whose values are positive
    and sum to 1 (numbers are exact rationals here, so the sum is exactly
    1). *)
Theorem train_distributions (order0 : nat) (midi_files : list string)
    (w : World) (track_type : TrackType) (t : Table) (state : State)
    (dist : Dist) :
  self w = init order0 ->
  transitions (self (fst (train midi_files w))) track_type = Returned t ->
  table_get state t = Some dist ->
  snd (train midi_files w) = Returned tt
  /\ dist <> []
  /\ Forall (fun kv => 0 < snd kv)%Q dist
  /\ (num_sum (PyDict.values dist) == 1)%Q.
Proof.
  intros Hnew Ht Hget.
  destruct (train_invariant midi_files w) as (w' & E & [Hm Hb] & _).
  { rewrite Hnew. split; constructor. }
  rewrite E in *. simpl in Ht. split; [reflexivity|].
  apply (get_In State_eqb State_eqb_eq) in Hget.
  assert (Hall : Forall (entry_normalized (order (self w'))) t).
  { destruct track_type; simpl in Ht; [| |discriminate];
      injection Ht as <-; assumption. }
  rewrite Forall_forall in Hall.
  destruct (Hall _ Hget) as [[_ [Hne Hpos]] Hsum]. auto.
Qed.

(** In the example corpus the bass state (36,40) is followed twice by 43
    and once by 46. *)
Lemma train_distributions_witness :
  table_get [36; 40] (transitions_bass (self trained_world))
    = Some [(43, (2 # 3)%Q); (46, (1 # 3)%Q)]
  /\ (num_sum (PyDict.values [(43, (2 # 3)%Q); (46, (1 # 3)%Q)]) == 1)%Q.
Proof.
  split; [reflexivity|].
  destruct (train_distributions 2
              ["bass.mid"; "melody.mid"; "missing.mid"]%string example_world
              bass (transitions_bass (self trained_world)) [36; 40]
              [(43, (2 # 3)%Q); (46, (1 # 3)%Q)])
    as (_ & _ & _ & H); [reflexivity | reflexivity | reflexivity | exact H].
Defined.

(* ------------------------------------------------------------------ *)
(** ** Round trip on the three-note cycle *)

Lemma cycle_at_cases (m : nat) :
  (cycle_at m = 60 /\ cycle_at (S m) = 62 /\ cycle_at (m + 2) = 64)
  \/ (cycle_at m = 62 /\ cycle_at (S m) = 64 /\ cycle_at (m + 2) = 60)
  \/ (cycle_at m = 64 /\ cycle_at (S m) = 60 /\ cycle_at (m + 2) = 62).
Proof.
  unfold cycle_at.
  replace (S m) with (m + 1)%nat by lia.
  rewrite <- (Nat.Div0.add_mod_idemp_l m 1 3), <- (Nat.Div0.add_mod_idemp_l m 2 3).
  pose proof (Nat.mod_upper_bound m 3 ltac:(lia)) as Hlt.
  destruct (m mod 3)%nat as [|[|[|r]]]; [left | right; left | right; right | lia];
    repeat split.
Qed.

Lemma cycle_lookup (m : nat) :
  table_get (cycle_state m) cycle_table = Some [(cycle_at (m + 2), 1%Q)].
Proof.
  unfold cycle_state.
  destruct (cycle_at_cases m) as [(-> & -> & ->) | [(-> & -> & ->) | (-> & -> & ->)]];
    reflexivity.
Qed.

Lemma cycle_composer_facts :
  order cycle_composer = 2%nat
  /\ standard_durations cycle_composer
  /\ transitions cycle_composer melody = Returned cycle_table.
Proof. repeat split; vm_compute; reflexivity. Qed.

Lemma cycle_extend (k j : nat) :
  map cycle_at (seq k (j + 2)) ++ [cycle_at (k + j + 2)]
  = map cycle_at (seq k (S j + 2)).
Proof.
  replace (S j + 2)%nat with (S (j + 2)) by lia.
  rewrite seq_S, map_app. simpl.
  now replace (k + (j + 2))%nat with (k + j + 2)%nat by lia.
Qed.

Lemma cycle_last_slice (k j : nat) :
  last_slice 2 (map cycle_at (seq k (S j + 2))) = cycle_state (k + S j).
Proof.
  unfold last_slice. rewrite length_map, length_seq.
  replace (S j + 2 - 2)%nat with (S j) by lia.
  replace (seq k (S j + 2)) with (seq k (S j) ++ seq (k + S j) 2)
    by (symmetry; apply seq_app).
  rewrite map_app, skipn_app, length_map, length_seq, Nat.sub_diag.
  rewrite skipn_all2 by (rewrite length_map, length_seq; lia).
  reflexivity.
Qed.

(** The loop started at any state of the cycle table never misses a state:
    every iteration emits the next pitch of the cycle. *)
Lemma cycle_loop (c : MarkovComposer) (k n : nat) (lo hi : Z) (s : GenState) :
  order c = 2%nat -> standard_durations c ->
  lo <= hi ->
  exists l' s',
    generate_loop c melody cycle_table (Z.of_nat n) lo hi
      {| current_state := cycle_state k; generated_notes := cycle_state k;
         channel := None |} s
    = (s', Returned l')
    /\ generated_notes l' = map cycle_at (seq k (n + 2))
    /\ note_on_pitches (track s')
       = note_on_pitches (track s) ++ map cycle_at (seq (k + 2) n)
    /\ ((1 <= n)%nat -> channel l' = Some 0).
Proof.
  intros Hord Hstd Hlohi.
  pose (I := fun (j : nat) (l' : Locals) (s' : GenState) =>
    current_state l' = cycle_state (k + j)
    /\ generated_notes l' = map cycle_at (seq k (j + 2))
    /\ note_on_pitches (track s')
       = note_on_pitches (track s) ++ map cycle_at (seq (k + 2) j)
    /\ ((1 <= j)%nat -> channel l' = Some 0)).
  assert (Hstep : forall j (x : nat) l1 s1, I j l1 s1 ->
    exists l2 s2,
      generate_step c melody cycle_table (PyDict.keys cycle_table)
                    lo hi x l1 s1 = (s2, Returned l2) /\ I (S j) l2 s2).
  { intros j x l1 s1 (Hcur & Hgen & Hpitch & _).
    destruct (generate_step_emits c melody cycle_table
                (PyDict.keys cycle_table) lo hi x l1 s1
                [(cycle_at (k + j + 2), 1%Q)] Hstd Hlohi)
      as (next & dur & vel & s2 & Hnext & E & Htr).
    - rewrite Hcur. apply cycle_lookup.
    - reflexivity.
    - rewrite Hgen. replace (j + 2)%nat with (S (S j)) by lia. discriminate.
    - destruct Hnext as [<- | []]. simpl fst in *.
      eexists; exists s2. split; [exact E|]. unfold I. simpl.
      rewrite Hord, Hgen, cycle_extend, cycle_last_slice.
      repeat split; auto.
      rewrite Htr, note_on_pitches_app, Hpitch. simpl.
      change (cycle_at (k + 2) :: map cycle_at (seq (S (k + 2)) j))
        with (map cycle_at (seq (k + 2) (S j))).
      rewrite seq_S, map_app, app_assoc. simpl.
      now replace (k + 2 + j)%nat with (k + j + 2)%nat by lia. }
  assert (H0 : I 0%nat {| current_state := cycle_state k;
                          generated_notes := cycle_state k; channel := None |} s).
  { unfold I. simpl. rewrite Nat.add_0_r, app_nil_r.
    repeat split; auto. lia. }
  destruct (for_each_invariant I _ Hstep (seq 0 n) 0%nat _ s H0)
    as (l' & s' & E & _ & Hgen & Hpitch & Hch).
  rewrite length_seq in *. simpl in *.
  exists l', s'. unfold generate_loop. rewrite Nat2Z.id. auto.
Qed.

(** C4. Building the order-2 table from 60, 62, 64 repeated 30 times gives
    exactly the three entries (60,62) -> {64: 1}, (62,64) -> {60: 1},
    (64,60) -> {62: 1}.  From any of these three states the generation loop
    returns after [n] iterations having emitted, for every random tape,
    exactly the next [n] pitches of the cycle; and [_generate_track] as a
    whole, which draws its first state among the three, appends note-ons
    whose pitches continue the cycle from the state it drew. *)
Theorem cycle_round_trip (lo hi : Z) :
  lo <= hi ->
  (snd (_build_transitions cycle_notes melody (new_world 2)) = Returned tt
   /\ transitions_melody cycle_composer = cycle_table
   /\ PyDict.keys cycle_table = [cycle_state 0; cycle_state 1; cycle_state 2])
  /\ (forall (k n : nat) (s : GenState),
      exists l' s',
        generate_loop cycle_composer melody cycle_table (Z.of_nat n) lo hi
          {| current_state := cycle_state k; generated_notes := cycle_state k;
             channel := None |} s
        = (s', Returned l')
        /\ generated_notes l' = map cycle_at (seq k (n + 2))
        /\ note_on_pitches (track s')
           = note_on_pitches (track s) ++ map cycle_at (seq (k + 2) n))
  /\ (forall (length : Z) (s : GenState),
      exists k, (k < 3)%nat
        /\ note_on_pitches
             (track (fst (_generate_track cycle_composer melody length lo hi s)))
           = note_on_pitches (track s)
             ++ map cycle_at (seq (k + 2) (Z.to_nat length))).
Proof.
  intros Hlohi.
  destruct cycle_composer_facts as (Hord & Hstd & Htable).
  split; [repeat split; vm_compute; reflexivity|]. split.
  - intros k n s. destruct (cycle_loop cycle_composer k n lo hi s Hord Hstd Hlohi)
      as (l' & s' & E & Hgen & Hpitch & _).
    exists l', s'. auto.
  - intros length s.
    destruct (random_choice_returns (PyDict.keys cycle_table) s)
      as (seed & Hseed & E0); [discriminate|].
    assert (Hk : exists k, (k < 3)%nat /\ seed = cycle_state k).
    { destruct Hseed as [<- | [<- | [<- | []]]];
        [exists 0%nat | exists 1%nat | exists 2%nat]; split; auto. }
    destruct Hk as (k & Hk & ->). exists k. split; [exact Hk|].
    destruct (cycle_loop cycle_composer k (Z.to_nat length) lo hi (advance s)
                Hord Hstd Hlohi)
      as (l' & s' & E & Hgen & Hpitch & Hch).
    revert E. generalize cycle_composer Htable. intros c Hc E.
    unfold _generate_track, bind, lift_outcome. rewrite Hc.
    change (is_empty (PyDict.keys cycle_table)) with false. cbv beta iota.
    rewrite E0. unfold generate_loop in *. rewrite Nat2Z.id in E. rewrite E.
    rewrite last_item_returns
      by (rewrite Hgen; replace (Z.to_nat length + 2)%nat
            with (S (S (Z.to_nat length))) by lia; discriminate).
    destruct (Z.to_nat length) as [|n] eqn:En.
    + simpl in Hpitch. destruct (channel l'); simpl;
        [rewrite note_on_pitches_app|]; rewrite Hpitch; simpl;
        now rewrite ?app_nil_r.
    + rewrite Hch by lia. simpl. rewrite note_on_pitches_app, Hpitch. simpl.
      now rewrite app_nil_r.
Qed.

(** Four iterations from the state (62,64), velocities in 30..60. *)
Lemma cycle_round_trip_witness :
  transitions_melody cycle_composer = cycle_table
  /\ exists l' s',
       generate_loop cycle_composer melody cycle_table 4 30 60
         {| current_state := [62; 64]; generated_notes := [62; 64];
            channel := None |} empty_track
       = (s', Returned l')
       /\ generated_notes l' = [62; 64; 60; 62; 64; 60]
       /\ note_on_pitches (track s') = [60; 62; 64; 60].
Proof.
  destruct (cycle_round_trip 30 60 ltac:(lia)) as ((_ & Ht & _) & Hloop & _).
  split; [exact Ht|].
  destruct (Hloop 1%nat 4%nat empty_track) as (l' & s' & E & Hgen & Hpitch).
  exists l', s'. split; [exact E|]. split; [exact Hgen | exact Hpitch].
Defined.

(* ------------------------------------------------------------------ *)
(** ** The classifier *)

Lemma fold_min_shift (q m : Z) (ps : list Z) :
  fold_right Z.min (Z.min q m) ps = Z.min q (fold_right Z.min m ps).
Proof. induction ps as [|p ps IH]; simpl; [reflexivity | rewrite IH; lia]. Qed.

Lemma fold_max_shift (q m : Z) (ps : list Z) :
  fold_right Z.max (Z.max q m) ps = Z.max q (fold_right Z.max m ps).
Proof. induction ps as [|p ps IH]; simpl; [reflexivity | rewrite IH; lia]. Qed.

Lemma running_min (ps : list Z) (m : Z) :
  fold_left (fun m n => if n <? m then n else m) ps m = fold_right Z.min m ps.
Proof.
  revert m; induction ps as [|p ps IH]; intros m; simpl; [reflexivity|].
  rewrite IH, <- fold_min_shift. f_equal. destruct (Z.ltb_spec p m); lia.
Qed.

Lemma running_max (ps : list Z) (m : Z) :
  fold_left (fun m n => if n >? m then n else m) ps m = fold_right Z.max m ps.
Proof.
  revert m; induction ps as [|p ps IH]; intros m; simpl; [reflexivity|].
  rewrite IH, <- fold_max_shift. f_equal.
  rewrite Z.gtb_ltb. destruct (Z.ltb_spec m p); lia.
Qed.

(** What the scanning loop has in its four variables at the end. *)
Lemma classify_scan (track : Track) (v : ClassifyVars) :
  notes_in_track (fold_left classify_msg track v)
    = notes_in_track v ++ sounding_pitches track
  /\ min_pitch (fold_left classify_msg track v)
     = fold_left (fun m n => if n <? m then n else m)
                 (sounding_pitches track) (min_pitch v)
  /\ max_pitch (fold_left classify_msg track v)
     = fold_left (fun m n => if n >? m then n else m)
                 (sounding_pitches track) (max_pitch v)
  /\ is_percussion_channel (fold_left classify_msg track v)
     = is_percussion_channel v || percussion_flag track.
Proof.
  revert v; induction track as [|msg track IH]; intros v.
  - simpl. rewrite app_nil_r, orb_false_r. auto.
  - cbn [fold_left]. destruct (IH (classify_msg v msg)) as (H1 & H2 & H3 & H4).
    rewrite H1, H2, H3, H4. clear.
    destruct msg as [n vel tm ch | n vel tm ch | pr ch | tp | ]; simpl;
      try (destruct (vel >? 0); simpl);
      try (destruct ((ch =? 9) || (pr >=? 112)); simpl);
      rewrite <- ?app_assoc, ?orb_true_r; auto.
Qed.

Lemma int_sum_fold_right (xs : list Z) : int_sum xs = fold_right Z.add 0 xs.
Proof.
  unfold int_sum.
  assert (H : forall a, fold_left Z.add xs a = a + fold_right Z.add 0 xs).
  { induction xs as [|x xs IH]; intros a; simpl; [lia | rewrite IH; lia]. }
  now rewrite H.
Qed.

Lemma capped_min (p : Z) (ps : list Z) :
  p <= 128 -> Z.min p (fold_right Z.min 128 ps) = fold_right Z.min p ps.
Proof. intros Hp. induction ps as [|q ps IH]; simpl; lia. Qed.

Lemma capped_max (p : Z) (ps : list Z) :
  -1 <= p -> Z.max p (fold_right Z.max (-1) ps) = fold_right Z.max p ps.
Proof. intros Hp. induction ps as [|q ps IH]; simpl; lia. Qed.

Lemma Qle_bool_Qred_r (a x : Q) : Qle_bool a (Qred x) = Qle_bool a x.
Proof.
  apply eq_true_iff_eq. rewrite !Qle_bool_iff, Qred_correct. reflexivity.
Qed.

(** Comparing an average with an integer is comparing integers. *)
Lemma Qle_bool_average (k s n : Z) :
  0 < n -> Qle_bool (inject_Z k) (inject_Z s / inject_Z n) = (k * n <=? s).
Proof.
  intros Hn. assert (Hq : (0 < inject_Z n)%Q)
    by (change 0%Q with (inject_Z 0); now rewrite <- Zlt_Qlt).
  apply eq_true_iff_eq. rewrite Qle_bool_iff, Z.leb_le. split.
  - intros H. destruct (Z.le_gt_cases (k * n) s) as [Hle|Hgt]; [exact Hle|].
    exfalso. apply (Qlt_not_le (inject_Z s / inject_Z n) (inject_Z k)); [|exact H].
    apply Qlt_shift_div_r; [exact Hq|].
    rewrite <- inject_Z_mult, <- Zlt_Qlt. exact Hgt.
  - intros H. apply Qle_shift_div_l; [exact Hq|].
    rewrite <- inject_Z_mult, <- Zle_Qle. exact H.
Qed.

(** On MIDI pitches the scanning loop computes what the rule says. *)
Lemma classify_track_refines (track : Track) :
  forallb valid_pitch (sounding_pitches track) = true ->
  _classify_track track = classify_spec track.
Proof.
  intros Hvalid. unfold _classify_track, classify_spec.
  destruct (classify_scan track classify_init) as (H1 & H2 & H3 & H4).
  cbv zeta. rewrite H1, H2, H3, H4. simpl.
  destruct (sounding_pitches track) as [|p ps] eqn:E; [reflexivity|].
  cbn [is_empty orb]. destruct (percussion_flag track); [reflexivity|].
  rewrite running_min, running_max, int_sum_fold_right.
  cbn [forallb] in Hvalid. apply andb_true_iff in Hvalid as [Hp _].
  unfold valid_pitch in Hp. apply andb_true_iff in Hp as [Hp0 Hp1].
  apply Z.leb_le in Hp0, Hp1.
  cbn [fold_right pitch_range].
  rewrite capped_min, capped_max by lia.
  unfold true_div, of_int, Qlt_bool.
  rewrite !Qle_bool_Qred_r, !Z.gtb_ltb. reflexivity.
Qed.

Lemma sum_bounds (lo hi : Z) (xs : list Z) :
  Forall (fun p => lo <= p <= hi) xs ->
  lo * Z.of_nat (length xs) <= fold_right Z.add 0 xs <= hi * Z.of_nat (length xs).
Proof.
  induction 1 as [|x xs Hx Hxs IH]; [simpl; lia|].
  cbn [fold_right length]. lia.
Qed.

Lemma bounded_valid (lo hi : Z) (xs : list Z) :
  0 <= lo -> hi <= 127 ->
  Forall (fun p => lo <= p <= hi) xs -> forallb valid_pitch xs = true.
Proof.
  intros Hlo Hhi H. apply forallb_forall. rewrite Forall_forall in H.
  intros p Hp. specialize (H p Hp). unfold valid_pitch.
  apply andb_true_iff. split; apply Z.leb_le; lia.
Qed.

(** C2. [_classify_track] is a function of the track's events alone.  On
    MIDI pitches it computes the stated rule: [other] when there is no
    note-on with velocity > 0 or some program change uses channel 9 or a
    program >= 112; else [bass] when average < 48, range < 24 and count >
    10; else [melody] when average >= 60, range > 12 and count > 20; else
    [other].  A percussion track is [other].  A non-percussion track with
    15 pitches in [36, 47] and range 10 is [bass]; one with 30 pitches in
    [64, 84] and range 20 is [melody]. *)
Theorem classify_track_rule :
  (forall track,
      forallb valid_pitch (sounding_pitches track) = true ->
      _classify_track track = classify_spec track)
  /\ (forall track, percussion_flag track = true -> _classify_track track = other)
  /\ (forall track,
      percussion_flag track = false ->
      Forall (fun p => 36 <= p <= 47) (sounding_pitches track) ->
      pitch_range (sounding_pitches track) = 10 ->
      length (sounding_pitches track) = 15%nat ->
      _classify_track track = bass)
  /\ (forall track,
      percussion_flag track = false ->
      Forall (fun p => 64 <= p <= 84) (sounding_pitches track) ->
      pitch_range (sounding_pitches track) = 20 ->
      length (sounding_pitches track) = 30%nat ->
      _classify_track track = melody).
Proof.
  split; [exact classify_track_refines|]. split; [|split].
  - intros track Hperc. unfold _classify_track.
    destruct (classify_scan track classify_init) as (_ & _ & _ & H4).
    rewrite H4, Hperc. simpl. now destruct (notes_in_track _).
  - intros track Hperc Hall Hrange Hcount.
    rewrite classify_track_refines by (eapply bounded_valid; [| |exact Hall]; lia).
    pose proof (sum_bounds _ _ _ Hall) as Hsum.
    unfold classify_spec. cbv zeta.
    rewrite Hperc, Hrange, Hcount in *.
    destruct (sounding_pitches track); [discriminate|].
    cbn [is_empty orb]. unfold Qlt_bool.
    rewrite Qle_bool_average by lia.
    replace (48 * Z.of_nat 15 <=? _) with false
      by (symmetry; apply Z.leb_gt; lia).
    reflexivity.
  - intros track Hperc Hall Hrange Hcount.
    rewrite classify_track_refines by (eapply bounded_valid; [| |exact Hall]; lia).
    pose proof (sum_bounds _ _ _ Hall) as Hsum.
    unfold classify_spec. cbv zeta.
    rewrite Hperc, Hrange, Hcount in *.
    destruct (sounding_pitches track); [discriminate|].
    cbn [is_empty orb]. unfold Qlt_bool.
    rewrite !Qle_bool_average by lia.
    replace (48 * Z.of_nat 30 <=? _) with true
      by (symmetry; apply Z.leb_le; lia).
    replace (60 * Z.of_nat 30 <=? _) with true
      by (symmetry; apply Z.leb_le; lia).
    reflexivity.
Qed.

(** The two example tracks, and the melody example behind a program change
    on channel 9. *)
Lemma classify_track_rule_witness :
  _classify_track bass_example = bass
  /\ _classify_track melody_example = melody
  /\ _classify_track (program_change 0 9 :: melody_example) = other
  /\ _classify_track melody_example = classify_spec melody_example.
Proof.
  destruct classify_track_rule as (Hspec & Hperc & Hbass & Hmel).
  split; [|split; [|split]].
  - apply Hbass; try reflexivity.
    unfold bass_example. simpl.
    repeat (constructor; [lia|]). constructor.
  - apply Hmel; try reflexivity.
    unfold melody_example. simpl.
    repeat (constructor; [lia|]). constructor.
  - apply Hperc. reflexivity.
  - apply Hspec. reflexivity.
Defined.

(* ------------------------------------------------------------------ *)
(** ** Re-training *)

(** [generate_music] never assigns the model. *)
Lemma generate_music_keeps_model (bpm2tempo : Z -> outcome Z)
    (writable : string -> bool) (length : Z)
    (output_path : string) (tempo : Z) (w : World) :
  self (fst (generate_music bpm2tempo writable length output_path tempo w))
  = self w.
Proof.
  unfold generate_music, bind, gets, lift_outcome, on_track, meta_set_tempo,
    save.
  destruct (writable output_path);
  destruct (is_empty (transitions_melody (self w))) eqn:Em;
    destruct (is_empty (transitions_bass (self w))) eqn:Eb; simpl;
    try reflexivity;
    destruct (bpm2tempo tempo) as [t|e]; simpl; try reflexivity;
    destruct ((0 <=? t) && (t <=? 16777215)); simpl; try reflexivity;
    repeat match goal with
           | |- context [_generate_track ?c ?v ?n ?lo ?hi ?s] =>
               destruct (_generate_track c v n lo hi s) as [? [[]|?]]; simpl
           end;
    reflexivity.
Qed.

(** C7 (departure of the code).  [train] never clears the tables.  Trained
    on "melody.mid" and then on "variation.mid", the composer keeps the
    states of the first corpus and, in the shared state (64,84), adds the
    ten new counts to the stored probability 1.0 before normalising: the
    result is {72: 1/11, 76: 10/11}.  A new composer trained on
    "variation.mid" alone has {76: 1} there and no state of the first
    corpus. *)
Theorem retrain_keeps_earlier_model :
  transitions_melody
    (self (fst (train ["variation.mid"%string]
                  (fst (train ["melody.mid"%string] example_world)))))
  = [([64; 84], [(72, (1 # 11)%Q); (76, (10 # 11)%Q)]);
     ([84; 72], [(64, 1%Q)]); ([72; 64], [(84, 1%Q)]);
     ([84; 76], [(64, 1%Q)]); ([76; 64], [(84, 1%Q)])]
  /\ transitions_melody
       (self (fst (train ["variation.mid"%string] example_world)))
     = [([64; 84], [(76, 1%Q)]); ([84; 76], [(64, 1%Q)]); ([76; 64], [(84, 1%Q)])]
  /\ snd (train ["variation.mid"%string]
            (fst (train ["melody.mid"%string] example_world))) = Returned tt.
Proof. vm_compute. repeat split. Qed.

(* ------------------------------------------------------------------ *)
(** ** Several files: concatenation against per-file counting *)

Lemma count_transitions_record (order : nat) (notes : list Z) (t : Table) :
  count_transitions order notes t = record_all t (observations order notes).
Proof.
  unfold count_transitions, record_all, observations.
  generalize (seq 0 (length notes - order)) as idx. intros idx. revert t.
  induction idx as [|i idx IH]; intros t; simpl; [reflexivity | apply IH].
Qed.

Lemma observations_short (order : nat) (l : list Z) :
  (length l <= order)%nat -> observations order l = [].
Proof.
  intros H. unfold observations.
  now replace (length l - order)%nat with 0%nat by lia.
Qed.

Lemma observations_cons (order : nat) (x : Z) (l : list Z) :
  observations order (x :: l)
  = if (order <=? length l)%nat
    then (firstn order (x :: l), nth order (x :: l) 0) :: observations order l
    else [].
Proof.
  destruct (Nat.leb_spec order (length l)) as [Hle|Hgt].
  - unfold observations.
    replace (length (x :: l) - order)%nat with (S (length l - order))
      by (cbn [length]; lia).
    cbn [seq map]. f_equal.
    rewrite <- seq_shift, map_map. apply map_ext. intros i. reflexivity.
  - apply observations_short. cbn [length]. lia.
Qed.

(** When the first file is no longer than [order], every window that
    touches it lies within it and the first [order] pitches of the
    second. *)
Lemma observations_app_short (order : nat) (xs ys : list Z) :
  (length xs <= order)%nat ->
  observations order (xs ++ ys)
  = observations order (xs ++ firstn order ys) ++ observations order ys.
Proof.
  induction xs as [|x xs IH]; intros Hlen.
  - simpl. rewrite (observations_short order (firstn order ys))
      by apply firstn_le_length. reflexivity.
  - simpl in Hlen. rewrite <- !app_comm_cons, !observations_cons.
    rewrite !length_app, length_firstn.
    destruct order as [|o]; [lia|].
    destruct (Nat.leb_spec (S o) (length xs + length ys)) as [H1|H1];
      destruct (Nat.leb_spec (S o) (length xs + Nat.min (S o) (length ys)))
        as [H2|H2]; try lia.
    + rewrite IH by lia. rewrite <- app_comm_cons. f_equal. f_equal.
      * rewrite !firstn_cons. f_equal.
        rewrite !firstn_app, firstn_firstn. do 2 f_equal. lia.
      * cbn [nth]. rewrite !app_nth2 by lia.
        rewrite nth_firstn.
        destruct (Nat.ltb_spec (o - length xs) (S o)); [reflexivity | lia].
    + rewrite observations_short by lia. reflexivity.
Qed.

(** The windows of a concatenation: those of the first file, those that
    straddle the junction, those of the second file. *)
Lemma observations_app (order : nat) (xs ys : list Z) :
  observations order (xs ++ ys)
  = observations order xs
    ++ observations order (boundary order xs ys)
    ++ observations order ys.
Proof.
  induction xs as [|x xs IH].
  - unfold boundary. simpl.
    rewrite (observations_short order (firstn order ys))
      by apply firstn_le_length. reflexivity.
  - destruct (Nat.leb_spec order (length xs)) as [Hle|Hgt].
    + rewrite <- app_comm_cons, !observations_cons, length_app.
      replace (order <=? length xs + length ys)%nat with true
        by (symmetry; apply Nat.leb_le; lia).
      replace (order <=? length xs)%nat with true
        by (symmetry; apply Nat.leb_le; lia).
      rewrite IH. rewrite <- app_comm_cons. f_equal.
      * f_equal.
        -- rewrite app_comm_cons, firstn_app.
           replace (order - length (x :: xs))%nat with 0%nat by (cbn [length]; lia).
           now rewrite firstn_O, app_nil_r.
        -- rewrite app_comm_cons. apply app_nth1. cbn [length]. lia.
      * do 2 f_equal. unfold boundary. f_equal.
        replace (length (x :: xs) - order)%nat with (S (length xs - order))
          by (cbn [length]; lia).
        reflexivity.
    + rewrite (observations_short order (x :: xs)) by (cbn [length]; lia).
      unfold boundary.
      replace (length (x :: xs) - order)%nat with 0%nat by (cbn [length]; lia).
      cbn [skipn app]. rewrite app_comm_cons.
      apply observations_app_short. cbn [length]. lia.
Qed.

Lemma composer_after_table (notes : list Z) (order : nat) :
  transitions_melody (composer_after notes order)
  = fst (normalize (count_transitions order notes [])).
Proof.
  unfold composer_after, _build_transitions, bind, gets, lift_outcome. simpl.
  destruct (Nat.ltb_spec (length notes) (order + 1)) as [Hlt|Hge].
  - simpl. unfold count_transitions.
    now replace (length notes - order)%nat with 0%nat by lia.
  - destruct (normalize _) as [t1 r]. reflexivity.
Qed.

(** C8, as amended.  The table built from the concatenation [xs ++ ys] of
    two files' pitch sequences is obtained by accumulating the raw counts
    of [xs], then those of the windows that straddle the junction (the last
    [order] pitches of [xs] followed by the first [order] pitches of [ys]),
    then those of [ys], and normalising once at the end. *)
Theorem concatenation_counts_boundary (order : nat) (xs ys : list Z) :
  (forall t,
      count_transitions order (xs ++ ys) t
      = count_transitions order ys
          (count_transitions order (boundary order xs ys)
             (count_transitions order xs t)))
  /\ transitions_melody (composer_after (xs ++ ys) order)
     = fst (normalize
              (count_transitions order ys
                 (count_transitions order (boundary order xs ys)
                    (count_transitions order xs [])))).
Proof.
  assert (H : forall t,
    count_transitions order (xs ++ ys) t
    = count_transitions order ys
        (count_transitions order (boundary order xs ys)
           (count_transitions order xs t))).
  { intros t. rewrite !count_transitions_record, observations_app.
    unfold record_all. now rewrite !fold_left_app. }
  split; [exact H|]. now rewrite composer_after_table, H.
Qed.

(** C8, as stated, fails on the files [60,62,64] and [65,67,69] with order
    2: the concatenation has the state (62,64), which no file has, and
    reversing the order of the files changes the table. *)
Lemma concatenation_not_per_file :
  ~ same_table
      (transitions_melody
         (composer_after (concat [[60; 62; 64]; [65; 67; 69]]) 2))
      (fst (normalize (accumulate_files 2 [[60; 62; 64]; [65; 67; 69]] [])))
  /\ ~ same_table
         (transitions_melody
            (composer_after (concat [[65; 67; 69]; [60; 62; 64]]) 2))
         (transitions_melody
            (composer_after (concat [[60; 62; 64]; [65; 67; 69]]) 2)).
Proof.
  split; intros H; specialize (H [62; 64]); vm_compute in H; discriminate.
Qed.

(* ------------------------------------------------------------------ *)
(** ** From training to generation *)

Lemma Qlt_bool_of_lt (a b : Q) : (a < b)%Q -> Qlt_bool a b = true.
Proof.
  intros H. unfold Qlt_bool. destruct (Qle_bool b a) eqn:E; [|reflexivity].
  apply Qle_bool_iff in E. exfalso. eapply Qlt_not_le; eauto.
Qed.

Lemma entry_normalized_well_formed (order : nat) (t : Table) :
  (1 <= order)%nat -> Forall (entry_normalized order) t -> well_formed t = true.
Proof.
  intros Hord Hall. unfold well_formed. apply forallb_forall.
  rewrite Forall_forall in Hall. intros [state d] Hin.
  destruct (Hall _ Hin) as [[Hlen [Hne Hpos]] _]. simpl in *.
  apply andb_true_iff. split.
  - destruct state; [simpl in Hlen; lia | reflexivity].
  - unfold positive_dist. apply andb_true_iff. split.
    + destruct d; [congruence | reflexivity].
    + apply forallb_forall. rewrite Forall_forall in Hpos.
      intros kv Hkv. apply Qlt_bool_of_lt, Hpos, Hkv.
Qed.

(** After [train] on a new composer of order at least 1, generating
    [length >= 1] notes from a non-empty table returns: at most [length]
    note-ons, then the closing note-off of velocity 0 for the last
    generated pitch. *)
Lemma trained_generation (order0 : nat) (midi_files : list string) (w : World)
    (track_type : TrackType) (t : Table) (length lo hi : Z) (s : GenState) :
  self w = init order0 -> (1 <= order0)%nat ->
  transitions (self (fst (train midi_files w))) track_type = Returned t ->
  t <> [] -> 1 <= length -> lo <= hi ->
  exists s' seed evs,
    _generate_track (self (fst (train midi_files w))) track_type length lo hi s
      = (s', Returned tt)
    /\ In seed (PyDict.keys t)
    /\ track s'
       = track s ++ evs
         ++ [note_off (last (seed ++ note_on_pitches evs) 0) 0 0
                      (voice_channel track_type)]
    /\ (Z.of_nat (count_note_on evs) <= length)
    /\ Forall (fun m => note_event_on (voice_channel track_type) m = true) evs.
Proof.
  intros Hnew Hord Ht Hne Hlen Hlohi.
  destruct (train_invariant midi_files w) as (w' & E & [Hm Hb] & Ho & Hd & Hw).
  { rewrite Hnew. split; constructor. }
  rewrite E in *. cbn [fst] in *. rewrite Hnew in Ho, Hd, Hw. simpl in Ho.
  apply generate_track_emits; auto.
  - split; [rewrite Hd | rewrite Hw]; reflexivity.
  - apply (entry_normalized_well_formed (order (self w'))); [lia|].
    destruct track_type; simpl in Ht; [| |discriminate];
      injection Ht as <-; assumption.
Qed.

(** Through [train], a track holding only the three-note cycle is not used:
    its pitch range is 4, so the classifier answers [other] and both tables
    stay empty. *)
Remark cycle_track_is_other :
  _classify_track (notes_track 0 cycle_notes) = other.
Proof. vm_compute. reflexivity. Qed.

(* ================================================================== *)
(** * Further properties of the code *)

(** ** Dictionary updates *)

Section DictUpdates.
Context {K V : Type}.
Variable eqb : K -> K -> bool.
Hypothesis eqb_eq : forall a b, eqb a b = true <-> a = b.

Lemma eqb_refl_of (k : K) : eqb k k = true.
Proof. now apply eqb_eq. Qed.

Lemma eqb_neq_of (a b : K) : a <> b -> eqb a b = false.
Proof.
  intros H. destruct (eqb a b) eqn:E; [|reflexivity].
  apply eqb_eq in E. contradiction.
Qed.

Lemma get_set_same (k : K) (v : V) (d : PyDict.dict K V) :
  PyDict.get eqb k (PyDict.set eqb k v d) = Some v.
Proof.
  induction d as [|[k' v'] d IH]; simpl.
  - now rewrite eqb_refl_of.
  - destruct (eqb k k') eqn:E; simpl; rewrite E; [reflexivity | exact IH].
Qed.

Lemma get_set_other (k k' : K) (v : V) (d : PyDict.dict K V) :
  k <> k' -> PyDict.get eqb k' (PyDict.set eqb k v d) = PyDict.get eqb k' d.
Proof.
  intros Hne. induction d as [|[k0 v0] d IH]; simpl.
  - rewrite eqb_neq_of; [reflexivity | congruence].
  - destruct (eqb k k0) eqn:E; simpl.
    + apply eqb_eq in E. subst k0.
      rewrite eqb_neq_of by congruence. reflexivity.
    + destruct (eqb k' k0); [reflexivity | exact IH].
Qed.

Lemma get_map_values {W} (f : V -> W) (k : K) (d : PyDict.dict K V) :
  PyDict.get eqb k (map (fun kv => (fst kv, f (snd kv))) d)
  = option_map f (PyDict.get eqb k d).
Proof.
  induction d as [|[k' v'] d IH]; simpl; [reflexivity|].
  destruct (eqb k k'); [reflexivity | exact IH].
Qed.
End DictUpdates.

(* ------------------------------------------------------------------ *)
(** ** The note extractor *)

Lemma extract_fold (track : Track) (acc : list Z) :
  fold_left extract_msg track acc = acc ++ sounding_pitches track.
Proof.
  revert acc; induction track as [|msg track IH]; intros acc; simpl.
  - now rewrite app_nil_r.
  - rewrite IH. destruct msg as [n vel tm ch| | | |]; simpl;
      try reflexivity.
    destruct (vel >? 0); simpl; [now rewrite <- app_assoc | reflexivity].
Qed.

Lemma sounding_pitches_app (t1 t2 : Track) :
  sounding_pitches (t1 ++ t2) = sounding_pitches t1 ++ sounding_pitches t2.
Proof. unfold sounding_pitches. apply flat_map_app. Qed.

(** X1. [_extract_notes_from_track] returns the pitches of the note-ons
    with velocity > 0, in event order, and nothing else; it distributes over
    the concatenation of tracks; and it returns exactly the list of notes
    that the scanning loop of [_classify_track] collects, so the classifier
    counts the notes that training uses. *)
Theorem extract_notes_sounding (t1 t2 : Track) :
  _extract_notes_from_track t1 = sounding_pitches t1
  /\ _extract_notes_from_track (t1 ++ t2)
     = _extract_notes_from_track t1 ++ _extract_notes_from_track t2
  /\ notes_in_track (fold_left classify_msg t1 classify_init)
     = _extract_notes_from_track t1.
Proof.
  unfold _extract_notes_from_track. rewrite !extract_fold. simpl.
  split; [reflexivity|]. split; [apply sounding_pitches_app|].
  now destruct (classify_scan t1 classify_init) as (-> & _).
Qed.

(* ------------------------------------------------------------------ *)
(** ** The table holds relative frequencies *)

Lemma Qsum_set (k : Z) (v : Q) (d : Dist) :
  (Qsum (PyDict.values (dist_set k v d))
   == Qsum (PyDict.values d)
      - match dist_get k d with Some c => c | None => 0 end + v)%Q.
Proof.
  unfold dist_set, dist_get.
  induction d as [|[k' v'] d IH]; simpl.
  - ring.
  - destruct (k =? k'); simpl; [ring | rewrite IH; ring].
Qed.

Lemma table_get_incr_same (t : Table) (state : State) (next_note : Z) :
  table_get state (incr t state next_note)
  = Some (dist_set next_note
            (num_add (table_count t state next_note) (of_int 1))
            match table_get state t with Some d => d | None => [] end).
Proof.
  unfold incr, table_get, table_set, table_count.
  rewrite (get_set_same State_eqb State_eqb_eq).
  unfold table_get. destruct (PyDict.get State_eqb state t); reflexivity.
Qed.

Lemma table_get_incr_other (t : Table) (state state' : State) (next_note : Z) :
  state <> state' ->
  table_get state' (incr t state next_note) = table_get state' t.
Proof.
  intros H. unfold incr, table_get, table_set.
  now apply (get_set_other State_eqb State_eqb_eq).
Qed.

(** One more observation adds 1 to its own count and to no other. *)
Lemma incr_count (t : Table) (state state' : State) (n n' : Z) :
  (table_count (incr t state n) state' n'
   == table_count t state' n'
      + if State_eqb state state' && (n =? n') then 1 else 0)%Q.
Proof.
  destruct (State_eqb state state') eqn:Es.
  - apply State_eqb_eq in Es. subst state'.
    unfold table_count at 1. rewrite table_get_incr_same.
    destruct (Z.eqb_spec n n') as [<- | Hn]; simpl.
    + unfold dist_get, dist_set. rewrite (get_set_same Z.eqb Z.eqb_eq).
      unfold num_add, of_int. rewrite Qred_correct. reflexivity.
    + unfold dist_get, dist_set.
      rewrite (get_set_other Z.eqb Z.eqb_eq) by exact Hn.
      unfold table_count, dist_get.
      destruct (table_get state t); simpl; ring.
  - simpl. unfold table_count at 1.
    rewrite table_get_incr_other
      by (intros ->; rewrite State_eqb_refl in Es; discriminate).
    fold (table_count t state' n'). ring.
Qed.

Lemma incr_total (t : Table) (state state' : State) (n : Z) :
  (table_total (incr t state n) state'
   == table_total t state' + if State_eqb state state' then 1 else 0)%Q.
Proof.
  destruct (State_eqb state state') eqn:Es.
  - apply State_eqb_eq in Es. subst state'.
    unfold table_total at 1. rewrite table_get_incr_same, Qsum_set.
    unfold num_add, of_int. rewrite Qred_correct.
    unfold table_total, table_count.
    destruct (table_get state t) as [d|]; simpl; ring.
  - unfold table_total at 1.
    rewrite table_get_incr_other
      by (intros ->; rewrite State_eqb_refl in Es; discriminate).
    fold (table_total t state'). ring.
Qed.

Lemma inject_nat_S (n : nat) :
  (inject_Z (Z.of_nat (S n)) == inject_Z (Z.of_nat n) + 1)%Q.
Proof. rewrite Nat2Z.inj_succ. unfold Z.succ. now rewrite inject_Z_plus. Qed.

Lemma record_all_count (obs : list (State * Z)) (t : Table) (state : State) (n : Z) :
  (table_count (record_all t obs) state n
   == table_count t state n + inject_Z (Z.of_nat (pair_count state n obs)))%Q.
Proof.
  revert t; induction obs as [|[s m] obs IH]; intros t.
  - simpl. unfold pair_count. simpl. ring.
  - cbn [record_all fold_left fst snd]. fold (record_all (incr t s m) obs).
    rewrite IH, incr_count. unfold pair_count. cbn [filter fst snd].
    rewrite (Z.eqb_sym n m).
    assert (Esym : State_eqb state s = State_eqb s state).
    { destruct (State_eqb state s) eqn:E1, (State_eqb s state) eqn:E2; auto.
      - apply State_eqb_eq in E1. subst. now rewrite State_eqb_refl in E2.
      - apply State_eqb_eq in E2. subst. now rewrite State_eqb_refl in E1. }
    rewrite Esym.
    destruct (State_eqb s state && (m =? n)); cbn [length].
    + rewrite inject_nat_S. ring.
    + ring.
Qed.

Lemma record_all_total (obs : list (State * Z)) (t : Table) (state : State) :
  (table_total (record_all t obs) state
   == table_total t state + inject_Z (Z.of_nat (state_count state obs)))%Q.
Proof.
  revert t; induction obs as [|[s m] obs IH]; intros t.
  - simpl. unfold state_count. simpl. ring.
  - cbn [record_all fold_left fst snd]. fold (record_all (incr t s m) obs).
    rewrite IH, incr_total. unfold state_count. cbn [filter fst snd].
    assert (Esym : State_eqb state s = State_eqb s state).
    { destruct (State_eqb state s) eqn:E1, (State_eqb s state) eqn:E2; auto.
      - apply State_eqb_eq in E1. subst. now rewrite State_eqb_refl in E2.
      - apply State_eqb_eq in E2. subst. now rewrite State_eqb_refl in E1. }
    rewrite Esym.
    destruct (State_eqb s state); cbn [length].
    + rewrite inject_nat_S. ring.
    + ring.
Qed.

Lemma inject_nat_zero (n : nat) : (0 == inject_Z (Z.of_nat n))%Q -> n = 0%nat.
Proof.
  intros H. unfold Qeq in H. simpl in H. lia.
Qed.

Lemma inject_nat_pos (n : nat) : (0 < inject_Z (Z.of_nat n))%Q -> (0 < n)%nat.
Proof.
  intros H. change 0%Q with (inject_Z 0) in H. rewrite <- Zlt_Qlt in H. lia.
Qed.

Lemma dist_get_normalized (n : Z) (d : Dist) :
  dist_get n (normalized d)
  = option_map (fun c => true_div c (num_sum (PyDict.values d))) (dist_get n d).
Proof.
  unfold normalized, dist_get.
  rewrite <- (get_map_values Z.eqb
                (fun c => true_div c (num_sum (PyDict.values d)))).
  f_equal. apply map_ext. now intros [k c].
Qed.

(** Relative frequencies, for the table built on an empty table. *)
Lemma table_of_frequencies (order0 : nat) (notes : list Z)
    (state : State) (next_note : Z) :
  match table_get state (table_of order0 notes) with
  | None => state_count state (observations order0 notes) = 0%nat
  | Some d =>
      (0 < state_count state (observations order0 notes))%nat
      /\ match dist_get next_note d with
         | None => pair_count state next_note (observations order0 notes) = 0%nat
         | Some p =>
             (0 < pair_count state next_note (observations order0 notes))%nat
             /\ (p == inject_Z (Z.of_nat (pair_count state next_note
                                            (observations order0 notes)))
                      / inject_Z (Z.of_nat (state_count state
                                              (observations order0 notes))))%Q
         end
  end.
Proof.
  unfold table_of.
  assert (Hok : Forall (entry_ok order0) (count_transitions order0 notes []))
    by (apply count_transitions_entry_ok; constructor).
  destruct (normalize_entries order0 _ Hok) as [E _]. rewrite E. cbn [fst].
  unfold table_get. rewrite (get_map_values State_eqb normalized).
  fold (table_get state (count_transitions order0 notes [])).
  pose proof (record_all_total (observations order0 notes) [] state) as Htot.
  pose proof (record_all_count (observations order0 notes) [] state next_note)
    as Hcnt.
  rewrite <- count_transitions_record in Htot, Hcnt.
  unfold table_total, table_count in Htot, Hcnt. simpl in Htot, Hcnt.
  rewrite Qplus_0_l in Htot, Hcnt.
  destruct (table_get state (count_transitions order0 notes [])) as [d|] eqn:Eg;
    cbn [option_map].
  - apply (get_In State_eqb State_eqb_eq) in Eg.
    rewrite Forall_forall in Hok. destruct (Hok _ Eg) as [_ Hd]. simpl in Hd.
    pose proof (num_sum_pos d Hd) as Hpos. rewrite num_sum_Qsum in Hpos.
    split; [apply inject_nat_pos; now rewrite <- Htot|].
    rewrite dist_get_normalized.
    destruct (dist_get next_note d) as [c|] eqn:Ec; cbn [option_map].
    + apply (get_In Z.eqb Z.eqb_eq) in Ec.
      destruct Hd as [_ Hall]. rewrite Forall_forall in Hall.
      specialize (Hall _ Ec). simpl in Hall.
      split; [apply inject_nat_pos; now rewrite <- Hcnt|].
      unfold true_div. rewrite Qred_correct, num_sum_Qsum, Hcnt, Htot.
      reflexivity.
    + now apply inject_nat_zero.
  - now apply inject_nat_zero.
Qed.

(** X2. The table that [_build_transitions] builds on a new composer holds
    relative frequencies.  A state is a key exactly when some window of
    [order] notes followed by a note equals it; for such a state, a note is
    a key of its dictionary exactly when it follows the state somewhere,
    and its value is the number of times it follows the state divided by
    the number of times the state is followed by anything. *)
Theorem transition_frequencies (order0 : nat) (notes : list Z)
    (state : State) (next_note : Z) :
  match table_get state (transitions_melody (composer_after notes order0)) with
  | None => state_count state (observations order0 notes) = 0%nat
  | Some d =>
      (0 < state_count state (observations order0 notes))%nat
      /\ match dist_get next_note d with
         | None => pair_count state next_note (observations order0 notes) = 0%nat
         | Some p =>
             (0 < pair_count state next_note (observations order0 notes))%nat
             /\ (p == inject_Z (Z.of_nat (pair_count state next_note
                                            (observations order0 notes)))
                      / inject_Z (Z.of_nat (state_count state
                                              (observations order0 notes))))%Q
         end
  end.
Proof.
  rewrite composer_after_table. fold (table_of order0 notes).
  apply table_of_frequencies.
Qed.

(* ------------------------------------------------------------------ *)
(** ** What the classifier requires of a track *)

(** The tests of the final [if] chain, read backwards. *)
Lemma classify_cases (track : Track) :
  (_classify_track track = bass ->
     (10 < length (sounding_pitches track))%nat
     /\ percussion_flag track = false
     /\ fold_right Z.add 0 (sounding_pitches track)
        < 48 * Z.of_nat (length (sounding_pitches track)))
  /\ (_classify_track track = melody ->
     (20 < length (sounding_pitches track))%nat
     /\ percussion_flag track = false
     /\ 60 * Z.of_nat (length (sounding_pitches track))
        <= fold_right Z.add 0 (sounding_pitches track))
  /\ (sounding_pitches track = [] -> _classify_track track = other).
Proof.
  unfold _classify_track.
  destruct (classify_scan track classify_init) as (H1 & _ & _ & H4).
  cbv zeta. rewrite H1, H4. cbn [notes_in_track classify_init app
                                 is_percussion_channel orb].
  destruct (sounding_pitches track) as [|p ps] eqn:E.
  - repeat split; try discriminate.
  - destruct (percussion_flag track); [repeat split; discriminate|].
    rewrite int_sum_fold_right.
    unfold true_div, of_int, Qlt_bool.
    rewrite !Qle_bool_Qred_r, !Qle_bool_average by (cbn [length]; lia).
    set (n := Z.of_nat (length (p :: ps))).
    set (s := fold_right Z.add 0 (p :: ps)).
    assert (Hn : Z.of_nat (length (p :: ps)) = n) by reflexivity.
    destruct (48 * n <=? s) eqn:E48; destruct (60 * n <=? s) eqn:E60;
      destruct (_ <? 24); destruct (_ >? 12);
      destruct (10 <? n) eqn:E10; destruct (20 <? n) eqn:E20;
      cbn [negb andb]; repeat split; try discriminate;
      try apply Z.leb_le in E60; try apply Z.leb_gt in E48;
      try apply Z.ltb_lt in E10; try apply Z.ltb_lt in E20; try lia.
Qed.

(** X3. A track is classified [bass] only if it has more than 10 sounding
    notes, no percussion program change and a mean pitch below 48; it is
    classified [melody] only if it has more than 20 sounding notes, no
    percussion program change and a mean pitch of at least 60.  A track
    without sounding notes is [other]. *)
Theorem classify_requirements (track : Track) :
  (_classify_track track = bass ->
     (10 < length (sounding_pitches track))%nat
     /\ percussion_flag track = false
     /\ fold_right Z.add 0 (sounding_pitches track)
        < 48 * Z.of_nat (length (sounding_pitches track)))
  /\ (_classify_track track = melody ->
     (20 < length (sounding_pitches track))%nat
     /\ percussion_flag track = false
     /\ 60 * Z.of_nat (length (sounding_pitches track))
        <= fold_right Z.add 0 (sounding_pitches track))
  /\ (sounding_pitches track = [] -> _classify_track track = other).
Proof.
  destruct (classify_cases track) as (Hb & Hm & Ho).
  split; [exact Hb|]. split; [exact Hm | exact Ho].
Qed.

(** The two example tracks. *)
Lemma classify_requirements_witness :
  (10 < length (sounding_pitches bass_example))%nat
  /\ (20 < length (sounding_pitches melody_example))%nat.
Proof.
  destruct (classify_requirements bass_example) as (Hb & _ & _).
  destruct (classify_requirements melody_example) as (_ & Hm & _).
  split; [apply Hb | apply Hm]; reflexivity.
Defined.

(* ------------------------------------------------------------------ *)
(** ** The file loop of [train] *)

Lemma no_note_msg_no_pitch (track : Track) :
  existsb is_note_msg track = false -> sounding_pitches track = [].
Proof.
  induction track as [|msg track IH]; simpl; [reflexivity|].
  intros H. apply orb_false_iff in H as [Hm Ht].
  rewrite (IH Ht). destruct msg; simpl in *; try discriminate; reflexivity.
Qed.

(** The early [continue] on tracks without note messages changes nothing:
    such a track would be classified [other]. *)
Lemma train_track_acc (acc : Notes) (track : Track) :
  train_track acc track
  = (fst acc ++ qualifying melody track, snd acc ++ qualifying bass track).
Proof.
  unfold train_track, qualifying.
  destruct (classify_cases track) as (_ & _ & Hother).
  destruct (existsb is_note_msg track) eqn:E; cbn [negb].
  - unfold _extract_notes_from_track. rewrite extract_fold. cbn [app].
    destruct (_classify_track track); simpl; rewrite ?app_nil_r;
      now destruct acc.
  - rewrite (Hother (no_note_msg_no_pitch track E)). simpl.
    rewrite !app_nil_r. now destruct acc.
Qed.

Lemma train_tracks_acc (trks : list Track) (acc : Notes) :
  fold_left train_track trks acc
  = (fst acc ++ flat_map (qualifying melody) trks,
     snd acc ++ flat_map (qualifying bass) trks).
Proof.
  revert acc; induction trks as [|t trks IH]; intros acc; simpl.
  - rewrite !app_nil_r. now destruct acc.
  - rewrite IH, train_track_acc. simpl. now rewrite <- !app_assoc.
Qed.

(** The file loop, in one equation. *)
Lemma train_files_result (midi_files : list string) (acc : Notes) (w : World) :
  for_each midi_files train_file acc w
  = ({| self := self w;
        stdout := stdout w ++ map ErrorProcessing (unreadable (disk w) midi_files);
        disk := disk w; rng := rng w |},
     Returned (fst acc ++ corpus_notes (disk w) melody midi_files,
               snd acc ++ corpus_notes (disk w) bass midi_files)).
Proof.
  revert acc w; induction midi_files as [|f fs IH]; intros acc w.
  - simpl. rewrite !app_nil_r. destruct w, acc. reflexivity.
  - cbn [for_each]. unfold bind at 1. unfold train_file at 1.
    unfold bind, gets. cbn [unreadable corpus_notes filter flat_map].
    destruct (disk w f) as [mf|] eqn:Ef.
    + cbn [ret]. rewrite IH, train_tracks_acc. cbn [fst snd].
      now rewrite <- !app_assoc.
    + cbn [print modify ret]. rewrite IH. cbn [self stdout disk rng map].
      rewrite app_nil_l, <- !app_assoc. reflexivity.
Qed.

(** X4. The file loop of [train] never raises and touches neither the
    composer, the disk nor the random generator.  Each unreadable file adds
    one "Error processing" line, in file order, and nothing else; the two
    accumulators receive, in file and track order, the sounding pitches of
    the tracks classified melody and bass.  So an unreadable file gives the
    same notes as no file: the notes of a list of files are those of its
    readable files. *)
Theorem train_file_loop (midi_files : list string) (acc : Notes) (w : World) :
  for_each midi_files train_file acc w
  = ({| self := self w;
        stdout := stdout w ++ map ErrorProcessing (unreadable (disk w) midi_files);
        disk := disk w; rng := rng w |},
     Returned (fst acc ++ corpus_notes (disk w) melody midi_files,
               snd acc ++ corpus_notes (disk w) bass midi_files))
  /\ (forall v, corpus_notes (disk w) v midi_files
                = corpus_notes (disk w) v (readable (disk w) midi_files)).
Proof.
  split; [apply train_files_result|].
  intros v. unfold corpus_notes, readable.
  induction midi_files as [|f fs IH]; [reflexivity|].
  cbn [filter flat_map]. destruct (disk w f) as [mf|] eqn:E; cbn [negb].
  - cbn [flat_map]. rewrite E. f_equal. exact IH.
  - exact IH.
Qed.

(* ------------------------------------------------------------------ *)
(** ** [train] on a new composer *)

Lemma count_transitions_short (order : nat) (notes : list Z) (t : Table) :
  (length notes < order + 1)%nat -> count_transitions order notes t = t.
Proof.
  intros H. unfold count_transitions.
  now replace (length notes - order)%nat with 0%nat by lia.
Qed.

Lemma build_on_empty (notes : list Z) (track_type : TrackType) (w : World) :
  transitions (self w) track_type = Returned [] ->
  _build_transitions notes track_type w
  = ({| self := set_transitions track_type
                  (table_of (order (self w)) notes) (self w);
        stdout := stdout w
                  ++ (if (length notes <? order (self w) + 1)%nat
                      then [NotEnoughNotes (length notes) (order (self w))
                                           track_type]
                      else []);
        disk := disk w; rng := rng w |},
     Returned tt).
Proof.
  intros Ht. unfold _build_transitions, bind, gets, lift_outcome, table_of.
  rewrite Ht. destruct (Nat.ltb_spec (length notes) (order (self w) + 1)) as [Hs|Hl].
  - rewrite count_transitions_short by exact Hs. cbn [normalize fst].
    unfold print, modify, printed. do 2 f_equal.
    destruct w as [[o tm tb nd dw] out d r]. simpl in *.
    destruct track_type; simpl in Ht; inversion Ht; reflexivity.
  - destruct (normalize_entries (order (self w))
                (count_transitions (order (self w)) notes []))
      as [E _]; [apply count_transitions_entry_ok; constructor|].
    rewrite E. cbn [fst]. unfold set_self, modify. cbn.
    now rewrite app_nil_r.
Qed.

(** [train] on a new composer, in one equation. *)
Lemma train_result (order0 : nat) (midi_files : list string) (w : World) :
  self w = init order0 ->
  train midi_files w
  = ({| self := trained order0 (corpus_notes (disk w) melody midi_files)
                               (corpus_notes (disk w) bass midi_files);
        stdout := stdout w
                  ++ map ErrorProcessing (unreadable (disk w) midi_files)
                  ++ train_summary order0
                       (corpus_notes (disk w) melody midi_files)
                       (corpus_notes (disk w) bass midi_files);
        disk := disk w; rng := rng w |},
     Returned tt).
Proof.
  intros Hnew. unfold train. unfold bind at 1. rewrite train_files_result.
  cbn [fst snd app]. rewrite Hnew, (app_assoc (stdout w)).
  generalize (corpus_notes (disk w) melody midi_files) as mel.
  generalize (corpus_notes (disk w) bass midi_files) as bas.
  generalize (stdout w ++ map ErrorProcessing (unreadable (disk w) midi_files))
    as out.
  intros out bas mel.
  unfold trained, train_summary, voice_summary.
  destruct mel as [|m ms]; destruct bas as [|b bs];
    cbn [is_empty negb when]; unfold bind, print, modify, ret;
    cbn [fst snd self stdout disk rng];
    repeat (rewrite build_on_empty by reflexivity;
            cbn [self stdout disk rng order init set_transitions]);
    rewrite <- ?app_assoc; reflexivity.
Qed.

(** X5. On a new composer [train] always returns.  It leaves the disk and
    the random generator as they were; each table is the one built from the
    concatenated notes of that voice in the readable files; and it prints
    the "Error processing" lines followed by the summary lines that the
    two note lists determine. *)
Theorem train_new_composer (order0 : nat) (midi_files : list string) (w : World) :
  self w = init order0 ->
  train midi_files w
  = ({| self := trained order0 (corpus_notes (disk w) melody midi_files)
                               (corpus_notes (disk w) bass midi_files);
        stdout := stdout w
                  ++ map ErrorProcessing (unreadable (disk w) midi_files)
                  ++ train_summary order0
                       (corpus_notes (disk w) melody midi_files)
                       (corpus_notes (disk w) bass midi_files);
        disk := disk w; rng := rng w |},
     Returned tt)
  /\ transitions_melody (self (fst (train midi_files w)))
     = table_of order0 (corpus_notes (disk w) melody midi_files)
  /\ transitions_bass (self (fst (train midi_files w)))
     = table_of order0 (corpus_notes (disk w) bass midi_files)
  /\ same_settings (self w) (self (fst (train midi_files w))).
Proof.
  intros Hnew. rewrite (train_result order0 midi_files w Hnew). cbn [fst self].
  rewrite Hnew. repeat split.
Qed.

(** The example corpus: the unreadable file is reported, both voices are
    trained. *)
Lemma train_new_composer_witness :
  stdout trained_world
    = [ErrorProcessing "missing.mid"; TrainingMelody 30; TrainingBass 15]
  /\ self trained_world
     = trained 2 (sounding_pitches melody_example) (sounding_pitches bass_example).
Proof.
  unfold trained_world.
  destruct (train_new_composer 2 ["bass.mid"; "melody.mid"; "missing.mid"]%string
              example_world eq_refl) as (E & _).
  rewrite E. split; reflexivity.
Defined.

(* ------------------------------------------------------------------ *)
(** ** Qualifying tracks always carry enough notes *)

Lemma flat_map_long {A} (n : nat) (f : A -> list Z) (xs : list A) :
  (forall x, f x = [] \/ (n < length (f x))%nat) ->
  flat_map f xs = [] \/ (n < length (flat_map f xs))%nat.
Proof.
  intros Hf. induction xs as [|x xs IH]; simpl; [now left|].
  destruct (Hf x) as [-> | Hx]; [exact IH|].
  right. rewrite length_app. lia.
Qed.

Lemma qualifying_long (v : TrackType) (track : Track) :
  v <> other ->
  qualifying v track = [] \/ (10 < length (qualifying v track))%nat.
Proof.
  intros Hv. unfold qualifying.
  destruct (classify_cases track) as (Hb & Hm & _).
  destruct (_classify_track track); destruct v; simpl; auto; try congruence.
  - right. destruct Hm as [Hm _]; [reflexivity | lia].
  - right. destruct Hb as [Hb _]; [reflexivity | lia].
Qed.

Lemma corpus_notes_long (d : string -> option MidiFile) (v : TrackType)
    (midi_files : list string) :
  v <> other ->
  corpus_notes d v midi_files = []
  \/ (10 < length (corpus_notes d v midi_files))%nat.
Proof.
  intros Hv. unfold corpus_notes. apply flat_map_long. intros p.
  destruct (d p) as [f|]; [|now left].
  apply flat_map_long. intros t. now apply qualifying_long.
Qed.

Lemma incr_not_nil (t : Table) (state : State) (n : Z) : incr t state n <> [].
Proof. unfold incr, table_set. apply set_not_nil. Qed.

Lemma table_of_empty_iff (order : nat) (notes : list Z) :
  table_of order notes = [] <-> (length notes <= order)%nat.
Proof.
  unfold table_of.
  destruct (normalize_entries order (count_transitions order notes []))
    as [E _]; [apply count_transitions_entry_ok; constructor|].
  rewrite E. cbn [fst]. split.
  - intros H. apply map_eq_nil in H.
    destruct (Nat.le_gt_cases (length notes) order) as [Hle|Hgt]; [exact Hle|].
    exfalso. revert H. unfold count_transitions.
    replace (length notes - order)%nat with (S (length notes - order - 1)) by lia.
    rewrite seq_S, fold_left_app. cbn [fold_left]. apply incr_not_nil.
  - intros H. rewrite count_transitions_short by lia. reflexivity.
Qed.

(** X6. With an order of at most 10, the "Not enough notes" branch of
    [_build_transitions] is never taken from [train] on a new composer: a
    qualifying bass track has more than 10 notes and a qualifying melody
    track more than 20.  So [train] prints no such line, and a voice's
    table is empty afterwards exactly when no track of that voice was
    found. *)
Theorem train_always_enough (order0 : nat) (midi_files : list string) (w : World) :
  self w = init order0 ->
  (order0 <= 10)%nat ->
  filter is_not_enough (stdout (fst (train midi_files w)))
    = filter is_not_enough (stdout w)
  /\ (transitions_melody (self (fst (train midi_files w))) = []
      <-> corpus_notes (disk w) melody midi_files = [])
  /\ (transitions_bass (self (fst (train midi_files w))) = []
      <-> corpus_notes (disk w) bass midi_files = []).
Proof.
  intros Hnew Hord. rewrite (train_result order0 midi_files w Hnew).
  cbn [fst self stdout]. unfold trained. cbn [set_transitions transitions_melody
    transitions_bass init order note_durations duration_weights].
  pose proof (corpus_notes_long (disk w) melody midi_files ltac:(discriminate))
    as Hm.
  pose proof (corpus_notes_long (disk w) bass midi_files ltac:(discriminate))
    as Hb.
  revert Hm Hb.
  generalize (corpus_notes (disk w) melody midi_files) as mel.
  generalize (corpus_notes (disk w) bass midi_files) as bas.
  intros bas mel Hm Hb. split; [|split].
  - rewrite !filter_app.
    assert (He : filter is_not_enough
                   (map ErrorProcessing (unreadable (disk w) midi_files)) = []).
    { induction (unreadable (disk w) midi_files); simpl; auto. }
    rewrite He. unfold train_summary, voice_summary. rewrite !filter_app.
    assert (Hml : filter is_not_enough
              (if is_empty mel then [SkippingMelodyTraining]
               else TrainingMelody (length mel)
                    :: (if (length mel <? order0 + 1)%nat
                        then [NotEnoughNotes (length mel) order0 melody]
                        else [])) = []).
    { destruct Hm as [-> | Hm]; [reflexivity|].
      replace (length mel <? order0 + 1)%nat with false
        by (symmetry; apply Nat.ltb_ge; lia).
      now destruct mel. }
    assert (Hbl : filter is_not_enough
              (if is_empty bas then [SkippingBassTraining]
               else TrainingBass (length bas)
                    :: (if (length bas <? order0 + 1)%nat
                        then [NotEnoughNotes (length bas) order0 bass]
                        else [])) = []).
    { destruct Hb as [-> | Hb]; [reflexivity|].
      replace (length bas <? order0 + 1)%nat with false
        by (symmetry; apply Nat.ltb_ge; lia).
      now destruct bas. }
    rewrite Hml, Hbl. destruct (is_empty mel), (is_empty bas); simpl;
      now rewrite ?app_nil_r.
  - rewrite table_of_empty_iff. split.
    + intros H. destruct Hm as [-> | Hm]; [reflexivity | lia].
    + intros ->. simpl. lia.
  - rewrite table_of_empty_iff. split.
    + intros H. destruct Hb as [-> | Hb]; [reflexivity | lia].
    + intros ->. simpl. lia.
Qed.

(** The example corpus with order 2. *)
Lemma train_always_enough_witness :
  filter is_not_enough (stdout trained_world) = []
  /\ transitions_bass (self trained_world) <> [].
Proof.
  destruct (train_always_enough 2 ["bass.mid"; "melody.mid"; "missing.mid"]%string
              example_world eq_refl ltac:(lia)) as (H1 & _ & H3).
  split; [exact H1|].
  intros H. apply H3 in H. discriminate H.
Defined.

(* ------------------------------------------------------------------ *)
(** ** The shape of a generated track *)

Lemma last_app_default (g l : list Z) (d : Z) :
  g <> [] -> last (g ++ l) d = last l (last g d).
Proof.
  intros Hg. induction l as [|x l IH] using rev_ind.
  - now rewrite app_nil_r.
  - now rewrite app_assoc, !last_last.
Qed.

Lemma last_In (l : list Z) (d : Z) : l <> [] -> In (last l d) l.
Proof.
  intros H. destruct l as [|x l] using rev_ind; [congruence|].
  rewrite last_last. apply in_or_app. right. now left.
Qed.

Lemma render_snoc (ch prev : Z) (notes : list Played) (p v d : Z) :
  render ch prev (notes ++ [(p, v, d)])
  = render ch prev notes
    ++ [note_on p v d ch;
        note_off (last (map played_pitch notes) prev) v 0 ch].
Proof.
  revert prev; induction notes as [|[[p0 v0] d0] notes IH]; intros prev.
  - reflexivity.
  - cbn [render app map]. rewrite IH.
    change (played_pitch (p0, v0, d0) :: map played_pitch notes)
      with ([p0] ++ map played_pitch notes).
    rewrite (last_app_default [p0]) by discriminate. reflexivity.
Qed.

Lemma count_note_on_render (ch prev : Z) (notes : list Played) :
  count_note_on (render ch prev notes) = length notes.
Proof.
  revert prev; induction notes as [|[[p v] d] notes IH]; intros prev;
    [reflexivity|].
  unfold count_note_on in *. cbn [render filter is_note_on length].
  now rewrite IH.
Qed.

(** The emitting iteration, with the bounds of what it draws. *)
Lemma generate_step_note (c : MarkovComposer) (track_type : TrackType)
    (t : Table) (inits : list State) (lo hi : Z) (i : nat) (l : Locals)
    (s : GenState) (d : Dist) :
  standard_durations c -> lo <= hi ->
  table_get (current_state l) t = Some d ->
  positive_dist d = true ->
  generated_notes l <> [] ->
  exists next dur vel s',
    In next (PyDict.keys d) /\ In dur (note_durations c) /\ lo <= vel <= hi
    /\ generate_step c track_type t inits lo hi i l s
       = (s', Returned {| current_state :=
                            last_slice (order c) (generated_notes l ++ [next]);
                          generated_notes := generated_notes l ++ [next];
                          channel := Some (voice_channel track_type) |})
    /\ track s' = track s
                  ++ [note_on next vel dur (voice_channel track_type);
                      note_off (last (generated_notes l) 0) vel 0
                               (voice_channel track_type)].
Proof.
  intros Hstd Hlohi Hget Hpos Hgen.
  apply positive_dist_spec in Hpos as [Hne Hpos].
  destruct (random_choices_returns (PyDict.keys d) (PyDict.values d) s)
    as (next & Hnext & E1).
  { unfold PyDict.keys, PyDict.values. now rewrite !length_map. }
  { now apply positive_weights_total. }
  { destruct d; [congruence | discriminate]. }
  destruct (standard_durations_choice c (advance s) Hstd) as (dur & Hdur & E2).
  destruct (random_randint_returns lo hi (advance (advance s)) Hlohi)
    as (vel & Hvel & E3).
  exists next, dur, vel. eexists.
  split; [exact Hnext|]. split; [exact Hdur|]. split; [exact Hvel|].
  unfold generate_step. rewrite Hget. destruct d as [|kv d]; [congruence|].
  unfold bind. rewrite E1, E2, E3. unfold append, modify.
  rewrite last_item_returns by exact Hgen.
  split; [reflexivity|]. simpl. now rewrite <- app_assoc.
Qed.

Lemma In_successors (t : Table) (state : State) (d : Dist) (p : Z) :
  In (state, d) t -> In p (PyDict.keys d) -> In p (successors t).
Proof.
  intros Hin Hp. unfold successors. apply in_flat_map.
  exists (state, d). now split.
Qed.

(** The loop on a well-formed table: the appended events are the rendering
    of the notes it played; every played pitch is a successor in the table,
    every velocity lies in the given range and every duration is one of the
    composer's; a re-pick is always followed by a note. *)
Lemma generate_loop_trace (c : MarkovComposer) (track_type : TrackType)
    (t : Table) (n : nat) (lo hi : Z) (l : Locals) (s : GenState) :
  standard_durations c -> lo <= hi ->
  well_formed t = true -> t <> [] ->
  generated_notes l <> [] ->
  In (current_state l) (PyDict.keys t) ->
  exists l' s' played,
    generate_loop c track_type t (Z.of_nat n) lo hi l s = (s', Returned l')
    /\ track s' = track s ++ render (voice_channel track_type)
                                    (last (generated_notes l) 0) played
    /\ generated_notes l' = generated_notes l ++ map played_pitch played
    /\ Forall (fun x => In (played_pitch x) (successors t)
                        /\ lo <= snd (fst x) <= hi
                        /\ In (snd x) (note_durations c)) played
    /\ (length played <= n <= 2 * length played)%nat
    /\ ((1 <= n)%nat -> channel l' = Some (voice_channel track_type)).
Proof.
  intros Hstd Hlohi Hwf Hne Hgen Hcur.
  set (ch := voice_channel track_type).
  pose (I := fun (k : nat) (l' : Locals) (s' : GenState) =>
    exists played,
      track s' = track s ++ render ch (last (generated_notes l) 0) played
      /\ generated_notes l' = generated_notes l ++ map played_pitch played
      /\ Forall (fun x => In (played_pitch x) (successors t)
                          /\ lo <= snd (fst x) <= hi
                          /\ In (snd x) (note_durations c)) played
      /\ (length played <= k <= 2 * length played)%nat
      /\ (In (current_state l') (PyDict.keys t)
          \/ (k + 1 <= 2 * length played)%nat)
      /\ (channel l' = Some ch \/ k = 0%nat)).
  assert (Hstep : forall k (x : nat) l1 s1, I k l1 s1 ->
    exists l2 s2,
      generate_step c track_type t (PyDict.keys t) lo hi x l1 s1
        = (s2, Returned l2) /\ I (S k) l2 s2).
  { intros k x l1 s1 (played & Htr & Hg & Hall & Hcnt & Hnext & Hch).
    assert (Hg1 : generated_notes l1 <> []).
    { rewrite Hg. destruct (generated_notes l); [congruence | discriminate]. }
    destruct (table_get (current_state l1) t) as [d|] eqn:Eget.
    - pose proof (get_In State_eqb State_eqb_eq _ _ _ Eget) as Hin.
      destruct (well_formed_In _ _ _ Hwf Hin) as [_ Hpos].
      destruct (generate_step_note c track_type t (PyDict.keys t) lo hi x
                  l1 s1 d Hstd Hlohi Eget Hpos Hg1)
        as (next & dur & vel & s2 & Hn & Hd & Hv & E & Htr2).
      eexists; exists s2. split; [exact E|].
      exists (played ++ [(next, vel, dur)]).
      rewrite render_snoc, map_app, length_app. cbn [map length].
      repeat split.
      + rewrite Htr2, Htr, <- app_assoc. fold ch.
        rewrite Hg, (last_app_default (generated_notes l)) by exact Hgen.
        reflexivity.
      + cbn [generated_notes]. rewrite Hg, <- app_assoc. reflexivity.
      + apply Forall_app. split; [exact Hall|]. constructor; [|constructor].
        cbn. repeat split; try lia; try assumption.
        eapply In_successors; eauto.
      + lia.
      + lia.
      + right. lia.
      + left. reflexivity.
    - destruct Hnext as [Hin | Hk].
      + apply (In_get State_eqb State_eqb_eq) in Hin as (v & Hv & _).
        unfold table_get in Eget. congruence.
      + destruct (generate_step_retries c track_type t (PyDict.keys t) lo hi x
                    l1 s1 (keys_not_nil _ Hne) (or_introl Eget))
          as (st & Hst & E).
        eexists; eexists. split; [exact E|].
        exists played. cbn [track advance generated_notes current_state channel].
        repeat split; auto; try lia.
        destruct Hch as [Hch | ->]; [now left | lia]. }
  assert (H0 : I 0%nat l s).
  { exists []. cbn [render map length]. rewrite !app_nil_r.
    repeat split; auto. }
  destruct (for_each_invariant I _ Hstep (seq 0 n) 0%nat l s H0)
    as (l' & s' & E & played & Htr & Hg & Hall & Hcnt & _ & Hch).
  rewrite length_seq in Hcnt, Hch. cbn [Nat.add] in Hcnt, Hch.
  exists l', s', played. unfold generate_loop. rewrite Nat2Z.id.
  repeat split; auto; try lia.
  intros Hn. destruct Hch as [Hch | Hk]; [exact Hch | lia].
Qed.

Lemma generate_track_trace (c : MarkovComposer) (track_type : TrackType)
    (t : Table) (length lo hi : Z) (s : GenState) :
  standard_durations c -> lo <= hi ->
  transitions c track_type = Returned t ->
  well_formed t = true -> t <> [] ->
  1 <= length ->
  exists s' seed played,
    _generate_track c track_type length lo hi s = (s', Returned tt)
    /\ In seed (PyDict.keys t)
    /\ seed <> []
    /\ track s'
       = track s
         ++ render (voice_channel track_type) (last seed 0) played
         ++ [note_off (last (map played_pitch played) (last seed 0)) 0 0
                      (voice_channel track_type)]
    /\ Forall (fun x => In (played_pitch x) (successors t)
                        /\ lo <= snd (fst x) <= hi
                        /\ In (snd x) (note_durations c)) played
    /\ (List.length played <= Z.to_nat length <= 2 * List.length played)%nat.
Proof.
  intros Hstd Hlohi Ht Hwf Hne Hlen.
  destruct (random_choice_returns (PyDict.keys t) s (keys_not_nil _ Hne))
    as (seed & Hseed & E0).
  assert (Hseed_ne : seed <> []).
  { destruct (In_get State_eqb State_eqb_eq _ _ Hseed) as (v & _ & Hin).
    now destruct (well_formed_In _ _ _ Hwf Hin). }
  destruct (generate_loop_trace c track_type t (Z.to_nat length) lo hi
              {| current_state := seed; generated_notes := seed; channel := None |}
              (advance s) Hstd Hlohi Hwf Hne Hseed_ne Hseed)
    as (l' & s1 & played & E1 & Htr & Hg & Hall & Hcnt & Hch).
  rewrite Z2Nat.id in E1 by lia. cbn [generated_notes track advance] in Hg, Htr.
  eexists; exists seed, played.
  unfold _generate_track, bind, lift_outcome. rewrite Ht.
  destruct (PyDict.keys t) as [|k ks] eqn:Ek; [now destruct Hseed|].
  cbn [is_empty]. rewrite E0, E1.
  rewrite last_item_returns
    by (rewrite Hg; destruct seed; [congruence | discriminate]).
  rewrite Hch by lia. unfold read_local, ret, append, modify.
  repeat split; auto; try lia.
  cbn [track]. rewrite Htr, Hg, <- app_assoc.
  now rewrite (last_app_default seed) by exact Hseed_ne.
Qed.

(* ------------------------------------------------------------------ *)
(** ** Every message built is one that mido accepts *)

Lemma valid_note (n v t ch : Z) :
  valid_pitch n = true -> 0 <= v <= 127 -> 0 <= t -> 0 <= ch <= 15 ->
  valid_message (note_on n v t ch) = true
  /\ valid_message (note_off n v t ch) = true.
Proof.
  intros Hn Hv Ht Hch. unfold valid_message, data_byte. rewrite Hn.
  replace (0 <=? v) with true by (symmetry; apply Z.leb_le; lia).
  replace (v <=? 127) with true by (symmetry; apply Z.leb_le; lia).
  replace (0 <=? t) with true by (symmetry; apply Z.leb_le; lia).
  replace (0 <=? ch) with true by (symmetry; apply Z.leb_le; lia).
  replace (ch <=? 15) with true by (symmetry; apply Z.leb_le; lia).
  split; reflexivity.
Qed.

Lemma voice_channel_range (track_type : TrackType) :
  0 <= voice_channel track_type <= 15.
Proof. unfold voice_channel. destruct (TrackType_eqb _ _); lia. Qed.

Lemma standard_durations_nonneg (c : MarkovComposer) (dur : Z) :
  standard_durations c -> In dur (note_durations c) -> 0 <= dur.
Proof.
  intros [H _] Hin. rewrite H in Hin. cbn in Hin.
  repeat (destruct Hin as [<- | Hin]; [lia|]). contradiction.
Qed.

Lemma valid_table_In (t : Table) (state : State) (d : Dist) :
  valid_table t = true -> In (state, d) t ->
  forallb valid_pitch state = true
  /\ forallb valid_pitch (PyDict.keys d) = true.
Proof.
  unfold valid_table. rewrite forallb_forall. intros H Hin.
  apply H in Hin. cbn [fst snd] in Hin. now apply andb_true_iff in Hin.
Qed.

Lemma valid_successor (t : Table) (p : Z) :
  valid_table t = true -> In p (successors t) -> valid_pitch p = true.
Proof.
  intros Hv Hp. unfold successors in Hp.
  apply in_flat_map in Hp as ([state d] & Hin & Hk). cbn [snd] in Hk.
  destruct (valid_table_In t state d Hv Hin) as [_ Hd].
  rewrite forallb_forall in Hd. now apply Hd.
Qed.

Lemma render_valid (ch prev : Z) (played : list Played) :
  0 <= ch <= 15 -> valid_pitch prev = true ->
  Forall (fun x => valid_pitch (played_pitch x) = true
                   /\ 0 <= snd (fst x) <= 127 /\ 0 <= snd x) played ->
  Forall (fun e => valid_message e = true) (render ch prev played)
  /\ valid_pitch (last (map played_pitch played) prev) = true.
Proof.
  intros Hch Hprev Hall. revert prev Hprev.
  induction Hall as [|[[p v] d] played (Hp & Hv & Hd) Hall IH];
    intros prev Hprev.
  - split; [constructor | exact Hprev].
  - cbn [played_pitch fst snd] in Hp, Hv, Hd.
    destruct (IH p Hp) as [H1 H2]. cbn [render map]. split.
    + constructor; [now apply valid_note|].
      constructor; [now apply valid_note | exact H1].
    + change (played_pitch (p, v, d) :: map played_pitch played)
        with ([p] ++ map played_pitch played).
      now rewrite (last_app_default [p]) by discriminate.
Qed.

(** The run of [_generate_track] on a well-formed table of MIDI note
    numbers with velocity bounds within 0..127: its trace, and every
    message it builds is one that mido accepts. *)
Lemma generate_track_valid (c : MarkovComposer) (track_type : TrackType)
    (t : Table) (length lo hi : Z) (s : GenState) :
  standard_durations c -> lo <= hi -> 0 <= lo -> hi <= 127 ->
  transitions c track_type = Returned t ->
  well_formed t = true -> valid_table t = true -> t <> [] ->
  1 <= length ->
  exists s' seed played,
    _generate_track c track_type length lo hi s = (s', Returned tt)
    /\ In seed (PyDict.keys t)
    /\ track s'
       = track s
         ++ render (voice_channel track_type) (last seed 0) played
         ++ [note_off (last (map played_pitch played) (last seed 0)) 0 0
                      (voice_channel track_type)]
    /\ Forall (fun x => In (played_pitch x) (successors t)
                        /\ lo <= snd (fst x) <= hi
                        /\ In (snd x) (note_durations c)) played
    /\ (List.length played <= Z.to_nat length <= 2 * List.length played)%nat
    /\ Forall (fun e => valid_message e = true)
         (render (voice_channel track_type) (last seed 0) played
          ++ [note_off (last (map played_pitch played) (last seed 0)) 0 0
                       (voice_channel track_type)]).
Proof.
  intros Hstd Hlohi Hlo Hhi Ht Hwf Hval Hne Hlen.
  destruct (generate_track_trace c track_type t length lo hi s
              Hstd Hlohi Ht Hwf Hne Hlen)
    as (s' & seed & played & E & Hseed & Hseed_ne & Htr & Hall & Hcnt).
  exists s', seed, played.
  split; [exact E|]. split; [exact Hseed|]. split; [exact Htr|].
  split; [exact Hall|]. split; [exact Hcnt|].
  assert (Hlast : valid_pitch (last seed 0) = true).
  { destruct (In_get State_eqb State_eqb_eq _ _ Hseed) as (d & _ & Hin).
    destruct (valid_table_In t seed d Hval Hin) as [Hs _].
    rewrite forallb_forall in Hs. apply Hs. now apply last_In. }
  destruct (render_valid (voice_channel track_type) (last seed 0) played
              (voice_channel_range track_type) Hlast) as [H1 H2].
  { eapply Forall_impl; [|exact Hall]. intros x (Hp & Hv & Hd).
    split; [now apply (valid_successor t)|].
    split; [lia | now apply (standard_durations_nonneg c)]. }
  apply Forall_app. split; [exact H1|].
  constructor; [|constructor].
  apply valid_note; [exact H2 | lia | lia | apply voice_channel_range].
Qed.

(** X7. For [length >= 1], velocity bounds with
    [0 <= min_velocity <= max_velocity <= 127] and a non-empty well-formed
    table whose pitches are MIDI note numbers (0..127), [_generate_track]
    returns and appends: for each generated note, a note-on with one of the
    composer's durations as delta time and a velocity in
    [min_velocity, max_velocity], immediately followed at delta 0 by a
    note-off of the previously generated pitch carrying the new note's
    velocity (the first note-off is for the last pitch of the seed state,
    which was never sounded); then one closing note-off of velocity 0 for
    the last generated pitch.  Every generated pitch is a successor
    recorded in the table, and every message built is within the ranges
    that [mido.Message] checks, so that none of its constructions raises. *)
Theorem generate_track_timing (c : MarkovComposer) (track_type : TrackType)
    (t : Table) (length lo hi : Z) (s : GenState) :
  standard_durations c -> lo <= hi -> 0 <= lo -> hi <= 127 ->
  transitions c track_type = Returned t ->
  well_formed t = true -> valid_table t = true -> t <> [] ->
  1 <= length ->
  exists s' seed played,
    _generate_track c track_type length lo hi s = (s', Returned tt)
    /\ In seed (PyDict.keys t)
    /\ track s'
       = track s
         ++ render (voice_channel track_type) (last seed 0) played
         ++ [note_off (last (map played_pitch played) (last seed 0)) 0 0
                      (voice_channel track_type)]
    /\ Forall (fun x => In (played_pitch x) (successors t)
                        /\ lo <= snd (fst x) <= hi
                        /\ In (snd x) (note_durations c)) played
    /\ Forall (fun e => valid_message e = true)
         (render (voice_channel track_type) (last seed 0) played
          ++ [note_off (last (map played_pitch played) (last seed 0)) 0 0
                       (voice_channel track_type)]).
Proof.
  intros Hstd Hlohi Hlo Hhi Ht Hwf Hval Hne Hlen.
  destruct (generate_track_valid c track_type t length lo hi s
              Hstd Hlohi Hlo Hhi Ht Hwf Hval Hne Hlen)
    as (s' & seed & played & E & Hseed & Htr & Hall & _ & Hok).
  exists s', seed, played. auto.
Qed.

(** The table {(60,62): {64: 1}, (62,64): {65: 1}}, three notes asked. *)
Lemma generate_track_timing_witness :
  exists s' seed played,
    _generate_track (composer_after [60; 62; 64; 65] 2) melody 3 30 60 empty_track
      = (s', Returned tt)
    /\ In seed [[60; 62]; [62; 64]]
    /\ track s'
       = render 0 (last seed 0) played
         ++ [note_off (last (map played_pitch played) (last seed 0)) 0 0 0]
    /\ Forall (fun e => valid_message e = true) (track s').
Proof.
  destruct (generate_track_timing (composer_after [60; 62; 64; 65] 2) melody
              [([60; 62], [(64, 1%Q)]); ([62; 64], [(65, 1%Q)])]
              3 30 60 empty_track)
    as (s' & seed & played & E & Hseed & Htr & _ & Hok).
  - split; reflexivity.
  - lia.
  - lia.
  - lia.
  - reflexivity.
  - reflexivity.
  - reflexivity.
  - discriminate.
  - lia.
  - exists s', seed, played.
    split; [exact E|]. split; [exact Hseed|]. split; [exact Htr|].
    rewrite Htr. exact Hok.
Defined.

(** X8. For [length >= 1], velocity bounds with
    [0 <= min_velocity <= max_velocity <= 127] and a non-empty well-formed
    table whose pitches are MIDI note numbers, [_generate_track] returns
    and emits at least half of the requested notes: an iteration that finds
    no successor re-picks a state of the table, so the next iteration
    emits.  The number of note-ons lies between [length / 2] (rounded up)
    and [length], and every message built is within the ranges that
    [mido.Message] checks. *)
Theorem generate_track_note_count (c : MarkovComposer) (track_type : TrackType)
    (t : Table) (length lo hi : Z) (s : GenState) :
  standard_durations c -> lo <= hi -> 0 <= lo -> hi <= 127 ->
  transitions c track_type = Returned t ->
  well_formed t = true -> valid_table t = true -> t <> [] ->
  1 <= length ->
  exists s' evs,
    _generate_track c track_type length lo hi s = (s', Returned tt)
    /\ track s' = track s ++ evs
    /\ length <= 2 * Z.of_nat (count_note_on evs)
    /\ Z.of_nat (count_note_on evs) <= length
    /\ Forall (fun e => valid_message e = true) evs.
Proof.
  intros Hstd Hlohi Hlo Hhi Ht Hwf Hval Hne Hlen.
  destruct (generate_track_valid c track_type t length lo hi s
              Hstd Hlohi Hlo Hhi Ht Hwf Hval Hne Hlen)
    as (s' & seed & played & E & _ & Htr & _ & Hcnt & Hok).
  eexists; eexists. split; [exact E|]. split; [exact Htr|].
  rewrite count_note_on_app, count_note_on_render.
  unfold count_note_on at 1 2. cbn [filter is_note_on List.length].
  split; [lia|]. split; [lia | exact Hok].
Qed.

(** The same table and request: between two and three note-ons. *)
Lemma generate_track_note_count_witness :
  exists s' evs,
    _generate_track (composer_after [60; 62; 64; 65] 2) melody 3 30 60 empty_track
      = (s', Returned tt)
    /\ track s' = evs
    /\ 3 <= 2 * Z.of_nat (count_note_on evs)
    /\ Z.of_nat (count_note_on evs) <= 3.
Proof.
  destruct (generate_track_note_count (composer_after [60; 62; 64; 65] 2) melody
              [([60; 62], [(64, 1%Q)]); ([62; 64], [(65, 1%Q)])]
              3 30 60 empty_track)
    as (s' & evs & E & Htr & H1 & H2 & _).
  - split; reflexivity.
  - lia.
  - lia.
  - lia.
  - reflexivity.
  - reflexivity.
  - reflexivity.
  - discriminate.
  - lia.
  - exists s', evs. auto.
Defined.

(* ------------------------------------------------------------------ *)
(** ** No pitch is invented *)

Lemma incr_pitches_within (notes : list Z) (t : Table) (state : State) (n : Z) :
  pitches_within notes t -> incl state notes -> In n notes ->
  pitches_within notes (incr t state n).
Proof.
  intros Ht Hs Hn. unfold pitches_within, incr, table_set, dist_set.
  apply (set_Forall State_eqb State_eqb_eq); [exact Ht|].
  split; [exact Hs|]. cbn [snd].
  apply (set_Forall Z.eqb Z.eqb_eq); [|exact Hn].
  destruct (table_get state t) as [d|] eqn:E; [|constructor].
  apply (get_In State_eqb State_eqb_eq) in E.
  unfold pitches_within in Ht. rewrite Forall_forall in Ht.
  now destruct (Ht _ E).
Qed.

Lemma window_incl (order i : nat) (notes : list Z) :
  incl (firstn order (skipn i notes)) notes.
Proof.
  intros x Hx. rewrite <- (firstn_skipn i notes). apply in_or_app. right.
  rewrite <- (firstn_skipn order (skipn i notes)). apply in_or_app. now left.
Qed.

Lemma count_transitions_within (order : nat) (notes : list Z) (t : Table) :
  pitches_within notes t ->
  pitches_within notes (count_transitions order notes t).
Proof.
  intros Ht. unfold count_transitions.
  apply fold_left_invariant; [|exact Ht].
  intros t' i Hi Ht'. apply in_seq in Hi.
  apply incr_pitches_within; [exact Ht' | apply window_incl |].
  apply nth_In. lia.
Qed.

(** X9. Every pitch in the table that [_build_transitions] builds on a new
    composer, in a state or among the successors of a state, occurs in the
    note sequence it was built from. *)
Theorem table_pitches_from_notes (order0 : nat) (notes : list Z)
    (state : State) (d : Dist) :
  table_get state (transitions_melody (composer_after notes order0)) = Some d ->
  incl state notes /\ incl (PyDict.keys d) notes.
Proof.
  rewrite composer_after_table. intros Hget.
  apply (get_In State_eqb State_eqb_eq) in Hget.
  assert (Hw : pitches_within notes (table_of order0 notes)).
  { unfold table_of.
    destruct (normalize_entries order0 (count_transitions order0 notes []))
      as [E _]; [apply count_transitions_entry_ok; constructor|].
    rewrite E. cbn [fst]. unfold pitches_within. apply Forall_map.
    pose proof (count_transitions_within order0 notes [] ltac:(constructor)) as H.
    eapply Forall_impl; [|exact H]. intros [s0 d0] [Hs Hd]. cbn [fst snd] in *.
    split; [exact Hs|]. unfold normalized. apply Forall_map.
    eapply Forall_impl; [|exact Hd]. now intros [k c]. }
  unfold pitches_within, table_of in Hw. rewrite Forall_forall in Hw.
  destruct (Hw _ Hget) as [Hs Hd]. split; [exact Hs|].
  intros p Hp. unfold PyDict.keys in Hp. apply in_map_iff in Hp as (kv & <- & Hkv).
  rewrite Forall_forall in Hd. now apply Hd.
Qed.

(** On the notes 60, 62, 64, 65 with order 2. *)
Lemma table_pitches_from_notes_witness :
  incl [62; 64] [60; 62; 64; 65] /\ incl [65] [60; 62; 64; 65].
Proof.
  apply (table_pitches_from_notes 2 [60; 62; 64; 65] [62; 64] [(65, 1%Q)]).
  reflexivity.
Defined.

Lemma table_of_entries (order : nat) (notes : list Z) :
  Forall (entry_normalized order) (table_of order notes)
  /\ pitches_within notes (table_of order notes).
Proof.
  unfold table_of.
  destruct (normalize_entries order (count_transitions order notes []))
    as [E Hn]; [apply count_transitions_entry_ok; constructor|].
  rewrite E. cbn [fst]. split; [exact Hn|].
  unfold pitches_within. apply Forall_map.
  pose proof (count_transitions_within order notes [] ltac:(constructor)) as H.
  eapply Forall_impl; [|exact H]. intros [s0 d0] [Hs Hd]. cbn [fst snd] in *.
  split; [exact Hs|]. unfold normalized. apply Forall_map.
  eapply Forall_impl; [|exact Hd]. now intros [k c].
Qed.

Lemma render_within (notes : list Z) (ch prev : Z) (played : list Played) :
  In prev notes ->
  Forall (fun x => In (played_pitch x) notes) played ->
  Forall (pitch_within notes) (render ch prev played)
  /\ In (last (map played_pitch played) prev) notes.
Proof.
  intros Hprev Hall. revert prev Hprev.
  induction Hall as [|[[p v] d] played Hp Hall IH]; intros prev Hprev.
  - split; [constructor | exact Hprev].
  - destruct (IH p Hp) as [H1 H2]. cbn [render map]. split.
    + constructor; [exact Hp|]. constructor; [exact Hprev | exact H1].
    + change (played_pitch (p, v, d) :: map played_pitch played)
        with ([p] ++ map played_pitch played).
      now rewrite (last_app_default [p]) by discriminate.
Qed.

Lemma pitches_within_valid (notes : list Z) (t : Table) :
  forallb valid_pitch notes = true -> pitches_within notes t ->
  valid_table t = true.
Proof.
  intros Hn Hw. rewrite forallb_forall in Hn.
  unfold valid_table. apply forallb_forall. intros [state d] Hin.
  unfold pitches_within in Hw. rewrite Forall_forall in Hw.
  destruct (Hw _ Hin) as [Hs Hd]. cbn [fst snd] in *.
  apply andb_true_iff. split; apply forallb_forall.
  - intros x Hx. apply Hn, Hs, Hx.
  - intros x Hx. unfold PyDict.keys in Hx.
    apply in_map_iff in Hx as (kv & <- & Hkv).
    rewrite Forall_forall in Hd. apply Hn. now apply Hd.
Qed.

(** X10. Generation never invents a pitch.  After [train] on a new composer
    of order at least 1 whose training notes for a voice are MIDI note
    numbers (0..127, as mido reads them), with [length >= 1], velocity
    bounds with [0 <= min_velocity <= max_velocity <= 127] and a non-empty
    table, [_generate_track] returns, and every event it appends for that
    voice is a note-on or note-off whose pitch occurs among the notes of
    that voice in the training files; every message built is within the
    ranges that [mido.Message] checks. *)
Theorem generated_pitches_from_corpus (order0 : nat) (midi_files : list string)
    (w : World) (v : TrackType) (t : Table) (length lo hi : Z) (s : GenState) :
  self w = init order0 -> (1 <= order0)%nat ->
  forallb valid_pitch (corpus_notes (disk w) v midi_files) = true ->
  transitions (self (fst (train midi_files w))) v = Returned t ->
  t <> [] -> 1 <= length -> lo <= hi -> 0 <= lo -> hi <= 127 ->
  exists s' evs,
    _generate_track (self (fst (train midi_files w))) v length lo hi s
      = (s', Returned tt)
    /\ track s' = track s ++ evs
    /\ Forall (pitch_within (corpus_notes (disk w) v midi_files)) evs
    /\ Forall (fun e => valid_message e = true) evs.
Proof.
  intros Hnew Hord Hvalid Ht Hne Hlen Hlohi Hlo Hhi.
  rewrite (train_result order0 midi_files w Hnew) in *.
  cbn [fst self] in *.
  set (notes := corpus_notes (disk w) v midi_files) in *.
  assert (Et : t = table_of order0 notes).
  { subst notes. destruct v; cbn in Ht; [| |discriminate];
      now injection Ht as <-. }
  destruct (table_of_entries order0 notes) as [Hnorm Hwithin].
  rewrite <- Et in Hnorm, Hwithin.
  destruct (generate_track_valid
              (trained order0 (corpus_notes (disk w) melody midi_files)
                              (corpus_notes (disk w) bass midi_files))
              v t length lo hi s)
    as (s' & seed & played & E & Hseed & Htr & Hall & _ & Hok); auto.
  { split; reflexivity. }
  { now apply (entry_normalized_well_formed order0). }
  { now apply (pitches_within_valid notes). }
  eexists; eexists. split; [exact E|]. split; [exact Htr|].
  split; [|exact Hok].
  unfold pitches_within in Hwithin. rewrite Forall_forall in Hwithin.
  assert (Hseed_ne : seed <> []).
  { destruct (In_get State_eqb State_eqb_eq _ _ Hseed) as (d & _ & Hin).
    apply (entry_normalized_well_formed order0) in Hnorm; [|exact Hord].
    now destruct (well_formed_In _ _ _ Hnorm Hin). }
  assert (Hlast : In (last seed 0) notes).
  { destruct (In_get State_eqb State_eqb_eq _ _ Hseed) as (d & _ & Hin).
    destruct (Hwithin _ Hin) as [Hs _]. apply Hs. now apply last_In. }
  assert (Hplayed : Forall (fun x => In (played_pitch x) notes) played).
  { eapply Forall_impl; [|exact Hall]. intros x [Hx _].
    unfold successors in Hx. apply in_flat_map in Hx as ([s0 d0] & Hin & Hk).
    destruct (Hwithin _ Hin) as [_ Hd]. cbn [snd] in *.
    unfold PyDict.keys in Hk. apply in_map_iff in Hk as (kv & <- & Hkv).
    rewrite Forall_forall in Hd. now apply Hd. }
  destruct (render_within notes (voice_channel v) (last seed 0) played
              Hlast Hplayed) as [H1 H2].
  apply Forall_app. split; [exact H1|]. constructor; [exact H2 | constructor].
Qed.

(** The example corpus: ten bass notes. *)
Lemma generated_pitches_from_corpus_witness :
  exists s' evs,
    _generate_track (self trained_world) bass 10 40 80 empty_track
      = (s', Returned tt)
    /\ track s' = evs
    /\ Forall (pitch_within (sounding_pitches bass_example)) evs
    /\ Forall (fun e => valid_message e = true) evs.
Proof.
  destruct (generated_pitches_from_corpus 2
              ["bass.mid"; "melody.mid"; "missing.mid"]%string example_world
              bass (transitions_bass (self trained_world)) 10 40 80 empty_track)
    as (s' & evs & E & Htr & Hall & Hok).
  - reflexivity.
  - lia.
  - vm_compute. reflexivity.
  - reflexivity.
  - vm_compute. discriminate.
  - lia.
  - lia.
  - lia.
  - lia.
  - exists s', evs. auto.
Defined.

(* ------------------------------------------------------------------ *)
(** ** [generate_music]: success and effects *)

Lemma on_track_returns (c : MarkovComposer) (v : TrackType) (t : Table)
    (hdr : Track) (length lo hi : Z) (w : World) :
  standard_durations c -> lo <= hi -> 0 <= lo -> hi <= 127 ->
  transitions c v = Returned t ->
  well_formed t = true -> valid_table t = true -> t <> [] -> 1 <= length ->
  exists r evs,
    on_track hdr (_generate_track c v length lo hi) w
    = ({| self := self w; stdout := stdout w; disk := disk w; rng := r |},
       Returned (hdr ++ evs))
    /\ Forall (fun e => note_event_on (voice_channel v) e = true) evs
    /\ Forall (fun e => valid_message e = true) evs.
Proof.
  intros Hstd Hlohi Hlo Hhi Ht Hwf Hval Hne Hlen.
  destruct (generate_track_appends c v length lo hi
              {| track := hdr; gen_rng := rng w |}) as (evs & Etr & Hall).
  destruct (generate_track_valid c v t length lo hi
              {| track := hdr; gen_rng := rng w |}
              Hstd Hlohi Hlo Hhi Ht Hwf Hval Hne Hlen)
    as (s' & seed & played & E & _ & Htr & _ & _ & Hok).
  unfold on_track. rewrite E in *. cbn [fst track] in Etr, Htr.
  rewrite Etr in Htr. apply app_inv_head in Htr. rewrite <- Htr in Hok.
  exists (gen_rng s'), evs. rewrite Etr.
  split; [reflexivity|]. split; [exact Hall | exact Hok].
Qed.

(** The run of [generate_music] on tables that generation cannot fail on:
    both tracks are built, and the outcome is that of saving them. *)
Lemma generate_music_result (bpm2tempo : Z -> outcome Z)
    (writable : string -> bool) (length : Z)
    (output_path : string) (tempo t0 : Z) (w : World) :
  standard_durations (self w) ->
  well_formed (transitions_melody (self w)) = true ->
  well_formed (transitions_bass (self w)) = true ->
  valid_table (transitions_melody (self w)) = true ->
  valid_table (transitions_bass (self w)) = true ->
  is_empty (transitions_melody (self w)) && is_empty (transitions_bass (self w))
    = false ->
  bpm2tempo tempo = Returned t0 -> 0 <= t0 <= 16777215 ->
  1 <= length ->
  exists r f,
    two_voice_file f /\ valid_file f
    /\ generate_music bpm2tempo writable length output_path tempo w
       = if writable output_path
         then ({| self := self w;
                  stdout := stdout w ++ skipped_voices (self w)
                            ++ [GeneratedSuccessfully output_path];
                  disk := fun p => if String.eqb p output_path then Some f
                                   else disk w p;
                  rng := r |}, Returned tt)
         else ({| self := self w;
                  stdout := stdout w ++ skipped_voices (self w);
                  disk := disk w; rng := r |}, Raised OSError).
Proof.
  intros Hstd Hwm Hwb Hvm Hvb Hne Ht0 Hrange Hlen.
  assert (Htempo : (0 <=? t0) && (t0 <=? 16777215) = true).
  { apply andb_true_iff. split; apply Z.leb_le; lia. }
  assert (Hhm : Forall (fun e => valid_message e = true)
                  [set_tempo t0; program_change 73 0]).
  { constructor; [exact Htempo|]. constructor; [reflexivity | constructor]. }
  assert (Hhb : Forall (fun e => valid_message e = true)
                  [set_tempo t0; program_change 33 1]).
  { constructor; [exact Htempo|]. constructor; [reflexivity | constructor]. }
  unfold generate_music, bind, gets, lift_outcome, meta_set_tempo,
    skipped_voices.
  rewrite Hne, Ht0, Htempo. unfold ret at 1 2.
  destruct (transitions_melody (self w)) as [|em tm] eqn:Em;
    destruct (transitions_bass (self w)) as [|eb tb] eqn:Eb;
    cbn [is_empty negb andb] in *; try discriminate.
  - destruct (on_track_returns (self w) bass (eb :: tb)
                [set_tempo t0; program_change 33 1] length 40 80
                (printed w SkippingMelodyGeneration))
      as (r & evs & E & Hall & Hok);
      [exact Hstd | lia | lia | lia | cbn; congruence | congruence
      | congruence | discriminate | lia |].
    unfold print, modify, ret. fold (printed w SkippingMelodyGeneration).
    rewrite E.
    exists r, {| tracks := [[set_tempo t0; program_change 73 0];
                            [set_tempo t0; program_change 33 1] ++ evs] |}.
    split; [exists t0, [], evs; repeat split; auto|].
    split.
    { constructor; [exact Hhm|]. constructor; [|constructor].
      apply Forall_app. split; [exact Hhb | exact Hok]. }
    unfold save, modify, raise. destruct (writable output_path);
      cbn [printed self stdout disk rng app]; rewrite ?app_nil_r;
      rewrite <- ?app_assoc; reflexivity.
  - destruct (on_track_returns (self w) melody (em :: tm)
                [set_tempo t0; program_change 73 0] length 30 60 w)
      as (r & evs & E & Hall & Hok);
      [exact Hstd | lia | lia | lia | cbn; congruence | congruence
      | congruence | discriminate | lia |].
    rewrite E. unfold print, modify, ret.
    exists r, {| tracks := [[set_tempo t0; program_change 73 0] ++ evs;
                            [set_tempo t0; program_change 33 1]] |}.
    split; [exists t0, evs, []; repeat split; auto|].
    split.
    { constructor; [apply Forall_app; split; [exact Hhm | exact Hok]|].
      constructor; [exact Hhb | constructor]. }
    unfold save, modify, raise. destruct (writable output_path);
      cbn [printed self stdout disk rng app]; rewrite ?app_nil_r;
      rewrite <- ?app_assoc; reflexivity.
  - destruct (on_track_returns (self w) melody (em :: tm)
                [set_tempo t0; program_change 73 0] length 30 60 w)
      as (r & evs & E & Hall & Hok);
      [exact Hstd | lia | lia | lia | cbn; congruence | congruence
      | congruence | discriminate | lia |].
    rewrite E.
    destruct (on_track_returns (self w) bass (eb :: tb)
                [set_tempo t0; program_change 33 1] length 40 80
                {| self := self w; stdout := stdout w; disk := disk w; rng := r |})
      as (r' & evs' & E' & Hall' & Hok');
      [exact Hstd | lia | lia | lia | cbn; congruence | congruence
      | congruence | discriminate | lia |].
    cbn [self] in E'. rewrite E'. unfold print, modify, ret.
    exists r', {| tracks := [[set_tempo t0; program_change 73 0] ++ evs;
                             [set_tempo t0; program_change 33 1] ++ evs'] |}.
    split; [exists t0, evs, evs'; repeat split; auto|].
    split.
    { constructor; [apply Forall_app; split; [exact Hhm | exact Hok]|].
      constructor; [|constructor].
      apply Forall_app. split; [exact Hhb | exact Hok']. }
    unfold save, modify, raise. destruct (writable output_path);
      cbn [printed self stdout disk rng app]; rewrite ?app_nil_r;
      reflexivity.
Qed.

(** X11. The outcome of [generate_music] is that of saving.  With
    well-formed tables of MIDI note numbers, not both empty, [length >= 1]
    and a tempo for which [bpm2tempo] returns a value of at most three
    bytes (0..16777215, which [MetaMessage] requires), [generate_music]
    builds a two-track container of messages that mido accepts and leaves
    the composer as it was.  If [output_path] can be opened for writing the
    call returns: it has printed one "Skipping" line per empty table and
    then the success line, stored the container at [output_path] and
    changed no other file.  If it cannot, the call raises [OSError] after
    the "Skipping" lines, and no file is changed. *)
Theorem generate_music_outcome (bpm2tempo : Z -> outcome Z)
    (writable : string -> bool) (length : Z)
    (output_path : string) (tempo t0 : Z) (w : World) :
  standard_durations (self w) ->
  well_formed (transitions_melody (self w)) = true ->
  well_formed (transitions_bass (self w)) = true ->
  valid_table (transitions_melody (self w)) = true ->
  valid_table (transitions_bass (self w)) = true ->
  is_empty (transitions_melody (self w)) && is_empty (transitions_bass (self w))
    = false ->
  bpm2tempo tempo = Returned t0 -> 0 <= t0 <= 16777215 ->
  1 <= length ->
  exists w' f,
    fst (generate_music bpm2tempo writable length output_path tempo w) = w'
    /\ self w' = self w
    /\ two_voice_file f /\ valid_file f
    /\ (writable output_path = true ->
        snd (generate_music bpm2tempo writable length output_path tempo w)
          = Returned tt
        /\ stdout w' = stdout w ++ skipped_voices (self w)
                       ++ [GeneratedSuccessfully output_path]
        /\ disk w' output_path = Some f
        /\ (forall p, p <> output_path -> disk w' p = disk w p))
    /\ (writable output_path = false ->
        snd (generate_music bpm2tempo writable length output_path tempo w)
          = Raised OSError
        /\ stdout w' = stdout w ++ skipped_voices (self w)
        /\ disk w' = disk w).
Proof.
  intros Hstd Hwm Hwb Hvm Hvb Hne Ht0 Hrange Hlen.
  destruct (generate_music_result bpm2tempo writable length output_path tempo
              t0 w Hstd Hwm Hwb Hvm Hvb Hne Ht0 Hrange Hlen)
    as (r & f & Htwo & Hvalid & E).
  rewrite E. eexists; exists f. split; [reflexivity|].
  destruct (writable output_path); cbn [fst snd self stdout disk].
  - split; [reflexivity|]. split; [exact Htwo|]. split; [exact Hvalid|].
    split; [|discriminate]. intros _.
    split; [reflexivity|]. split; [reflexivity|].
    rewrite String.eqb_refl. split; [reflexivity|].
    intros p Hp. destruct (String.eqb_spec p output_path); congruence.
  - split; [reflexivity|]. split; [exact Htwo|]. split; [exact Hvalid|].
    split; [discriminate|]. intros _. repeat split; reflexivity.
Qed.

(** The example corpus, fifty notes per voice, on a disk where only
    "generated_music.mid" can be written. *)
Lemma generate_music_outcome_witness :
  exists w' f,
    generate_music (fun _ => Returned 500000)
                   (String.eqb "generated_music.mid") 50
                   "generated_music.mid" 120 trained_world = (w', Returned tt)
    /\ stdout w' = stdout trained_world
                   ++ [GeneratedSuccessfully "generated_music.mid"]
    /\ disk w' "generated_music.mid"%string = Some f
    /\ valid_file f
    /\ snd (generate_music (fun _ => Returned 500000)
              (String.eqb "generated_music.mid") 50
              "no_such_dir/out.mid" 120 trained_world) = Raised OSError.
Proof.
  destruct (generate_music_outcome (fun _ => Returned 500000)
              (String.eqb "generated_music.mid") 50
              "generated_music.mid" 120 500000 trained_world)
    as (w' & f & E & _ & _ & Hvalid & Hyes & _).
  - split; vm_compute; reflexivity.
  - vm_compute. reflexivity.
  - vm_compute. reflexivity.
  - vm_compute. reflexivity.
  - vm_compute. reflexivity.
  - vm_compute. reflexivity.
  - reflexivity.
  - lia.
  - lia.
  - destruct (Hyes eq_refl) as (Hr & Hout & Hf & _).
    destruct (generate_music_outcome (fun _ => Returned 500000)
                (String.eqb "generated_music.mid") 50
                "no_such_dir/out.mid" 120 500000 trained_world)
      as (w2 & f2 & _ & _ & _ & _ & _ & Hno).
    + split; vm_compute; reflexivity.
    + vm_compute. reflexivity.
    + vm_compute. reflexivity.
    + vm_compute. reflexivity.
    + vm_compute. reflexivity.
    + vm_compute. reflexivity.
    + reflexivity.
    + lia.
    + lia.
    + destruct (Hno eq_refl) as (Hr2 & _).
      exists w', f. split.
      { rewrite <- E, <- Hr. apply surjective_pairing. }
      split; [|split; [exact Hf | split; [exact Hvalid | exact Hr2]]].
      rewrite Hout. vm_compute. reflexivity.
Defined.

(** X17. A tempo that [bpm2tempo] maps outside 0..16777215 stops
    [generate_music] at the first [set_tempo] meta-message: when some table
    is non-empty the call raises [ValueError]; nothing has been printed,
    generated or written. *)
Theorem generate_music_tempo_out_of_range (bpm2tempo : Z -> outcome Z)
    (writable : string -> bool) (length : Z)
    (output_path : string) (tempo t0 : Z) (w : World) :
  is_empty (transitions_melody (self w)) && is_empty (transitions_bass (self w))
    = false ->
  bpm2tempo tempo = Returned t0 ->
  t0 < 0 \/ 16777215 < t0 ->
  generate_music bpm2tempo writable length output_path tempo w
  = (w, Raised ValueError).
Proof.
  intros Hne Ht0 Hrange.
  unfold generate_music, bind, gets, lift_outcome, meta_set_tempo.
  rewrite Hne, Ht0.
  replace ((0 <=? t0) && (t0 <=? 16777215)) with false; [reflexivity|].
  symmetry. apply andb_false_iff.
  destruct Hrange; [left; apply Z.leb_gt | right; apply Z.leb_gt]; lia.
Qed.

(** The example corpus at one beat per minute, with mido's conversion
    60000000 / bpm. *)
Lemma generate_music_tempo_out_of_range_witness :
  generate_music (fun bpm => Returned (60000000 / bpm)) (fun _ => true) 50
                 "generated_music.mid" 1 trained_world
  = (trained_world, Raised ValueError).
Proof.
  apply (generate_music_tempo_out_of_range
           (fun bpm => Returned (60000000 / bpm)) (fun _ => true) 50
           "generated_music.mid" 1 60000000 trained_world).
  - vm_compute. reflexivity.
  - reflexivity.
  - right. lia.
Defined.

(** X12. Whatever the tables and however it ends, [generate_music] leaves
    the composer unchanged and changes no file other than [output_path];
    when it raises it has written nothing at all. *)
Theorem generate_music_effects (bpm2tempo : Z -> outcome Z)
    (writable : string -> bool) (length : Z)
    (output_path : string) (tempo : Z) (w : World) :
  self (fst (generate_music bpm2tempo writable length output_path tempo w))
  = self w
  /\ (forall p, p <> output_path ->
        disk (fst (generate_music bpm2tempo writable length output_path tempo w))
             p
        = disk w p)
  /\ (forall e,
        snd (generate_music bpm2tempo writable length output_path tempo w)
        = Raised e ->
        disk (fst (generate_music bpm2tempo writable length output_path tempo w))
        = disk w).
Proof.
  assert (Hother : forall (d : string -> option MidiFile) f p,
    p <> output_path ->
    (if String.eqb p output_path then Some f else d p) = d p).
  { intros d f p Hp. destruct (String.eqb_spec p output_path); congruence. }
  unfold generate_music, bind, gets, lift_outcome, on_track, meta_set_tempo,
    save.
  generalize (_generate_track (self w) melody length 30 60) as gm.
  generalize (_generate_track (self w) bass length 40 80) as gb.
  intros gb gm.
  destruct (writable output_path);
  destruct (is_empty (transitions_melody (self w))) eqn:Em;
    destruct (is_empty (transitions_bass (self w))) eqn:Eb; cbn;
    try (repeat split; discriminate);
    destruct (bpm2tempo tempo) as [t|e0]; cbn;
    try (repeat split; reflexivity);
    destruct ((0 <=? t) && (t <=? 16777215)); cbn;
    try (repeat split; reflexivity);
    repeat match goal with
           | |- context [gm ?s] => destruct (gm s) as [? [[]|?]]; cbn
           | |- context [gb ?s] => destruct (gb s) as [? [[]|?]]; cbn
           end;
    repeat split; auto; try discriminate.
Qed.

(** The example corpus asked for zero notes: the call raises, and
    "bass.mid" and the output path are as before. *)
Lemma generate_music_effects_witness :
  snd (generate_music (fun _ => Returned 500000) (fun _ => true) 0
         "generated_music.mid" 120 trained_world) = Raised UnboundLocalError
  /\ disk (fst (generate_music (fun _ => Returned 500000) (fun _ => true) 0
                  "generated_music.mid" 120 trained_world))
     = disk trained_world
  /\ disk (fst (generate_music (fun _ => Returned 500000) (fun _ => true) 0
                  "generated_music.mid" 120 trained_world)) "bass.mid"%string
     = disk trained_world "bass.mid"%string.
Proof.
  destruct (generate_music_effects (fun _ => Returned 500000) (fun _ => true) 0
              "generated_music.mid" 120 trained_world) as (_ & H2 & H3).
  assert (E : snd (generate_music (fun _ => Returned 500000) (fun _ => true) 0
                     "generated_music.mid" 120 trained_world)
              = Raised UnboundLocalError) by (vm_compute; reflexivity).
  split; [exact E|]. split; [exact (H3 _ E)|].
  apply H2. discriminate.
Defined.

(* ------------------------------------------------------------------ *)
(** ** The script [main.py] *)

Lemma trained_tables (order0 : nat) (mel bas : list Z) :
  (1 <= order0)%nat ->
  standard_durations (trained order0 mel bas)
  /\ transitions_melody (trained order0 mel bas) = table_of order0 mel
  /\ transitions_bass (trained order0 mel bas) = table_of order0 bas
  /\ well_formed (table_of order0 mel) = true
  /\ well_formed (table_of order0 bas) = true.
Proof.
  intros Hord. split; [split; reflexivity|]. split; [reflexivity|].
  split; [reflexivity|].
  split; apply (entry_normalized_well_formed order0); try exact Hord;
    apply table_of_entries.
Qed.

(** X13. The script raises only when the output file cannot be written.
    Assume that [bpm2tempo(120)] returns a value of at most three bytes
    (it returns 500000) and that the notes read from the training files
    are MIDI note numbers (0..127, as mido reads them).  With no file found
    the script prints one line and does nothing else.  Otherwise, if no
    track of either voice qualifies it ends on "No models trained" and
    writes no file.  If some track qualifies and "generated_music.mid" can
    be opened for writing, it ends on the success line with a two-track
    container of messages that mido accepts stored there and no other file
    changed; if the file cannot be opened, the script ends with the
    [OSError] of [save] and no file is changed. *)
Theorem main_runs (bpm2tempo : Z -> outcome Z) (writable : string -> bool)
    (t0 : Z) (midi_files : list string) (p : Process) :
  bpm2tempo 120 = Returned t0 -> 0 <= t0 <= 16777215 ->
  forallb valid_pitch (corpus_notes (files p) melody midi_files) = true ->
  forallb valid_pitch (corpus_notes (files p) bass midi_files) = true ->
  exists p' r,
    main bpm2tempo writable midi_files p = (p', r)
    /\ (midi_files = [] ->
        r = Returned tt
        /\ p' = {| console := console p ++ [NoMidiFilesFound];
                   files := files p; entropy := entropy p |})
    /\ (midi_files <> [] ->
        corpus_notes (files p) melody midi_files = [] ->
        corpus_notes (files p) bass midi_files = [] ->
        r = Returned tt
        /\ files p' = files p
        /\ exists pre, console p' = pre ++ [FromComposer NoModelsTrained])
    /\ (midi_files <> [] ->
        corpus_notes (files p) melody midi_files <> []
        \/ corpus_notes (files p) bass midi_files <> [] ->
        writable "generated_music.mid"%string = true ->
        r = Returned tt
        /\ (exists f, files p' "generated_music.mid"%string = Some f
                      /\ two_voice_file f /\ valid_file f)
        /\ (forall q, q <> "generated_music.mid"%string -> files p' q = files p q)
        /\ exists pre,
             console p'
             = pre ++ [FromComposer (GeneratedSuccessfully "generated_music.mid")])
    /\ (midi_files <> [] ->
        corpus_notes (files p) melody midi_files <> []
        \/ corpus_notes (files p) bass midi_files <> [] ->
        writable "generated_music.mid"%string = false ->
        r = Raised OSError /\ files p' = files p).
Proof.
  intros Ht0 Hrange Hvm Hvb. unfold main.
  destruct midi_files as [|f0 fs]; cbn [is_empty].
  { eexists; eexists. split; [reflexivity|]. repeat split; congruence. }
  set (midi_files := f0 :: fs) in *.
  unfold bind, say, modify, call. cbn [files entropy console].
  rewrite (train_result 2 midi_files
             {| self := init 2; stdout := []; disk := files p;
                rng := entropy p |} eq_refl).
  cbn [self stdout disk rng files entropy console app].
  pose proof (corpus_notes_long (files p) melody midi_files ltac:(discriminate))
    as Hm.
  pose proof (corpus_notes_long (files p) bass midi_files ltac:(discriminate))
    as Hb.
  set (mel := corpus_notes (files p) melody midi_files) in *.
  set (bas := corpus_notes (files p) bass midi_files) in *.
  destruct (trained_tables 2 mel bas ltac:(lia))
    as (Hstd & Etm & Etb & Hwm & Hwb).
  assert (Htm : valid_table (table_of 2 mel) = true)
    by (apply (pitches_within_valid mel); [exact Hvm | apply table_of_entries]).
  assert (Htb : valid_table (table_of 2 bas) = true)
    by (apply (pitches_within_valid bas); [exact Hvb | apply table_of_entries]).
  set (w1 := {| self := trained 2 mel bas; stdout := [];
                disk := files p; rng := entropy p |}).
  destruct (is_empty (table_of 2 mel) && is_empty (table_of 2 bas)) eqn:Eboth.
  - (* both tables empty: both corpora are empty *)
    apply andb_true_iff in Eboth as [E1 E2].
    assert (Hm0 : table_of 2 mel = []) by (now destruct (table_of 2 mel)).
    assert (Hb0 : table_of 2 bas = []) by (now destruct (table_of 2 bas)).
    assert (E : generate_music bpm2tempo writable 200 "generated_music.mid" 120 w1
                = (printed w1 NoModelsTrained, Returned tt)).
    { unfold generate_music, bind, gets. subst w1. cbn [self].
      rewrite Etm, Etb, Hm0, Hb0. reflexivity. }
    rewrite E. cbn [printed self stdout disk rng w1 map app].
    eexists; eexists. split; [reflexivity|]. cbn [files console].
    split; [discriminate|].
    apply table_of_empty_iff in Hm0, Hb0.
    split; [|split].
    + intros _ _ _. split; [reflexivity|]. split; [reflexivity|].
      eexists. reflexivity.
    + intros _ Hsome. exfalso.
      destruct Hsome as [H | H]; [destruct Hm as [Hm | Hm] | destruct Hb as [Hb | Hb]];
        try contradiction; lia.
    + intros _ Hsome. exfalso.
      destruct Hsome as [H | H]; [destruct Hm as [Hm | Hm] | destruct Hb as [Hb | Hb]];
        try contradiction; lia.
  - (* some table is non-empty *)
    destruct (generate_music_result bpm2tempo writable 200 "generated_music.mid"
                120 t0 w1)
      as (r & f & Htwo & Hvalid & E);
      [exact Hstd | cbn [self w1]; congruence | cbn [self w1]; congruence
      | cbn [self w1]; congruence | cbn [self w1]; congruence
      | cbn [self w1]; congruence | exact Ht0 | exact Hrange | lia |].
    rewrite E.
    destruct (writable "generated_music.mid"%string) eqn:Ew;
      cbn [self stdout disk rng w1 app];
      (eexists; eexists; split; [reflexivity|]); cbn [files console];
      (split; [discriminate|]);
      (split; [intros _ Hm0 Hb0; exfalso; fold mel in Hm0; fold bas in Hb0;
               rewrite Hm0, Hb0 in Eboth; discriminate|]).
    + split; [|intros _ _; discriminate].
      intros _ _ _. split; [reflexivity|].
      split; [exists f; repeat split; assumption|].
      split.
      * intros q Hq.
        destruct (String.eqb_spec q "generated_music.mid"); congruence.
      * rewrite !map_app. cbn [map]. rewrite !app_assoc.
        eexists. reflexivity.
    + split; [intros _ _; discriminate|].
      intros _ _ _. split; reflexivity.
Qed.

(** The example disk with the three paths that exist and one that does
    not, where every path can be written. *)
Lemma main_runs_witness :
  exists p',
    main (fun _ => Returned 500000) (fun _ => true)
         ["bass.mid"; "melody.mid"; "missing.mid"]%string example_process
      = (p', Returned tt)
    /\ exists f, files p' "generated_music.mid"%string = Some f
                 /\ two_voice_file f /\ valid_file f.
Proof.
  destruct (main_runs (fun _ => Returned 500000) (fun _ => true) 500000
              ["bass.mid"; "melody.mid"; "missing.mid"]%string example_process)
    as (p' & r & E & _ & _ & Hsome & _).
  - reflexivity.
  - lia.
  - vm_compute. reflexivity.
  - vm_compute. reflexivity.
  - destruct Hsome as (Hr & Hf & _).
    + discriminate.
    + left. vm_compute. discriminate.
    + reflexivity.
    + exists p'. split; [now rewrite <- Hr|]. exact Hf.
Defined.

(* ------------------------------------------------------------------ *)
(** ** Distributions after any number of training calls *)



(* ------------------------------------------------------------------ *)
(** ** Where the chain can stop *)

Lemma firstn_succ_nth (n : nat) (l : list Z) (d : Z) :
  (n < length l)%nat -> firstn (S n) l = firstn n l ++ [nth n l d].
Proof.
  revert l; induction n as [|n IH]; intros [|x l] H; simpl in H; try lia.
  - reflexivity.
  - cbn [firstn nth app]. f_equal. apply IH. lia.
Qed.

(** Sliding the window one note to the right. *)
Lemma window_shift (order i : nat) (notes : list Z) :
  (1 <= order)%nat -> (i + order < length notes)%nat ->
  last_slice order (firstn order (skipn i notes) ++ [nth (i + order) notes 0])
  = firstn order (skipn (S i) notes).
Proof.
  intros Hord Hi.
  rewrite <- nth_skipn, <- firstn_succ_nth by (rewrite length_skipn; lia).
  unfold last_slice. destruct order as [|k]; [lia|].
  rewrite length_firstn, length_skipn.
  replace (Nat.min (S (S k)) (length notes - i) - S k)%nat with 1%nat by lia.
  rewrite skipn_firstn_comm, skipn_skipn.
  replace (S (S k) - 1)%nat with (S k) by lia. reflexivity.
Qed.

Lemma filter_witness {A} (f : A -> bool) (l : list A) :
  (0 < length (filter f l))%nat -> exists x, In x l /\ f x = true.
Proof.
  induction l as [|x l IH]; simpl; [lia|].
  destruct (f x) eqn:E.
  - intros _. exists x. auto.
  - intros H. destruct (IH H) as (y & Hy & Hf). exists y. auto.
Qed.

Lemma filter_counts {A} (f : A -> bool) (l : list A) (x : A) :
  In x l -> f x = true -> (0 < length (filter f l))%nat.
Proof.
  intros Hin Hf. assert (H : In x (filter f l)) by (apply filter_In; auto).
  destruct (filter f l); [contradiction | simpl; lia].
Qed.

(** In the table built from [notes], the window that follows a recorded
    transition is again a key, unless it is the final window. *)
Lemma shifted_window_key (order0 : nat) (notes : list Z)
    (state : State) (d : Dist) (next_note : Z) :
  (1 <= order0)%nat ->
  table_get state (table_of order0 notes) = Some d ->
  In next_note (PyDict.keys d) ->
  table_get (last_slice order0 (state ++ [next_note])) (table_of order0 notes)
    <> None
  \/ last_slice order0 (state ++ [next_note]) = last_slice order0 notes.
Proof.
  intros Hord Hget Hnext.
  pose proof (table_of_frequencies order0 notes state next_note) as Hf.
  rewrite Hget in Hf. destruct Hf as [_ Hf].
  destruct (In_get Z.eqb Z.eqb_eq _ _ Hnext) as (pr & Hp & _).
  unfold dist_get in Hf. rewrite Hp in Hf. destruct Hf as [Hpc _].
  apply filter_witness in Hpc as ([s0 n0] & Hin & Hmatch).
  cbn [fst snd] in Hmatch. apply andb_true_iff in Hmatch as [Hs Hn].
  apply State_eqb_eq in Hs. apply Z.eqb_eq in Hn. subst s0 n0.
  unfold observations in Hin. apply in_map_iff in Hin as (i & Heq & Hi).
  apply in_seq in Hi. injection Heq as <- <-.
  rewrite window_shift by lia.
  destruct (Nat.lt_ge_cases (S i) (length notes - order0)) as [Hlt | Hge].
  - left. intros Hnone.
    pose proof (table_of_frequencies order0 notes
                  (firstn order0 (skipn (S i) notes)) 0) as Hf.
    rewrite Hnone in Hf.
    assert (Hpos : (0 < state_count (firstn order0 (skipn (S i) notes))
                          (observations order0 notes))%nat).
    { unfold state_count.
      apply (filter_counts _ _
               (firstn order0 (skipn (S i) notes),
                nth (S i + order0) notes 0)).
      - unfold observations. apply in_map_iff. exists (S i).
        split; [reflexivity | apply in_seq; lia].
      - apply State_eqb_refl. }
    lia.
  - right. unfold last_slice. destruct order0 as [|k]; [lia|].
    replace (S i) with (length notes - S k)%nat by lia.
    apply firstn_all2. rewrite length_skipn. lia.
Qed.

(** [(g + [x])[-order:]] only depends on [g[-order:]]. *)
Lemma last_slice_snoc (order : nat) (g : list Z) (x : Z) :
  (1 <= order)%nat ->
  last_slice order (last_slice order g ++ [x]) = last_slice order (g ++ [x]).
Proof.
  intros Hord. unfold last_slice. destruct order as [|k]; [lia|].
  rewrite !length_app, length_skipn. cbn [length].
  destruct (Nat.le_gt_cases (length g) (S k)) as [Hle | Hgt].
  - replace (length g - S k)%nat with 0%nat by lia. cbn [skipn].
    now replace (length g - 0 + 1 - S k)%nat with (length g + 1 - S k)%nat
      by lia.
  - replace (length g - (length g - S k) + 1 - S k)%nat with 1%nat by lia.
    replace (length g + 1 - S k)%nat with (1 + (length g - S k))%nat by lia.
    rewrite <- skipn_skipn, (skipn_app (length g - S k) g [x]).
    replace (length g - S k - length g)%nat with 0%nat by lia.
    reflexivity.
Qed.

Lemma composer_after_settings (notes : list Z) (order0 : nat) :
  order (composer_after notes order0) = order0
  /\ standard_durations (composer_after notes order0).
Proof.
  unfold composer_after, _build_transitions, bind, gets, lift_outcome. simpl.
  destruct (Nat.ltb_spec (length notes) (order0 + 1)) as [Hlt|Hge].
  - simpl. split; [reflexivity | split; reflexivity].
  - destruct (normalize _) as [t1 r]. split; [reflexivity | split; reflexivity].
Qed.

(** The loop from a seed state of the table built from [notes]: as long as
    every iteration has emitted, the current state is the tail of the
    generated notes and is a key of the table or the final window. *)
Lemma generate_loop_until_miss (c : MarkovComposer) (track_type : TrackType)
    (order0 : nat) (notes : list Z) (n : nat) (lo hi : Z) (seed : State)
    (s : GenState) :
  (1 <= order0)%nat -> order c = order0 -> standard_durations c ->
  lo <= hi ->
  In seed (PyDict.keys (table_of order0 notes)) ->
  exists l' s' played,
    generate_loop c track_type (table_of order0 notes) (Z.of_nat n) lo hi
      {| current_state := seed; generated_notes := seed; channel := None |} s
    = (s', Returned l')
    /\ track s' = track s ++ render (voice_channel track_type) (last seed 0)
                                    played
    /\ Forall (fun x => In (played_pitch x) (successors (table_of order0 notes))
                        /\ lo <= snd (fst x) <= hi
                        /\ In (snd x) (note_durations c)) played
    /\ (length played <= n)%nat
    /\ (length played = n ->
        current_state l' = last_slice order0 (generated_notes l')
        /\ (table_get (current_state l') (table_of order0 notes) <> None
            \/ current_state l' = last_slice order0 notes)).
Proof.
  intros Hord Horder Hstd Hlohi Hseed.
  set (t := table_of order0 notes) in *.
  destruct (table_of_entries order0 notes) as [Hnorm _]. fold t in Hnorm.
  assert (Hwf : well_formed t = true)
    by (apply (entry_normalized_well_formed order0); assumption).
  assert (Hne : t <> []) by (intros E; rewrite E in Hseed; exact Hseed).
  destruct (In_get State_eqb State_eqb_eq _ _ Hseed) as (d0 & Hget0 & Hin0).
  assert (Hseed_len : length seed = order0).
  { rewrite Forall_forall in Hnorm. destruct (Hnorm _ Hin0) as [[Hl _] _].
    exact Hl. }
  assert (Hseed_ne : seed <> [])
    by (destruct seed; [simpl in Hseed_len; lia | discriminate]).
  set (ch := voice_channel track_type).
  pose (I := fun (k : nat) (l' : Locals) (s' : GenState) =>
    exists played,
      track s' = track s ++ render ch (last seed 0) played
      /\ generated_notes l' = seed ++ map played_pitch played
      /\ Forall (fun x => In (played_pitch x) (successors t)
                          /\ lo <= snd (fst x) <= hi
                          /\ In (snd x) (note_durations c)) played
      /\ (length played <= k)%nat
      /\ (length played = k ->
          current_state l' = last_slice order0 (generated_notes l')
          /\ (table_get (current_state l') t <> None
              \/ current_state l' = last_slice order0 notes))).
  assert (Hstep : forall k (x : nat) l1 s1, I k l1 s1 ->
    exists l2 s2,
      generate_step c track_type t (PyDict.keys t) lo hi x l1 s1
        = (s2, Returned l2) /\ I (S k) l2 s2).
  { intros k x l1 s1 (played & Htr & Hg & Hall & Hcnt & Hst).
    assert (Hg1 : generated_notes l1 <> []).
    { rewrite Hg. destruct seed; [congruence | discriminate]. }
    destruct (table_get (current_state l1) t) as [d|] eqn:Eget.
    - pose proof (get_In State_eqb State_eqb_eq _ _ _ Eget) as Hin.
      destruct (well_formed_In _ _ _ Hwf Hin) as [_ Hpos].
      destruct (generate_step_note c track_type t (PyDict.keys t) lo hi x
                  l1 s1 d Hstd Hlohi Eget Hpos Hg1)
        as (next & dur & vel & s2 & Hn & Hd & Hv & E & Htr2).
      eexists; exists s2. split; [exact E|].
      exists (played ++ [(next, vel, dur)]).
      rewrite render_snoc, map_app, length_app. cbn [map length].
      split; [|split; [|split; [|split]]].
      + rewrite Htr2, Htr, <- app_assoc. fold ch.
        rewrite Hg, (last_app_default seed) by exact Hseed_ne.
        reflexivity.
      + cbn [generated_notes]. rewrite Hg, <- app_assoc. reflexivity.
      + apply Forall_app. split; [exact Hall|]. constructor; [|constructor].
        cbn. repeat split; try lia; try assumption.
        eapply In_successors; eauto.
      + lia.
      + intros Hk. assert (Hk' : length played = k) by lia.
        destruct (Hst Hk') as [Hcs _].
        cbn [current_state generated_notes]. rewrite Horder.
        split; [reflexivity|].
        rewrite <- (last_slice_snoc order0 (generated_notes l1) next Hord),
          <- Hcs.
        exact (shifted_window_key order0 notes (current_state l1) d next
                 Hord Eget Hn).
    - destruct (generate_step_retries c track_type t (PyDict.keys t) lo hi x
                  l1 s1 (keys_not_nil _ Hne) (or_introl Eget))
        as (st & Hst' & E).
      eexists; eexists. split; [exact E|].
      exists played. cbn [track advance generated_notes current_state channel].
      split; [exact Htr|]. split; [exact Hg|]. split; [exact Hall|].
      split; [lia|]. intros Hk. lia. }
  assert (H0 : I 0%nat {| current_state := seed; generated_notes := seed;
                          channel := None |} s).
  { exists []. cbn [render map length current_state generated_notes].
    rewrite !app_nil_r.
    split; [reflexivity|]. split; [reflexivity|]. split; [constructor|].
    split; [lia|]. intros _. split.
    - unfold last_slice. destruct order0 as [|k]; [reflexivity|].
      rewrite Hseed_len, Nat.sub_diag. reflexivity.
    - left. unfold table_get. rewrite Hget0. discriminate. }
  destruct (for_each_invariant I _ Hstep (seq 0 n) 0%nat _ s H0)
    as (l' & s' & E & played & Htr & Hg & Hall & Hcnt & Hst).
  rewrite length_seq in Hcnt, Hst. cbn [Nat.add] in Hcnt, Hst.
  exists l', s', played. unfold generate_loop. rewrite Nat2Z.id.
  repeat split; auto; apply Hst; assumption.
Qed.

(** X15. The first iteration of the loop of [_generate_track] that finds
    no successor, if there is one, finds the generator at the final window
    of the training notes.  On the table that [_build_transitions] builds
    from [notes] on a new composer of order at least 1 (pitches 0..127,
    velocity bounds with [0 <= min_velocity <= max_velocity <= 127]), the
    loop started at a seed state of the table returns after any number [n]
    of iterations, having built messages that mido accepts; if all [n]
    iterations emitted a note (the track has [n] more note-ons), then the
    current state is the last [order] generated notes and it is a key of
    the table, unless it is the last [order] notes of the training
    sequence.  After a re-pick this is no longer so: the next state is
    again cut from the generated notes, which the re-pick leaves as they
    are ([state_after_repick]). *)
Theorem first_miss_at_final_window (order0 : nat) (notes : list Z) (n : nat)
    (lo hi : Z) (seed : State) (s : GenState) :
  (1 <= order0)%nat -> lo <= hi -> 0 <= lo -> hi <= 127 ->
  forallb valid_pitch notes = true ->
  In seed (PyDict.keys (transitions_melody (composer_after notes order0))) ->
  exists l' s' evs,
    generate_loop (composer_after notes order0) melody
      (transitions_melody (composer_after notes order0)) (Z.of_nat n) lo hi
      {| current_state := seed; generated_notes := seed; channel := None |} s
    = (s', Returned l')
    /\ track s' = track s ++ evs
    /\ Forall (fun e => valid_message e = true) evs
    /\ (count_note_on evs <= n)%nat
    /\ (count_note_on evs = n ->
        current_state l' = last_slice order0 (generated_notes l')
        /\ (table_get (current_state l')
                      (transitions_melody (composer_after notes order0))
              <> None
            \/ current_state l' = last_slice order0 notes)).
Proof.
  intros Hord Hlohi Hlo Hhi Hvalid Hseed.
  rewrite composer_after_table in *. fold (table_of order0 notes) in *.
  destruct (composer_after_settings notes order0) as [Horder Hstd].
  destruct (generate_loop_until_miss (composer_after notes order0) melody
              order0 notes n lo hi seed s Hord Horder Hstd Hlohi Hseed)
    as (l' & s' & played & E & Htr & Hall & Hcnt & Hst).
  exists l', s', (render (voice_channel melody) (last seed 0) played).
  rewrite count_note_on_render.
  split; [exact E|]. split; [exact Htr|]. split; [|split; assumption].
  destruct (table_of_entries order0 notes) as [Hnorm Hwithin].
  pose proof (pitches_within_valid notes _ Hvalid Hwithin) as Hvt.
  destruct (In_get State_eqb State_eqb_eq _ _ Hseed) as (d0 & _ & Hin0).
  assert (Hseed_ne : seed <> []).
  { apply (entry_normalized_well_formed order0) in Hnorm; [|exact Hord].
    now destruct (well_formed_In _ _ _ Hnorm Hin0). }
  assert (Hlast : valid_pitch (last seed 0) = true).
  { destruct (valid_table_In _ seed d0 Hvt Hin0) as [Hs _].
    rewrite forallb_forall in Hs. apply Hs. now apply last_In. }
  apply (render_valid (voice_channel melody) (last seed 0) played
           (voice_channel_range melody) Hlast).
  eapply Forall_impl; [|exact Hall]. intros x (Hp & Hv & Hd).
  split; [now apply (valid_successor (table_of order0 notes))|].
  split; [lia | now apply (standard_durations_nonneg (composer_after notes order0))].
Qed.

(** On 60, 62, 64, 65 with order 2, from the seed (60,62): two iterations
    emit 64 and 65 and reach (64,65), the final window, which is not a
    key. *)
Lemma first_miss_at_final_window_witness :
  exists l' s' evs,
    generate_loop (composer_after [60; 62; 64; 65] 2) melody
      (transitions_melody (composer_after [60; 62; 64; 65] 2)) 2 30 60
      {| current_state := [60; 62]; generated_notes := [60; 62];
         channel := None |} empty_track
    = (s', Returned l')
    /\ track s' = evs
    /\ count_note_on evs = 2%nat
    /\ current_state l' = [64; 65]
    /\ (table_get [64; 65] (transitions_melody (composer_after [60; 62; 64; 65] 2))
          <> None
        \/ [64; 65] = last_slice 2 [60; 62; 64; 65]).
Proof.
  destruct (first_miss_at_final_window 2 [60; 62; 64; 65] 2 30 60 [60; 62]
              empty_track)
    as (l' & s' & evs & E & Htr & _ & _ & Hst).
  - lia.
  - lia.
  - lia.
  - lia.
  - reflexivity.
  - vm_compute. left. reflexivity.
  - assert (E' : generate_loop (composer_after [60; 62; 64; 65] 2) melody
                   (transitions_melody (composer_after [60; 62; 64; 65] 2))
                   2 30 60
                   {| current_state := [60; 62]; generated_notes := [60; 62];
                      channel := None |} empty_track
                 = (s', Returned l')) by exact E.
    assert (Hl : current_state l' = [64; 65]).
    { revert E'. vm_compute. intros [= <- <-]. reflexivity. }
    assert (Hc : count_note_on evs = 2%nat).
    { cbn [track empty_track app] in Htr. rewrite <- Htr.
      revert E'. vm_compute. intros [= <- <-]. reflexivity. }
    exists l', s', evs. split; [exact E'|]. split; [exact Htr|].
    split; [exact Hc|]. split; [exact Hl|].
    destruct (Hst Hc) as [_ Hkey]. rewrite Hl in Hkey. exact Hkey.
Defined.

(** Later misses can be anywhere.  On the same table and tape the third
    iteration re-picks (60,62), the fourth emits 64 and cuts the next
    state from the generated notes 60, 62, 64, 65, 64: it is (65,64),
    neither a key nor the final window. *)
Example state_after_repick :
  exists s' l',
    generate_loop (composer_after [60; 62; 64; 65] 2) melody
      (transitions_melody (composer_after [60; 62; 64; 65] 2)) 4 30 60
      {| current_state := [60; 62]; generated_notes := [60; 62];
         channel := None |} empty_track
    = (s', Returned l')
    /\ count_note_on (track s') = 3%nat
    /\ generated_notes l' = [60; 62; 64; 65; 64]
    /\ current_state l' = [65; 64]
    /\ table_get [65; 64] (transitions_melody (composer_after [60; 62; 64; 65] 2))
       = None.
Proof.
  eexists; eexists. split; [vm_compute; reflexivity|].
  repeat split; vm_compute; reflexivity.
Qed.

(* ------------------------------------------------------------------ *)
(** ** [generate_music] asked for no note *)

Lemma generate_track_no_iteration (c : MarkovComposer) (track_type : TrackType)
    (t : Table) (length lo hi : Z) (s : GenState) :
  transitions c track_type = Returned t -> t <> [] -> length <= 0 ->
  exists e, _generate_track c track_type length lo hi s = (advance s, Raised e).
Proof.
  intros Ht Hne Hlen.
  destruct (random_choice_returns (PyDict.keys t) s (keys_not_nil _ Hne))
    as (seed & Hseed & E0).
  unfold _generate_track, bind, lift_outcome. rewrite Ht.
  destruct (PyDict.keys t) as [|k ks] eqn:Ek; [now destruct Hseed|].
  cbn [is_empty]. rewrite E0. unfold generate_loop.
  replace (Z.to_nat length) with 0%nat by lia.
  cbn [seq for_each ret generated_notes].
  destruct seed as [|p seed].
  - exists IndexError. reflexivity.
  - exists UnboundLocalError. rewrite last_item_returns by discriminate.
    reflexivity.
Qed.

(** X16. Asked for [length <= 0] notes while some table is non-empty,
    [generate_music] always raises: the first non-empty voice reaches the
    closing note-off of [_generate_track] with [channel] unbound.  No file
    is written, the success line is not printed and the composer is
    unchanged. *)
Theorem generate_music_without_notes (bpm2tempo : Z -> outcome Z)
    (writable : string -> bool) (length : Z)
    (output_path : string) (tempo : Z) (w : World) :
  is_empty (transitions_melody (self w)) && is_empty (transitions_bass (self w))
    = false ->
  length <= 0 ->
  exists e,
    snd (generate_music bpm2tempo writable length output_path tempo w)
    = Raised e
    /\ disk (fst (generate_music bpm2tempo writable length output_path tempo w))
       = disk w
    /\ self (fst (generate_music bpm2tempo writable length output_path tempo w))
       = self w
    /\ ~ In (GeneratedSuccessfully output_path)
           (skipn (List.length (stdout w))
              (stdout (fst (generate_music bpm2tempo writable length
                              output_path tempo w)))).
Proof.
  intros Hne Hlen.
  unfold generate_music, bind, gets, lift_outcome, on_track, meta_set_tempo.
  rewrite Hne.
  destruct (bpm2tempo tempo) as [t0|e0].
  2:{ exists e0. cbn. rewrite skipn_all. repeat split; auto. }
  destruct ((0 <=? t0) && (t0 <=? 16777215)).
  2:{ exists ValueError. cbn. rewrite skipn_all. repeat split; auto. }
  cbn [ret].
  destruct (transitions_melody (self w)) as [|em tm] eqn:Em.
  - destruct (transitions_bass (self w)) as [|eb tb] eqn:Eb;
      [discriminate|].
    cbn [is_empty negb]. unfold print, modify, ret. cbn [fst snd rng].
    destruct (generate_track_no_iteration (self w) bass (eb :: tb) length 40 80
                {| track := [set_tempo t0; program_change 33 1];
                   gen_rng := rng w |}) as (e & E);
      [cbn; congruence | discriminate | exact Hlen |].
    rewrite E. exists e. cbn.
    rewrite skipn_app, skipn_all, Nat.sub_diag. cbn.
    repeat split; auto. intros [H | []]. discriminate.
  - cbn [is_empty negb].
    destruct (generate_track_no_iteration (self w) melody (em :: tm) length 30 60
                {| track := [set_tempo t0; program_change 73 0];
                   gen_rng := rng w |}) as (e & E);
      [cbn; congruence | discriminate | exact Hlen |].
    rewrite E. exists e. cbn. rewrite skipn_all. repeat split; auto.
Qed.

(** The example corpus asked for zero notes. *)
Lemma generate_music_without_notes_witness :
  exists e,
    snd (generate_music (fun _ => Returned 500000) (fun _ => true) 0
           "generated_music.mid" 120 trained_world) = Raised e
    /\ disk (fst (generate_music (fun _ => Returned 500000) (fun _ => true) 0
                    "generated_music.mid" 120 trained_world))
       = disk trained_world.
Proof.
  destruct (generate_music_without_notes (fun _ => Returned 500000)
              (fun _ => true) 0
              "generated_music.mid" 120 trained_world)
    as (e & E & Hd & _).
  - vm_compute. reflexivity.
  - lia.
  - exists e. split; [exact E | exact Hd].
Defined.
